(** * podcast-dl: the download-orchestration core of [bin/util.js]

    A shallow embedding of the archive ledger, the entry selector and the
    field projector of [bin/util.js], together with the selection gate of
    the command-line entry point, and the properties that the design
    document states about them.

    Conventions of the embedding.
    - JavaScript strings are restricted to code units below 256 and are
      represented by [string]; every character is one code unit.
    - JavaScript numbers are restricted to integers and represented by [Z].
    - A call that may throw returns [res]: [Ok v], or [Throw e] for an
      exception that the function does not catch.
    - [undefined] object properties are [None] in records and [VUndef] in
      generic values.
    - A generic object is the list of its own entries.  Its prototype is
      not modelled; what an object inherits from [Object.prototype] shows
      where the code assigns under the key [__proto__] and where it looks
      up a name in a table.
    - The disk is a map from the paths of the regular files to their
      contents, with a predicate that tells in which directories a file
      can be created. *)

From Stdlib Require Import ZArith List String Ascii Bool Lia.
From stdpp Require Import base option list gmap strings.

Import ListNotations.
#[local] Set Warnings "-register-all".
Local Open Scope string_scope.
Local Open Scope list_scope.
Local Open Scope Z_scope.

(** ** Exceptions and results *)

Module Js.

Inductive error : Type :=
| TypeError (msg : string)
| SyntaxError (msg : string)
| SystemError (msg : string).

(** The outcome of running a piece of JavaScript: a value, an uncaught
    exception, or (for the bounded unrolling of a [while] loop only) the
    exhaustion of the unrolling budget. *)
Inductive res (A : Type) : Type :=
| Ok (a : A)
| Throw (e : error)
| OutOfFuel.

Arguments Ok {A} a.
Arguments Throw {A} e.
Arguments OutOfFuel {A}.

Definition bind {A B : Type} (m : res A) (k : A -> res B) : res B :=
  match m with
  | Ok a => k a
  | Throw e => Throw e
  | OutOfFuel => OutOfFuel
  end.

Definition isOk {A : Type} (m : res A) : bool :=
  match m with Ok _ => true | _ => false end.

(** [Array.prototype.map] with a callback that may throw: the first
    exception aborts the traversal. *)
Fixpoint mapM {A B : Type} (f : A -> res B) (l : list A) : res (list B) :=
  match l with
  | [] => Ok []
  | x :: l' =>
      bind (f x) (fun y => bind (mapM f l') (fun ys => Ok (y :: ys)))
  end.

(** Running a loop body over a list of indices, threading an accumulator. *)
Fixpoint foldM {A S : Type} (f : A -> S -> res S) (l : list A) (s : S) : res S :=
  match l with
  | [] => Ok s
  | x :: l' => bind (f x s) (foldM f l')
  end.

(** Truthiness of a string-valued option ([undefined] and the empty string
    are falsy). *)
Definition truthy (o : option string) : bool :=
  match o with
  | Some s => negb (String.eqb s "")
  | None => false
  end.

(** What follows the prefix [p] in [s], when [s] starts with [p]. *)
Fixpoint strip_prefix (p s : string) : option string :=
  match p, s with
  | EmptyString, _ => Some s
  | String a p', String b s' =>
      if Ascii.eqb a b then strip_prefix p' s' else None
  | String _ _, EmptyString => None
  end.

(** [String.prototype.startsWith]. *)
Definition startsWith (s p : string) : bool :=
  match strip_prefix p s with
  | Some _ => true
  | None => false
  end.

(** [String.prototype.substring(1)]. *)
Definition substring1 (s : string) : string :=
  match s with
  | EmptyString => EmptyString
  | String _ r => r
  end.

(** [String.prototype.replace] with a string pattern: only the first
    occurrence is replaced. *)
Fixpoint replace_first (needle repl s : string) : string :=
  match strip_prefix needle s with
  | Some rest => repl +:+ rest
  | None =>
      match s with
      | EmptyString => EmptyString
      | String c s' => String c (replace_first needle repl s')
      end
  end.

(** Template-literal rendering of a possibly undefined string. *)
Definition render (o : option string) : string :=
  match o with
  | Some s => s
  | None => "undefined"
  end.

End Js.

Import Js.

Notation "x <- m ;; k" := (Js.bind m (fun x => k))
  (at level 100, m at next level, right associativity).

(** ** Regular expressions produced by [globToRegExp]

    [RegExp] is a built-in of the language.  The model covers the pattern
    sources that [globToRegExp] can build: an anchored sequence of literal
    characters (escaped or not), [.] and the class [[^.]], each optionally
    followed by one quantifier [+] or [*]. *)

Module Regex.

Inductive atom : Type :=
| ALit (c : ascii)   (* a literal character, possibly written escaped *)
| AAny               (* [.]: any character except a line terminator *)
| ANotDot.           (* [[^.]]: any character except the full stop  *)

Inductive quant : Type := QOne | QPlus | QStar.

Definition piece : Type := (atom * quant)%type.

(** A compiled, fully anchored pattern. *)
Record RegExp : Type := { pieces : list piece }.

(** The characters that the escaping step of [globToRegExp] protects; they
    are the syntax characters of the pattern language except [*]. *)
Definition is_special (c : ascii) : bool :=
  existsb (Ascii.eqb c)
    ["."; "+"; "?"; "^"; "$"; "{"; "}"; "("; ")"; "|"; "["; "]"; "\"]%char.

Definition is_line_terminator (c : ascii) : bool :=
  Ascii.eqb c "010"%char || Ascii.eqb c "013"%char.

Definition atom_ok (a : atom) (c : ascii) : bool :=
  match a with
  | ALit d => Ascii.eqb d c
  | AAny => negb (is_line_terminator c)
  | ANotDot => negb (Ascii.eqb c ".")
  end.

Definition nothing_to_repeat : error :=
  SyntaxError "Invalid regular expression: Nothing to repeat".
Definition unsupported : error :=
  SyntaxError "Invalid regular expression: outside the modelled fragment".

(** An atom, the quantifier that may follow it, and the parse of what comes
    next, given by [rest]. *)
Definition quantified (rest : string -> res (list piece)) (a : atom)
  (r : string) : res (list piece) :=
  match r with
  | String q r' =>
      if Ascii.eqb q "+" then ps <- rest r' ;; Ok ((a, QPlus) :: ps)
      else if Ascii.eqb q "*" then ps <- rest r' ;; Ok ((a, QStar) :: ps)
      else ps <- rest r ;; Ok ((a, QOne) :: ps)
  | EmptyString => ps <- rest r ;; Ok ((a, QOne) :: ps)
  end.

(** Parsing of the pattern body up to and including the final [$]. *)
Fixpoint parse_body (s : string) : res (list piece) :=
  match s with
  | EmptyString => Throw unsupported
  | String c r =>
      if Ascii.eqb c "$" then
        match r with
        | EmptyString => Ok []
        | _ => Throw unsupported
        end
      else if Ascii.eqb c "\" then
        match r with
        | String d r' =>
            if is_special d then quantified parse_body (ALit d) r'
            else Throw unsupported
        | EmptyString => Throw unsupported
        end
      else if Ascii.eqb c "." then quantified parse_body AAny r
      else if Ascii.eqb c "[" then
        match r with
        | String "^" (String "." (String "]" r')) =>
            quantified parse_body ANotDot r'
        | _ => Throw unsupported
        end
      else if Ascii.eqb c "*" || Ascii.eqb c "+" then Throw nothing_to_repeat
      else if is_special c then Throw unsupported
      else quantified parse_body (ALit c) r
  end.

(** The [RegExp] constructor on a source of the form [^...$]. *)
Definition compile (source : string) : res RegExp :=
  match source with
  | String "^" body => ps <- parse_body body ;; Ok {| pieces := ps |}
  | _ => Throw unsupported
  end.

(** Zero or more characters accepted by [a], followed by a match of the
    continuation [k]. *)
Fixpoint star (a : atom) (k : list ascii -> bool) (s : list ascii) : bool :=
  k s ||
  match s with
  | [] => false
  | c :: s' => atom_ok a c && star a k s'
  end.

(** Whole-string match of a sequence of pieces. *)
Fixpoint matches (ps : list piece) : list ascii -> bool :=
  match ps with
  | [] => fun s => match s with [] => true | _ => false end
  | (a, QOne) :: ps' =>
      fun s => match s with
               | [] => false
               | c :: s' => atom_ok a c && matches ps' s'
               end
  | (a, QPlus) :: ps' =>
      fun s => match s with
               | [] => false
               | c :: s' => atom_ok a c && star a (matches ps') s'
               end
  | (a, QStar) :: ps' => star a (matches ps')
  end.

(** [RegExp.prototype.test] on a string. *)
Definition test (re : RegExp) (s : string) : bool :=
  matches (pieces re) (list_ascii_of_string s).

End Regex.

(** ** Field projector: [globToRegExp], [processFieldRules],
    [applyFieldRules], [getFields] *)

Module Fields.

Import Regex.

(** Generic JavaScript values.  An object is the list of its own enumerable
    entries in the order of [Object.entries]. *)
Inductive value : Type :=
| VUndef
| VNull
| VBool (b : bool)
| VNum (n : Z)
| VStr (s : string)
| VArr (items : list value)
| VObj (entries : list (string * value)).

Definition object : Type := list (string * value).

(** Induction on values, with the induction hypothesis on the elements of
    an array and on the values of the entries of an object. *)
Section ValueInduction.

Variable P : value -> Prop.
Hypothesis HUndef : P VUndef.
Hypothesis HNull : P VNull.
Hypothesis HBool : forall b, P (VBool b).
Hypothesis HNum : forall n, P (VNum n).
Hypothesis HStr : forall s, P (VStr s).
Hypothesis HArr : forall items, Forall P items -> P (VArr items).
Hypothesis HObj :
  forall entries, Forall (fun kv => P (snd kv)) entries -> P (VObj entries).

Fixpoint value_induction (v : value) : P v :=
  match v with
  | VUndef => HUndef
  | VNull => HNull
  | VBool b => HBool b
  | VNum n => HNum n
  | VStr s => HStr s
  | VArr items =>
      HArr items
        ((fix all (l : list value) : Forall P l :=
            match l with
            | [] => @List.Forall_nil _ P
            | x :: l' =>
                @List.Forall_cons _ P x l' (value_induction x) (all l')
            end) items)
  | VObj entries =>
      HObj entries
        ((fix all (l : list (string * value))
            : Forall (fun kv => P (snd kv)) l :=
            match l with
            | [] => @List.Forall_nil _ _
            | kv :: l' =>
                @List.Forall_cons _ _ kv l' (value_induction (snd kv)) (all l')
            end) entries)
  end.

End ValueInduction.

Definition is_undefined (v : value) : bool :=
  match v with VUndef => true | _ => false end.

Definition keys (o : object) : list string := map fst o.

(** A key under which an assignment creates an entry: every key but
    [__proto__].  An object without an entry of that name inherits it from
    [Object.prototype] as an accessor, and the assignment runs the setter:
    it gives the object another prototype, or does nothing, and adds no
    entry.  The prototype of an object is none of its entries and is not
    modelled; no function of the program reads it. *)
Definition ownKey (key : string) : bool := negb (String.eqb key "__proto__").

(** [result[key] = v]: overwrite in place when the key exists, otherwise
    add the entry at the end, unless the key is [__proto__]. *)
Fixpoint obj_set (o : object) (key : string) (v : value) : object :=
  match o with
  | [] => if ownKey key then [(key, v)] else []
  | (k, w) :: o' =>
      if String.eqb k key then (k, v) :: o' else (k, w) :: obj_set o' key v
  end.

(** [glob.replace(/[.+?^${}()|[\]\\]/g, "\\$&")] *)
Fixpoint escapeRegExp (glob : string) : string :=
  match glob with
  | EmptyString => EmptyString
  | String c r =>
      if is_special c then String "\" (String c (escapeRegExp r))
      else String c (escapeRegExp r)
  end.

(** The constant [pattern] of [globToRegExp]. *)
Definition globPattern (glob : string) : string :=
  replace_first "*" "[^.]+" (replace_first "**" ".+" (escapeRegExp glob)).

Definition globToRegExp (glob : string) : res RegExp :=
  let pattern := globPattern glob in
  compile ("^" +:+ pattern +:+ "$").

Record rule : Type := { include : bool; pattern : RegExp }.

(** The callback of [patterns.map] in [processFieldRules]. *)
Definition processFieldRule (pattern : string) : res rule :=
  if startsWith pattern "!" then
    re <- globToRegExp (substring1 pattern) ;;
    Ok {| include := false; pattern := re |}
  else if startsWith pattern "\!" then
    re <- globToRegExp (substring1 pattern) ;;
    Ok {| include := true; pattern := re |}
  else
    re <- globToRegExp pattern ;;
    Ok {| include := true; pattern := re |}.

Definition processFieldRules (patterns : list string) : res (list rule) :=
  mapM processFieldRule patterns.

Definition is_reserved (key : string) : bool :=
  String.eqb key "$" || String.eqb key "_".

(** [rules.find((rule) => rule.pattern.test(fullKey))] *)
Definition matchingRule (rules : list rule) (fullKey : string) : option rule :=
  find (fun r => test (pattern r) fullKey) rules.

(** The [forEach] over [Object.entries(object)] in [applyFieldRules], with
    the inner closure [getToInclude] abstracted as [toInclude]. *)
Definition applyEntries (toInclude : value -> string -> value) (prefix : string)
  : object -> object -> object :=
  fix go (entries : object) (result : object) : object :=
    match entries with
    | [] => result
    | (key, v) :: rest =>
        if is_reserved key then go rest (obj_set result key v)
        else
          let fullKey := prefix +:+ key in
          let inc := toInclude v fullKey in
          if is_undefined inc then go rest result
          else go rest (obj_set result key inc)
    end.

(** The closure [getToInclude] of [applyFieldRules]; its object branch is
    the recursive call [applyFieldRules(value, rules, `${fullKey}.`)]. *)
Fixpoint getToInclude (rules : list rule) (v : value) (fullKey : string)
  {struct v} : value :=
  match v with
  | VArr items =>
      let nested :=
        List.filter (fun item => negb (is_undefined item))
          (map (fun item => getToInclude rules item fullKey) items) in
      match nested with
      | [] => VUndef
      | _ => VArr nested
      end
  | VObj entries =>
      let nested :=
        applyEntries (getToInclude rules) (fullKey +:+ ".") entries [] in
      match nested with
      | [] => VUndef
      | _ => VObj nested
      end
  | _ =>
      match matchingRule rules fullKey with
      | Some r => if include r then v else VUndef
      | None => VUndef
      end
  end.

Definition applyFieldRules (o : object) (rules : list rule) (prefix : string)
  : object :=
  applyEntries (getToInclude rules) prefix o [].

Definition getFields (o : object) (patterns : list string) : res object :=
  rules <- processFieldRules patterns ;;
  let rules := rev rules in
  Ok (applyFieldRules o rules "").

(** *** Reference notions for the projection properties *)

(** A key that is one path segment: not empty and without a full stop. *)
Definition segment (key : string) : bool :=
  negb (String.eqb key "") &&
  forallb (fun c => negb (Ascii.eqb c ".")) (list_ascii_of_string key).

(** A reserved key occurs somewhere inside the value, at the end of a
    chain of keys none of which is [__proto__]. *)
Fixpoint has_reserved (v : value) : bool :=
  match v with
  | VArr items => existsb has_reserved items
  | VObj entries =>
      existsb (fun kv => is_reserved (fst kv) ||
                         (ownKey (fst kv) && has_reserved (snd kv))) entries
  | _ => false
  end.

(** The pattern that the glob [*] compiles to. *)
Definition starRe : RegExp := {| pieces := [(ANotDot, QPlus)] |}.

(** The entries of an object under the reserved keys. *)
Definition reservedEntries (o : object) : object :=
  List.filter (fun kv => is_reserved (fst kv)) o.

End Fields.

(** ** Archive ledger: [getArchiveKey], [getArchive], [writeToArchive],
    [getIsInArchive] *)

Module Archive.

Import Fields.

(** [Array.prototype.includes] / [String.prototype.includes] applied to
    whatever [JSON.parse] returned; other receivers have no such method. *)
Fixpoint str_includes (s key : string) : bool :=
  startsWith s key ||
  match s with
  | EmptyString => false
  | String _ s' => str_includes s' key
  end.

Definition is_string (key : string) (v : value) : bool :=
  match v with
  | VStr s => String.eqb s key
  | _ => false
  end.

Definition includes (receiver : value) (key : string) : res bool :=
  match receiver with
  | VArr l => Ok (existsb (is_string key) l)
  | VStr s => Ok (str_includes s key)
  | VNull | VUndef => Throw (TypeError "Cannot read properties of null")
  | _ => Throw (TypeError "archiveResult.includes is not a function")
  end.

(** [Array.prototype.push]. *)
Definition push (receiver : value) (key : string) : res value :=
  match receiver with
  | VArr l => Ok (VArr (l ++ [VStr key])%list)
  | VNull | VUndef => Throw (TypeError "Cannot read properties of null")
  | _ => Throw (TypeError "archiveResult.push is not a function")
  end.

Definition getArchiveKey (prefix : option string) (name : string) : string :=
  render prefix +:+ "-" +:+ name.

(** Reference notion: the ledger [l] after the insertion of [key]. *)
Definition inserted (l : list value) (key : string) : list value :=
  if existsb (is_string key) l then l else (l ++ [VStr key])%list.

Section Ledger.

(** The serialisation format and the path resolution are built-ins:
    [JSON.parse] ([None] for a [SyntaxError]), [JSON.stringify(_, null, 4)]
    and [path.resolve(process.cwd(), _)].  The disk holds the regular
    files by path; [dirExists path] tells whether the directory that is to
    hold the file at [path] exists.  No function of the program removes a
    directory, and the ones modelled create none. *)
Context {content : Type}.
Variable JSON_parse : content -> option value.
Variable JSON_stringify : value -> content.
Variable path_resolve_cwd : string -> string.
Variable dirExists : string -> bool.

Abbreviation disk := (gmap string content).

(** [fs.existsSync(path)] on a path of a regular file. *)
Definition existsSync (fs : disk) (path : string) : bool :=
  match fs !! path with Some _ => true | None => false end.

(** [fs.writeFileSync(path, data)]: replaces the content of an existing
    file, creates the file in an existing directory, and throws the
    error [ENOENT] of the platform when the directory is missing.  Access
    rights and the space left on the device are outside the model. *)
Definition writeFileSync (fs : disk) (path : string) (data : content)
  : res disk :=
  if existsSync fs path || dirExists path then Ok (<[path := data]> fs)
  else Throw (SystemError ("ENOENT: no such file or directory, open '" +:+
                           path +:+ "'")).

Definition getArchive (fs : disk) (archive : string) : res value :=
  let archivePath := path_resolve_cwd archive in
  match fs !! archivePath with
  | None => Ok (VArr [])
  | Some text =>
      match JSON_parse text with
      | Some v => Ok v
      | None => Throw (SyntaxError "Unexpected token in JSON")
      end
  end.

Definition writeToArchive (fs : disk) (key archive : string) : res disk :=
  let archivePath := path_resolve_cwd archive in
  archiveResult <- getArchive fs archive ;;
  present <- includes archiveResult key ;;
  archiveResult <-
    (if negb present then push archiveResult key else Ok archiveResult) ;;
  writeFileSync fs archivePath (JSON_stringify archiveResult).

Definition getIsInArchive (fs : disk) (key archive : string) : res bool :=
  archiveResult <- getArchive fs archive ;;
  includes archiveResult key.

End Ledger.

End Archive.

(** ** Calendar-day comparisons of [dayjs]

    [dayjs] works in the local time zone of the process.  The zone is
    taken at a fixed offset of [utcOffset] minutes east of UTC.  A [dayjs]
    object is its time value in milliseconds, [None] for an invalid date,
    on which every comparison is false. *)

Module Dayjs.

Definition msPerMinute : Z := 60000.
Definition msPerDay : Z := 86400000.

Section Zone.

Variable utcOffset : Z.

(** The number of the local calendar day that contains the instant [t]. *)
Definition localDay (t : Z) : Z := (t + utcOffset * msPerMinute) / msPerDay.

Definition startOfDay (t : Z) : Z :=
  localDay t * msPerDay - utcOffset * msPerMinute.

Definition endOfDay (t : Z) : Z := startOfDay t + msPerDay - 1.

(** [this.startOf("day") <= that && that <= this.endOf("day")] *)
Definition isSameDay (this that : option Z) : bool :=
  match this, that with
  | Some t, Some u => (startOfDay t <=? u) && (u <=? endOfDay t)
  | _, _ => false
  end.

(** [this.endOf("day") < that] *)
Definition isBeforeDay (this that : option Z) : bool :=
  match this, that with
  | Some t, Some u => endOfDay t <? u
  | _, _ => false
  end.

(** [that < this.startOf("day")] *)
Definition isAfterDay (this that : option Z) : bool :=
  match this, that with
  | Some t, Some u => u <? startOfDay t
  | _, _ => false
  end.

End Zone.

End Dayjs.

(** ** Entry selector: [getLoopControls], [getItemsToDownload] and the
    helpers they call *)

Module Selector.

Import Fields Archive Dayjs.

(** Feed items are objects shared between the feed and the selection and
    mutated in place, so they live in a store and are named by location. *)
Definition loc : Type := nat.

Record Enclosure : Type := { enc_url : option string; enc_type : option string }.
Record Image : Type := { image_url : option string; image_link : option string }.
Record Itunes : Type := { itunes_image : option string }.

(** One entry of [item._extra_downloads]. *)
Record ExtraDownload : Type :=
  { dl_url : string; dl_outputPath : string; dl_key : string }.

Record Item : Type :=
  { title : option string;
    pubDate : option string;
    link : option string;
    enclosure : option Enclosure;
    image : option Image;
    itunes : option Itunes;
    guid : option string;
    _originalIndex : option Z;
    _extra_downloads : option (list ExtraDownload) }.

Record Feed : Type :=
  { feed_title : option string;
    feed_link : option string;
    feed_items : option (list loc) }.

Abbreviation store := (gmap loc Item).

(** The argument object of [getItemsToDownload]. *)
Record Options : Type :=
  { archive : option string;
    archiveUrl : option string;
    basePath : option string;
    feed : Feed;
    limit : option Z;
    offset : Z;
    reverse : bool;
    before : option string;
    after : option string;
    episodeRegex : option string;
    episodeTemplate : option string;
    includeEpisodeImages : bool }.

Definition withReverse (o : Options) (r : bool) : Options :=
  {| archive := archive o; archiveUrl := archiveUrl o; basePath := basePath o;
     feed := feed o; limit := limit o; offset := offset o; reverse := r;
     before := before o; after := after o; episodeRegex := episodeRegex o;
     episodeTemplate := episodeTemplate o;
     includeEpisodeImages := includeEpisodeImages o |}.

Definition withLimit (o : Options) (n : option Z) : Options :=
  {| archive := archive o; archiveUrl := archiveUrl o; basePath := basePath o;
     feed := feed o; limit := n; offset := offset o; reverse := reverse o;
     before := before o; after := after o; episodeRegex := episodeRegex o;
     episodeTemplate := episodeTemplate o;
     includeEpisodeImages := includeEpisodeImages o |}.

Definition withEpisodeRegex (o : Options) (r : option string) : Options :=
  {| archive := archive o; archiveUrl := archiveUrl o; basePath := basePath o;
     feed := feed o; limit := limit o; offset := offset o; reverse := reverse o;
     before := before o; after := after o; episodeRegex := r;
     episodeTemplate := episodeTemplate o;
     includeEpisodeImages := includeEpisodeImages o |}.

Record LoopControls : Type :=
  { startIndex : Z; shouldGo : Z -> bool; next : Z -> Z }.

Definition getLoopControls (offset length : Z) (reverse : bool) : LoopControls :=
  if reverse then
    let startIndex := length - 1 - offset in
    let min := -1 in
    let shouldGo := fun i => min <? i in
    let decrement := fun i => i - 1 in
    {| startIndex := startIndex; shouldGo := shouldGo; next := decrement |}
  else
    let startIndex := 0 + offset in
    let max := length in
    let shouldGo := fun i => i <? max in
    let increment := fun i => i + 1 in
    {| startIndex := startIndex; shouldGo := shouldGo; next := increment |}.

(** [while (shouldGo(i)) { body; i = next(i); }], unrolled at most [fuel]
    times. *)
Fixpoint while {S : Type} (fuel : nat) (ctl : LoopControls)
  (body : Z -> S -> res S) (i : Z) (s : S) : res S :=
  if shouldGo ctl i then
    match fuel with
    | O => OutOfFuel
    | Datatypes.S fuel' =>
        s' <- body i s ;; while fuel' ctl body (next ctl i) s'
    end
  else Ok s.

(** The indices on which the loop runs its body, in the order of the
    visits: the loop is run with a body that only records its index. *)
Definition visited (fuel : nat) (ctl : LoopControls) : res (list Z) :=
  while fuel ctl (fun i seen => Ok (seen ++ [i])%list) (startIndex ctl) [].

(** [feed.items[i]] followed by a property read: an index outside the array
    yields [undefined], whose destructuring throws. *)
Definition item_at (its : list loc) (i : Z) : res loc :=
  if i <? 0 then Throw (TypeError "Cannot destructure property of undefined")
  else
    match its !! Z.to_nat i with
    | Some l => Ok l
    | None => Throw (TypeError "Cannot destructure property of undefined")
    end.

Definition deref (st : store) (l : loc) : res Item :=
  match st !! l with
  | Some it => Ok it
  | None => Throw (TypeError "Cannot destructure property of undefined")
  end.

(** [items.slice(0, limit)] *)
Definition slice0 {A : Type} (items : list A) (limit : Z) : list A :=
  if 0 <=? limit then firstn (Z.to_nat limit) items
  else firstn (Z.to_nat (Z.of_nat (length items) + limit)) items.

Definition AUDIO_TYPES_TO_EXTS : list (string * string) :=
  [ ("audio/mpeg", ".mp3");
    ("audio/mp3", ".mp3");
    ("audio/flac", ".flac");
    ("audio/ogg", ".ogg");
    ("audio/vorbis", ".ogg");
    ("audio/mp4", ".m4a");
    ("audio/wav", ".wav");
    ("audio/x-wav", ".wav");
    ("audio/aac", ".aac") ].

(** [[...new Set(values)]]: the values without repetition, first
    occurrences kept. *)
Fixpoint unique (seen l : list string) : list string :=
  match l with
  | [] => []
  | x :: l' =>
      if existsb (String.eqb x) seen then unique seen l'
      else x :: unique (x :: seen) l'
  end.

Definition VALID_AUDIO_EXTS : list string :=
  unique [] (map snd AUDIO_TYPES_TO_EXTS).

(** The names of the members that the table, as every object literal,
    inherits from [Object.prototype]: eleven functions and, under
    [__proto__], the prototype itself. *)
Definition OBJECT_PROTOTYPE_KEYS : list string :=
  [ "constructor"; "__defineGetter__"; "__defineSetter__"; "hasOwnProperty";
    "__lookupGetter__"; "__lookupSetter__"; "isPrototypeOf";
    "propertyIsEnumerable"; "toString"; "valueOf"; "__proto__";
    "toLocaleString" ].

(** The [ext] of an episode: a text, or what a look-up in the table finds
    under the name of an inherited member, which is an object and no
    text. *)
Inductive Ext : Type :=
| ExtText (text : string)
| ExtMember (name : string).

(** The truth value of an [ext]: every object is truthy. *)
Definition truthyExt (ext : option Ext) : bool :=
  match ext with
  | Some (ExtText text) => negb (String.eqb text "")
  | Some (ExtMember _) => true
  | None => false
  end.

(** [AUDIO_TYPES_TO_EXTS[type]]: the text of an own entry of the table,
    else the inherited member of that name, else [undefined]. *)
Definition audioExtOfType (type : option string) : option Ext :=
  match find (fun kv => String.eqb (fst kv) (render type))
          AUDIO_TYPES_TO_EXTS with
  | Some kv => Some (ExtText (snd kv))
  | None =>
      if existsb (String.eqb (render type)) OBJECT_PROTOTYPE_KEYS
      then Some (ExtMember (render type))
      else None
  end.

Definition getImageUrl (image : option Image) (itunes : option Itunes)
  : option string :=
  if truthy (image ≫= image_url) then image ≫= image_url
  else if truthy (image ≫= image_link) then image ≫= image_link
  else if truthy (itunes ≫= itunes_image) then itunes ≫= itunes_image
  else None.

Section Selection.

(** Built-ins of the platform: [JSON.parse], [path.resolve] (relative to
    the working directory, and with three segments), [path.extname], the
    [pathname] of [new URL(_)] ([None] when the constructor throws), the
    time value of [new Date(_)] ([None] for an invalid date), the offset of
    the local time zone, and [new RegExp(_)] with the [test] method of the
    expression it builds. *)
Context {content : Type}.
Variable JSON_parse : content -> option value.
Variable path_resolve_cwd : string -> string.
Variable path_resolve3 : string -> string -> string -> string.
Variable path_extname : string -> string.
Variable URL_pathname : string -> option string.
Variable Date_parse : string -> option Z.
Variable utcOffset : Z.
Variable RegExp_new : string -> res (string -> bool).

(** The file-name templates of [naming.js], which the selector treats as
    pure functions: [getArchiveFilename({pubDate, name, ext})] and
    [getFilename({item, feed, url, ext, template})]. *)
Variable getArchiveFilename :
  option string -> option string -> option Ext -> string.
Variable getFilename :
  Item -> Feed -> option string -> string -> option string -> string.

Abbreviation disk := (gmap string content).

(** [dayjs(new Date(s))] *)
Definition newDate (s : option string) : option Z := s ≫= Date_parse.

Definition getUrlExt (url : option string) : res string :=
  match URL_pathname (render url) with
  | None => Throw (TypeError "Invalid URL")
  | Some pathname =>
      if String.eqb pathname "" then Ok ""
      else
        let ext := path_extname pathname in
        Ok ext
  end.

Definition getIsAudioUrl (url : option string) : res bool :=
  ext <- getUrlExt url ;;
  if String.eqb ext "" then Ok false
  else Ok (existsb (String.eqb ext) VALID_AUDIO_EXTS).

(** Returns the pair [(url, ext)]; [(None, None)] is [{url: null, ext: null}]. *)
Definition getEpisodeAudioUrlAndExt (it : Item)
  : res (option string * option Ext) :=
  viaLink <- (if truthy (link it) then getIsAudioUrl (link it) else Ok false) ;;
  if viaLink then
    ext <- getUrlExt (link it) ;; Ok (link it, Some (ExtText ext))
  else
    viaUrl <- (match enclosure it with
               | Some e => getIsAudioUrl (enc_url e)
               | None => Ok false
               end) ;;
    if viaUrl then
      ext <- getUrlExt (enclosure it ≫= enc_url) ;;
      Ok (enclosure it ≫= enc_url, Some (ExtText ext))
    else
      match enclosure it with
      | Some e =>
          if truthy (enc_url e) && truthyExt (audioExtOfType (enc_type e))
          then Ok (enc_url e, audioExtOfType (enc_type e))
          else Ok (None, None)
      | None => Ok (None, None)
      end.

(** Lines 187-192: the title filter. *)
Definition regexStep (episodeRegex title : option string) (isValid : bool)
  : res bool :=
  if truthy episodeRegex then
    generatedEpisodeRegex <- RegExp_new (render episodeRegex) ;;
    if truthy title && negb (generatedEpisodeRegex (render title))
    then Ok false else Ok isValid
  else Ok isValid.

(** Lines 194-202: the [before] bound. *)
Definition beforeStep (before : option string) (pubDateDay : option Z)
  (isValid : bool) : bool :=
  if truthy before then
    let beforeDateDay := newDate before in
    if negb (isSameDay utcOffset pubDateDay beforeDateDay) &&
       negb (isBeforeDay utcOffset pubDateDay beforeDateDay)
    then false else isValid
  else isValid.

(** Lines 204-212: the [after] bound. *)
Definition afterStep (after : option string) (pubDateDay : option Z)
  (isValid : bool) : bool :=
  if truthy after then
    let afterDateDay := newDate after in
    if negb (isSameDay utcOffset pubDateDay afterDateDay) &&
       negb (isAfterDay utcOffset pubDateDay afterDateDay)
    then false else isValid
  else isValid.

(** Lines 225-227: the archive filter. *)
Definition archiveStep (savedArchive : value) (key : string) (isValid : bool)
  : res bool :=
  if negb (String.eqb key "") then
    found <- includes savedArchive key ;;
    if found then Ok false else Ok isValid
  else Ok isValid.

(** Lines 183-227: the verdict on one item, with the audio URL that the
    image file name needs afterwards. *)
Definition verdict (o : Options) (savedArchive : value) (it : Item)
  : res (bool * option string) :=
  let pubDateDay := newDate (pubDate it) in
  let isValid := true in
  isValid <- regexStep (episodeRegex o) (title it) isValid ;;
  let isValid := beforeStep (before o) pubDateDay isValid in
  let isValid := afterStep (after o) pubDateDay isValid in
  audio <- getEpisodeAudioUrlAndExt it ;;
  let '(episodeAudioUrl, audioFileExt) := audio in
  let key :=
    getArchiveKey (archiveUrl o)
      (getArchiveFilename (pubDate it) (title it) audioFileExt) in
  isValid <- archiveStep savedArchive key isValid ;;
  Ok (isValid, episodeAudioUrl).

Definition annotate (it : Item) (i : Z) (extra : list ExtraDownload) : Item :=
  {| title := title it; pubDate := pubDate it; link := link it;
     enclosure := enclosure it; image := image it; itunes := itunes it;
     guid := guid it;
     _originalIndex := Some i;
     _extra_downloads := Some extra |}.

(** Lines 234-267: the image descriptor pushed on [item._extra_downloads]. *)
Definition extraDownloads (o : Options) (item : Item)
  (episodeAudioUrl : option string) : res (list ExtraDownload) :=
  if includeEpisodeImages o then
    let episodeImageUrl := getImageUrl (image item) (itunes item) in
    if truthy episodeImageUrl then
      episodeImageFileExt <- getUrlExt episodeImageUrl ;;
      let episodeImageArchiveKey :=
        getArchiveKey (archiveUrl o)
          (getArchiveFilename (pubDate item) (title item)
             (Some (ExtText episodeImageFileExt))) in
      let episodeImageName :=
        getFilename item (feed o) episodeAudioUrl episodeImageFileExt
          (episodeTemplate o) in
      match basePath o, guid item with
      | Some base, Some g =>
          let outputImagePath := path_resolve3 base g episodeImageName in
          Ok [ {| dl_url := render episodeImageUrl;
                  dl_outputPath := outputImagePath;
                  dl_key := episodeImageArchiveKey |} ]
      | _, _ =>
          Throw (TypeError "The path argument must be of type string")
      end
    else Ok []
  else Ok [].

(** One turn of the [while] loop of [getItemsToDownload] at index [i]. *)
Definition loopBody (o : Options) (its : list loc) (savedArchive : value)
  (i : Z) (acc : list loc * store) : res (list loc * store) :=
  let '(items, st) := acc in
  l <- item_at its i ;;
  it <- deref st l ;;
  checked <- verdict o savedArchive it ;;
  let '(isValid, episodeAudioUrl) := checked in
  if isValid then
    let item := annotate it i [] in
    extra <- extraDownloads o item episodeAudioUrl ;;
    let item := annotate it i extra in
    Ok ((items ++ [l])%list, <[l := item]> st)
  else Ok (items, st).

Definition truthyLimit (limit : option Z) : bool :=
  match limit with
  | Some n => negb (n =? 0)
  | None => false
  end.

(** [feed.items], whose [length] is read first. *)
Definition feedItems (f : Feed) : res (list loc) :=
  match feed_items f with
  | Some its => Ok its
  | None => Throw (TypeError "Cannot read properties of undefined")
  end.

(** [archive ? getArchive(archive) : []] *)
Definition loadArchive (fs : disk) (archive : option string) : res value :=
  if truthy archive
  then getArchive JSON_parse path_resolve_cwd fs (render archive)
  else Ok (VArr []).

(** [limit ? items.slice(0, limit) : items] *)
Definition applyLimit (limit : option Z) (items : list loc) : list loc :=
  if truthyLimit limit then slice0 items (default 0 limit) else items.

Definition getItemsToDownload (fuel : nat) (fs : disk) (st : store)
  (o : Options) : res (list loc * store) :=
  its <- feedItems (feed o) ;;
  let ctl :=
    getLoopControls (offset o) (Z.of_nat (length its)) (reverse o) in
  let i := startIndex ctl in
  let items := [] in
  savedArchive <- loadArchive fs (archive o) ;;
  final <- while fuel ctl (loopBody o its savedArchive) i (items, st) ;;
  let '(items, st) := final in
  Ok (applyLimit (limit o) items, st).

(** *** Reference notions for the selection properties *)

(** The visiting order that the design document prescribes. *)
Definition directionIndices (offset : Z) (length : nat) (reverse : bool)
  : list Z :=
  if reverse then rev (seqZ 0 (Z.of_nat length - offset))
  else seqZ offset (Z.of_nat length - offset).

(** An item without the two annotations of the selection. *)
Definition erase (it : Item) : Item :=
  {| title := title it; pubDate := pubDate it; link := link it;
     enclosure := enclosure it; image := image it; itunes := itunes it;
     guid := guid it;
     _originalIndex := None;
     _extra_downloads := None |}.

(** The entry at location [l] passes all the inclusion predicates. *)
Definition passes (o : Options) (savedArchive : value) (st : store) (l : loc)
  : bool :=
  match st !! l with
  | Some it =>
      match verdict o savedArchive it with
      | Ok (isValid, _) => isValid
      | _ => false
      end
  | None => false
  end.

(** The entries at the given indices of [feed.items]. *)
Definition entriesAt (its : list loc) (indices : list Z) : list loc :=
  omap (fun i => if i <? 0 then None else its !! Z.to_nat i) indices.

(** The effect of the turn of the loop at index [i], computed on the store
    [st0] in which the selection started: the location of the entry and its
    annotated item when the entry passes, nothing when it does not. *)
Definition turn (o : Options) (its : list loc) (savedArchive : value)
  (st0 : store) (i : Z) : res (option (loc * Item)) :=
  l <- item_at its i ;;
  it <- deref st0 l ;;
  checked <- verdict o savedArchive it ;;
  let '(isValid, episodeAudioUrl) := checked in
  if isValid then
    extra <- extraDownloads o (annotate it i []) episodeAudioUrl ;;
    Ok (Some (l, annotate it i extra))
  else Ok None.

Definition commit (acc : list loc * store) (u : option (loc * Item))
  : list loc * store :=
  match u with
  | Some (l, item) => ((fst acc ++ [l])%list, <[l := item]> (snd acc))
  | None => acc
  end.

(** Two stores that differ in the annotations only. *)
Definition similar (st st0 : store) : Prop :=
  forall l, erase <$> st !! l = erase <$> st0 !! l.

(** The archive key of an entry, as the selection computes it. *)
Definition archiveKeyOf (o : Options) (it : Item) : res string :=
  audio <- getEpisodeAudioUrlAndExt it ;;
  Ok (getArchiveKey (archiveUrl o)
        (getArchiveFilename (pubDate it) (title it) (snd audio))).

Definition feedKeys (o : Options) (st : store) (its : list loc)
  : res (list string) :=
  mapM (fun l => it <- deref st l ;; archiveKeyOf o it) its.

End Selection.

End Selector.

(** ** The selection gate of the command-line entry point *)

Module Cli.

Import Fields Archive Selector.

(** What the modelled part of [main] hands over: the process has exited,
    or the download of the target items starts. *)
Inductive step : Type :=
| Exit (status : Z) (message : string)
| Download (targetItems : list loc) (st : store).

(** Modelled from the spec: [logErrorAndExit] of [logger.js] is not among
    the sources.  The design document says that a fatal error terminates
    the process with a non-zero status; the status is taken to be [1]. *)
Definition fatalStatus : Z := 1.
Definition logErrorAndExit (message : string) : step := Exit fatalStatus message.

Section Main.

Context {content : Type}.
Variable JSON_parse : content -> option value.
Variable path_resolve_cwd : string -> string.
Variable path_resolve3 : string -> string -> string -> string.
Variable path_extname : string -> string.
Variable URL_pathname : string -> option string.
Variable Date_parse : string -> option Z.
Variable utcOffset : Z.
Variable RegExp_new : string -> res (string -> bool).
Variable getArchiveFilename :
  option string -> option string -> option Ext -> string.
Variable getFilename :
  Item -> Feed -> option string -> string -> option string -> string.

(** Lines 296-322 of [main]: the two guards on the feed and the offset,
    the call of [getItemsToDownload] (outside any [try]), and the guard on
    an empty selection.  [o] holds the arguments of that call. *)
Definition main (fuel : nat) (fs : gmap string content) (st : store)
  (o : Options) : res step :=
  match feed_items (feed o) with
  | None | Some [] => Ok (logErrorAndExit "No episodes found to download")
  | Some ((_ :: _) as its) =>
      if Z.of_nat (length its) <=? offset o then
        Ok (logErrorAndExit "--offset too large. No episodes to download.")
      else
        selected <-
          getItemsToDownload JSON_parse path_resolve_cwd path_resolve3
            path_extname URL_pathname Date_parse utcOffset RegExp_new
            getArchiveFilename getFilename fuel fs st o ;;
        let '(targetItems, st') := selected in
        match targetItems with
        | [] =>
            Ok (logErrorAndExit
                  "No episodes found with provided criteria to download")
        | _ => Ok (Download targetItems st')
        end
  end.

End Main.

End Cli.

(** ** A concrete platform for the examples

    Small executable stand-ins for the built-ins and for [naming.js], on
    which the examples below run: a codec for ledgers of plain keys, URLs
    with an [http(s)] scheme, ISO 8601 dates in UTC, and search patterns
    without metacharacters. *)

Module Sample.

Import Fields Archive Selector.

(** The double quote. *)
Definition dquote : ascii := "034"%char.

Definition quote (v : value) : string :=
  match v with
  | VStr s => String dquote (s +:+ String dquote EmptyString)
  | _ => "null"
  end.

Fixpoint join (sep : string) (l : list string) : string :=
  match l with
  | [] => EmptyString
  | [x] => x
  | x :: l' => x +:+ sep +:+ join sep l'
  end.

Definition JSON_stringify (v : value) : string :=
  match v with
  | VArr l => "[" +:+ join "," (map quote l) +:+ "]"
  | _ => quote v
  end.

Inductive mode : Type := BeforeElem | InString (buf : string) | AfterElem.

Fixpoint parse_elems (s : string) (m : mode) (acc : list value)
  : option value :=
  match s with
  | EmptyString => None
  | String c r =>
      match m with
      | BeforeElem =>
          if Ascii.eqb c dquote then parse_elems r (InString "") acc else None
      | InString buf =>
          if Ascii.eqb c dquote
          then parse_elems r AfterElem (acc ++ [VStr buf])%list
          else if Ascii.eqb c "\" then None
          else parse_elems r (InString (buf +:+ String c EmptyString)) acc
      | AfterElem =>
          if Ascii.eqb c "," then parse_elems r BeforeElem acc
          else if Ascii.eqb c "]" then
            match r with EmptyString => Some (VArr acc) | _ => None end
          else None
      end
  end.

Definition JSON_parse (text : string) : option value :=
  match text with
  | "[]" => Some (VArr [])
  | String "[" r => parse_elems r BeforeElem []
  | _ => None
  end.

Definition path_resolve_cwd (p : string) : string := "/work/" +:+ p.

(** The part of a path before its last slash. *)
Fixpoint dirname (path : string) : string :=
  match path with
  | EmptyString => EmptyString
  | String c r =>
      if existsb (Ascii.eqb "/") (list_ascii_of_string r)
      then String c (dirname r)
      else EmptyString
  end.

(** The directories of the sample disk. *)
Definition dirExists (path : string) : bool :=
  existsb (String.eqb (dirname path)) ["/work"; "/work/show"].

Definition path_resolve3 (a b c : string) : string :=
  a +:+ "/" +:+ b +:+ "/" +:+ c.

Fixpoint from_slash (s : string) : string :=
  match s with
  | EmptyString => "/"
  | String c r => if Ascii.eqb c "/" then s else from_slash r
  end.

Fixpoint until_query (s : string) : string :=
  match s with
  | EmptyString => EmptyString
  | String c r =>
      if Ascii.eqb c "?" || Ascii.eqb c "#" then EmptyString
      else String c (until_query r)
  end.

Definition URL_pathname (url : string) : option string :=
  match strip_prefix "https://" url with
  | Some r => Some (until_query (from_slash r))
  | None =>
      match strip_prefix "http://" url with
      | Some r => Some (until_query (from_slash r))
      | None => None
      end
  end.

Fixpoint extname_from (s ext : string) : string :=
  match s with
  | EmptyString => ext
  | String c r =>
      if Ascii.eqb c "/" then extname_from r EmptyString
      else if Ascii.eqb c "." then extname_from r s
      else extname_from r ext
  end.

Definition path_extname (p : string) : string := extname_from p EmptyString.

Definition digit (c : ascii) : option Z :=
  let n := Z.of_nat (nat_of_ascii c) - 48 in
  if (0 <=? n) && (n <=? 9) then Some n else None.

(** Reads exactly [n] decimal digits. *)
Fixpoint digits (n : nat) (s : string) (acc : Z) : option (Z * string) :=
  match n with
  | O => Some (acc, s)
  | Datatypes.S n' =>
      match s with
      | EmptyString => None
      | String c r => d ← digit c; digits n' r (10 * acc + d)
      end
  end.

Definition expect (c : ascii) (s : string) : option string :=
  match s with
  | String d r => if Ascii.eqb c d then Some r else None
  | EmptyString => None
  end.

(** Days between 1970-01-01 and the given day of the Gregorian calendar. *)
Definition daysFromCivil (y m d : Z) : Z :=
  let y' := if m <=? 2 then y - 1 else y in
  let era := y' / 400 in
  let yoe := y' - era * 400 in
  let mp := (m + 9) mod 12 in
  let doy := (153 * mp + 2) / 5 + d - 1 in
  let doe := yoe * 365 + yoe / 4 - yoe / 100 + doy in
  era * 146097 + doe - 719468.

(** [YYYY-MM-DD] and [YYYY-MM-DDTHH:MM:SSZ], both read as UTC. *)
Definition Date_parse (s : string) : option Z :=
  '(y, s) ← digits 4 s 0;
  s ← expect "-" s;
  '(m, s) ← digits 2 s 0;
  s ← expect "-" s;
  '(d, s) ← digits 2 s 0;
  let day := daysFromCivil y m d * Dayjs.msPerDay in
  match s with
  | EmptyString => Some day
  | _ =>
      s ← expect "T" s;
      '(hh, s) ← digits 2 s 0;
      s ← expect ":" s;
      '(mm, s) ← digits 2 s 0;
      s ← expect ":" s;
      '(ss, s) ← digits 2 s 0;
      match s with
      | "Z" => Some (day + hh * 3600000 + mm * 60000 + ss * 1000)
      | _ => None
      end
  end.

(** A pattern without metacharacters matches the strings that contain it. *)
Definition RegExp_new (source : string) : res (string -> bool) :=
  Ok (fun s => str_includes s source).

(** The text that a template literal makes of an [ext]. *)
Definition renderExt (ext : option Ext) : string :=
  match ext with
  | Some (ExtText text) => text
  | Some (ExtMember "__proto__") => "[object Object]"
  | Some (ExtMember name) => "function " +:+ name +:+ "() { [native code] }"
  | None => render None
  end.

Definition getArchiveFilename (pubDate name : option string)
  (ext : option Ext) : string :=
  render pubDate +:+ "-" +:+ render name +:+ renderExt ext.

Definition getFilename (item : Item) (f : Feed) (url : option string)
  (ext : string) (template : option string) : string :=
  render (pubDate item) +:+ "-" +:+ render (title item) +:+ ext.

(** An episode with an audio link. *)
Definition episode (name date : string) : Item :=
  {| title := Some ("Episode " +:+ name);
     pubDate := Some date;
     link := Some ("https://cdn.example.org/audio/" +:+ name +:+ ".mp3");
     enclosure := None; image := None; itunes := None;
     guid := Some ("guid-" +:+ name);
     _originalIndex := None; _extra_downloads := None |}.

(** A store with ten episodes at the locations 0 to 9, newest first. *)
Definition tenEpisodes : gmap loc Item :=
  list_to_map
    [ (0%nat, episode "ten" "2020-01-10T23:00:00Z");
      (1%nat, episode "nine" "2020-01-09T08:00:00Z");
      (2%nat, episode "eight" "2020-01-08T08:00:00Z");
      (3%nat, episode "seven" "2020-01-07T08:00:00Z");
      (4%nat, episode "six" "2020-01-06T08:00:00Z");
      (5%nat, episode "five" "2020-01-05T08:00:00Z");
      (6%nat, episode "four" "2020-01-04T08:00:00Z");
      (7%nat, episode "three" "2020-01-03T08:00:00Z");
      (8%nat, episode "two" "2020-01-02T08:00:00Z");
      (9%nat, episode "one" "2020-01-01T08:00:00Z") ].

Definition tenItems : list loc :=
  [0; 1; 2; 3; 4; 5; 6; 7; 8; 9]%nat.

(** An entry without a title. *)
Definition untitled : Item :=
  {| title := None;
     pubDate := Some "2020-01-05T08:00:00Z";
     link := Some "https://cdn.example.org/audio/untitled.mp3";
     enclosure := None; image := None; itunes := None;
     guid := Some "guid-untitled";
     _originalIndex := None; _extra_downloads := None |}.

(** An episode without link whose enclosure, a stream without file
    extension, declares the type [toString]. *)
Definition streamed : Item :=
  {| title := Some "Episode streamed";
     pubDate := Some "2020-01-11T08:00:00Z";
     link := None;
     enclosure := Some {| enc_url := Some "https://cdn.example.org/stream";
                          enc_type := Some "toString" |};
     image := None; itunes := None;
     guid := Some "guid-streamed";
     _originalIndex := None; _extra_downloads := None |}.

(** An episode whose image has an empty [url] and a [link], and whose
    [itunes] entry has an image as well. *)
Definition illustrated : Item :=
  {| title := Some "Episode illustrated";
     pubDate := Some "2020-01-12T08:00:00Z";
     link := Some "https://cdn.example.org/audio/illustrated.mp3";
     enclosure := None;
     image := Some {| image_url := Some "";
                      image_link :=
                        Some "https://cdn.example.org/art/cover.png" |};
     itunes := Some {| itunes_image :=
                         Some "https://cdn.example.org/art/itunes.jpg" |};
     guid := Some "guid-illustrated";
     _originalIndex := None; _extra_downloads := None |}.

(** A store with that episode alone. *)
Definition oneIllustrated : gmap loc Item := {[ 0%nat := illustrated ]}.

Definition feedOf (its : list loc) : Feed :=
  {| feed_title := Some "A podcast";
     feed_link := Some "https://example.org/";
     feed_items := Some its |}.

(** Selection criteria without any filter. *)
Definition plain (f : Feed) (offset : Z) (reverse : bool) : Options :=
  {| archive := None; archiveUrl := Some "example.org/feed.xml";
     basePath := Some "/work/out"; feed := f; limit := None;
     offset := offset; reverse := reverse; before := None; after := None;
     episodeRegex := None; episodeTemplate := None;
     includeEpisodeImages := false |}.

Definition withImages (o : Options) : Options :=
  {| archive := archive o; archiveUrl := archiveUrl o; basePath := basePath o;
     feed := feed o; limit := limit o; offset := offset o; reverse := reverse o;
     before := before o; after := after o; episodeRegex := episodeRegex o;
     episodeTemplate := episodeTemplate o;
     includeEpisodeImages := true |}.

Definition withBefore (o : Options) (b : option string) : Options :=
  {| archive := archive o; archiveUrl := archiveUrl o; basePath := basePath o;
     feed := feed o; limit := limit o; offset := offset o; reverse := reverse o;
     before := b; after := after o; episodeRegex := episodeRegex o;
     episodeTemplate := episodeTemplate o;
     includeEpisodeImages := includeEpisodeImages o |}.

Definition withArchive (o : Options) (a : option string) : Options :=
  {| archive := a; archiveUrl := archiveUrl o; basePath := basePath o;
     feed := feed o; limit := limit o; offset := offset o; reverse := reverse o;
     before := before o; after := after o; episodeRegex := episodeRegex o;
     episodeTemplate := episodeTemplate o;
     includeEpisodeImages := includeEpisodeImages o |}.

(** The selection and the gate on the concrete platform, in the time zone
    at [utcOffset] minutes east of UTC. *)
Definition select (utcOffset : Z) :=
  getItemsToDownload JSON_parse path_resolve_cwd path_resolve3 path_extname
    URL_pathname Date_parse utcOffset RegExp_new getArchiveFilename
    getFilename.

Definition run (utcOffset : Z) :=
  Cli.main JSON_parse path_resolve_cwd path_resolve3 path_extname
    URL_pathname Date_parse utcOffset RegExp_new getArchiveFilename
    getFilename.

End Sample.

(** ** Reference notions for further properties of the projector *)

Module FieldsRef.

Import Regex Fields.

(** The strings of a list are pairwise different. *)
Fixpoint distinct (l : list string) : bool :=
  match l with
  | [] => true
  | x :: l' => negb (existsb (String.eqb x) l') && distinct l'
  end.

(** A well-formed value: in every object, at any depth, the keys are
    pairwise different. *)
Fixpoint wf (v : value) : bool :=
  match v with
  | VArr items => forallb wf items
  | VObj entries =>
      distinct (map fst entries) && forallb (fun kv => wf (snd kv)) entries
  | _ => true
  end.

Definition wfObject (o : object) : bool := wf (VObj o).

(** A key that the pattern [.+] accepts as a whole: not empty and without
    line terminator. *)
Definition lineFree (key : string) : bool :=
  forallb (fun c => negb (is_line_terminator c)) (list_ascii_of_string key).

Definition plainKey (key : string) : bool :=
  negb (String.eqb key "") && lineFree key.

(** A value that a rule accepting every key path copies as it is: no
    [undefined], no empty array, no empty object, and outside the reserved
    keys only plain keys other than [__proto__] over such values. *)
Fixpoint solid (v : value) : bool :=
  match v with
  | VUndef => false
  | VArr items =>
      match items with [] => false | _ => forallb solid items end
  | VObj entries =>
      match entries with
      | [] => false
      | _ =>
          distinct (map fst entries) &&
          forallb (fun kv => is_reserved (fst kv) ||
                             (plainKey (fst kv) && ownKey (fst kv) &&
                              solid (snd kv))) entries
      end
  | _ => true
  end.

Definition solidObject (o : object) : bool :=
  distinct (map fst o) &&
  forallb (fun kv => is_reserved (fst kv) ||
                     (plainKey (fst kv) && ownKey (fst kv) &&
                      solid (snd kv))) o.

(** The pattern that the glob [**] compiles to. *)
Definition anyRe : RegExp := {| pieces := [(AAny, QPlus)] |}.

(** What the traversal of an object with pairwise different keys does
    with one entry: the entry of the result, if any.  The assignment under
    the key [__proto__] leaves no entry. *)
Definition projectEntry (toInclude : value -> string -> value)
  (prefix : string) (kv : string * value) : option (string * value) :=
  if is_reserved (fst kv) then Some kv
  else
    let inc := toInclude (snd kv) (prefix +:+ fst kv) in
    if is_undefined inc || negb (ownKey (fst kv)) then None
    else Some (fst kv, inc).

(** A glob without the character [*]. *)
Definition starFree (glob : string) : bool :=
  forallb (fun c => negb (Ascii.eqb c "*")) (list_ascii_of_string glob).

(** The pieces of a pattern that matches one text literally. *)
Definition literal (text : string) : list piece :=
  map (fun c => (ALit c, QOne)) (list_ascii_of_string text).

(** The rule that the pattern [**] compiles to. *)
Definition anyRule : rule := {| include := true; pattern := anyRe |}.

(** The first rule of the list that matches the key path is an inclusion. *)
Definition included (rules : list rule) (fullKey : string) : bool :=
  match matchingRule rules fullKey with
  | Some r => include r
  | None => false
  end.

(** The scalars of a value with their key paths, in the order of the
    traversal; what lies under a reserved key or under the key
    [__proto__] is left out. *)
Fixpoint leaves (fullKey : string) (v : value) : list (string * value) :=
  match v with
  | VUndef => []
  | VArr items => flat_map (leaves fullKey) items
  | VObj entries =>
      flat_map (fun kv =>
                  if is_reserved (fst kv) || negb (ownKey (fst kv)) then []
                  else leaves ((fullKey +:+ ".") +:+ fst kv) (snd kv))
        entries
  | _ => [(fullKey, v)]
  end.

Definition objectLeaves (prefix : string) (o : object)
  : list (string * value) :=
  flat_map (fun kv =>
              if is_reserved (fst kv) || negb (ownKey (fst kv)) then []
              else leaves (prefix +:+ fst kv) (snd kv)) o.

(** A value that the traversal copies as it is at the key path [fullKey],
    when [m] tells the key paths at which a scalar is included: a scalar
    other than [undefined] at an included key path, a non-empty array of
    such values, or a non-empty object whose entries outside the reserved
    keys have a key other than [__proto__] and, at the key path extended
    by that key, such a value. *)
Fixpoint copied (m : string -> bool) (fullKey : string) (v : value) : bool :=
  match v with
  | VUndef => false
  | VArr items =>
      match items with [] => false | _ => forallb (copied m fullKey) items end
  | VObj entries =>
      match entries with
      | [] => false
      | _ =>
          forallb (fun kv => is_reserved (fst kv) ||
                             (ownKey (fst kv) &&
                              copied m ((fullKey +:+ ".") +:+ fst kv)
                                (snd kv))) entries
      end
  | _ => m fullKey
  end.

(** Follows the words of the specification: of the rules, in the order of
    their declaration, that match the key path, the one declared last. *)
Fixpoint lastDeclared (rules : list rule) (fullKey : string) : option rule :=
  match rules with
  | [] => None
  | r :: later =>
      match lastDeclared later fullKey with
      | Some r' => Some r'
      | None => if test (pattern r) fullKey then Some r else None
      end
  end.

(** The last declared rule that matches the key path is an inclusion. *)
Definition decides (rules : list rule) (fullKey : string) : bool :=
  match lastDeclared rules fullKey with
  | Some r => include r
  | None => false
  end.

End FieldsRef.

(** ** Metadata files: [writeMeta], [writeFeedMeta], [writeItemMeta] *)

Module Meta.

Import Fields Archive.

(** What these functions throw: an exception of a built-in, of the ledger
    or of the projector, or an [Error] made by the code itself. *)
Inductive exn : Type :=
| Native (e : Js.error)
| Error (message : string).

(** [error.toString()] *)
Definition toString (e : exn) : string :=
  match e with
  | Native (TypeError message) => "TypeError: " +:+ message
  | Native (SyntaxError message) => "SyntaxError: " +:+ message
  | Native (SystemError message) => "Error: " +:+ message
  | Error message => "Error: " +:+ message
  end.

(** The completion of a call: a value, an exception, or the exhausted
    budget of [Js.res], which the ledger and the projector never give. *)
Inductive result (A : Type) : Type :=
| Val (a : A)
| Exc (e : exn)
| Stalled.

Arguments Val {A} a.
Arguments Exc {A} e.
Arguments Stalled {A}.

(** [String.prototype.split] on a one-character separator. *)
Fixpoint split (sep : ascii) (s : string) : list string :=
  match s with
  | EmptyString => [EmptyString]
  | String c r =>
      if Ascii.eqb c sep then EmptyString :: split sep r
      else
        match split sep r with
        | head :: tail => String c head :: tail
        | [] => [String c EmptyString]
        end
  end.

(** [Array.prototype.pop] on the pieces of a split, which are never
    missing. *)
Definition pop (pieces : list string) : string := List.last pieces EmptyString.

(** [delete object[key]] *)
Definition obj_delete (o : object) (key : string) : object :=
  List.filter (fun kv => negb (String.eqb (fst kv) key)) o.

Section Files.

(** The built-ins: [JSON.parse], [JSON.stringify(_, null, 4)],
    [builder.buildObject] of [xml2js], which may throw,
    [path.resolve(process.cwd(), _)], and the directories of the disk as
    in the ledger: a write into a missing directory throws. *)
Context {content : Type}.
Variable JSON_parse : content -> option value.
Variable JSON_stringify : value -> content.
Variable buildObject : value -> exn + content.
Variable path_resolve_cwd : string -> string.
Variable dirExists : string -> bool.

(** The disk, indexed by the paths handed to [fs], and the messages given
    to [logMessage], in the order of the calls. *)
Record world : Type := { files : gmap string content; logged : list string }.

(** Computations on the world that may throw: what was written before an
    exception stays written. *)
Definition M (A : Type) : Type := world -> result A * world.

Definition ret {A : Type} (a : A) : M A := fun w => (Val a, w).

Definition throw {A : Type} (e : exn) : M A := fun w => (Exc e, w).

Definition bindM {A B : Type} (m : M A) (k : A -> M B) : M B :=
  fun w =>
    match m w with
    | (Val a, w') => k a w'
    | (Exc e, w') => (Exc e, w')
    | (Stalled, w') => (Stalled, w')
    end.

(** [try { m } catch (error) { handler }] *)
Definition tryCatch {A : Type} (m : M A) (handler : exn -> M A) : M A :=
  fun w =>
    match m w with
    | (Exc e, w') => handler e w'
    | completion => completion
    end.

(** A call that reads the world and changes nothing. *)
Definition lift {A : Type} (m : res A) : M A :=
  fun w =>
    (match m with
     | Ok a => Val a
     | Throw e => Exc (Native e)
     | OutOfFuel => Stalled
     end, w).

Definition logMessage (message : string) : M unit :=
  fun w =>
    (Val tt, {| files := files w; logged := logged w ++ [message] |}).

Definition existsSync (path : string) : M bool :=
  fun w =>
    (Val (match files w !! path with Some _ => true | None => false end), w).

(** [fs.writeFileSync(path, data)] on the world: what it throws leaves
    the world as it was. *)
Definition writeFileSync (path : string) (data : content) : M unit :=
  fun w =>
    match Archive.writeFileSync dirExists (files w) path data with
    | Ok fs => (Val tt, {| files := fs; logged := logged w |})
    | Throw e => (Exc (Native e), w)
    | OutOfFuel => (Stalled, w)
    end.

Definition getIsInArchive (key archive : string) : M bool :=
  fun w =>
    lift (Archive.getIsInArchive JSON_parse path_resolve_cwd (files w)
            key archive) w.

Definition writeToArchive (key archive : string) : M unit :=
  fun w =>
    match Archive.writeToArchive JSON_parse JSON_stringify path_resolve_cwd
            dirExists (files w) key archive with
    | Ok fs => (Val tt, {| files := fs; logged := logged w |})
    | Throw e => (Exc (Native e), w)
    | OutOfFuel => (Stalled, w)
    end.

(** [key && archive && getIsInArchive({ key, archive })] *)
Definition inArchive (key archive : option string) : M bool :=
  match key, archive with
  | Some k, Some a =>
      if truthy key && truthy archive then getIsInArchive k a else ret false
  | _, _ => ret false
  end.

(** [key && archive && !getIsInArchive({ key, archive })] *)
Definition notInArchive (key archive : option string) : M bool :=
  match key, archive with
  | Some k, Some a =>
      if truthy key && truthy archive then
        bindM (getIsInArchive k a) (fun present => ret (negb present))
      else ret false
  | _, _ => ret false
  end.

(** The call of [writeToArchive] that follows that test. *)
Definition archiveKey (key archive : option string) : M unit :=
  match key, archive with
  | Some k, Some a => writeToArchive k a
  | _, _ => ret tt
  end.

Definition writeMeta (path : string) (data : value) : M unit :=
  let format := pop (split "." path) in
  if String.eqb format "json" then writeFileSync path (JSON_stringify data)
  else if String.eqb format "xml" then
    match buildObject data with
    | inr text => writeFileSync path text
    | inl e => throw e
    end
  else throw (Error ("Invalid metadata path " +:+ path)).

Definition writeFeedMeta (outputPath : string) (feed : object)
  (key archive : option string) (override : bool) (fields : list string)
  : M unit :=
  bindM (inArchive key archive) (fun archived =>
  if archived then logMessage "Feed metadata exists in archive. Skipping..."
  else
    bindM (lift (getFields feed fields)) (fun metadata =>
    let metadata := obj_delete metadata "items" in
    tryCatch
      (bindM (existsSync outputPath) (fun present =>
       bindM (if override || negb present
              then writeMeta outputPath (VObj metadata)
              else logMessage "Feed metadata exists locally. Skipping...")
         (fun _ =>
       bindM (notInArchive key archive) (fun missing =>
       if missing then
         tryCatch (archiveKey key archive)
           (fun error =>
              throw (Error ("Error writing to archive: " +:+ toString error)))
       else ret tt))))
      (fun error =>
         throw (Error ("Unable to save metadata file for feed: "
                       +:+ toString error))))).

Definition writeItemMeta (marker outputPath : string) (item : object)
  (key archive : option string) (override : bool) (fields : list string)
  : M unit :=
  bindM (inArchive key archive) (fun archived =>
  if archived then
    logMessage (marker +:+ " | Episode metadata exists in archive. Skipping...")
  else
    bindM (lift (getFields item fields)) (fun metadata =>
    tryCatch
      (bindM (existsSync outputPath) (fun present =>
       bindM (if override || negb present
              then writeMeta outputPath (VObj metadata)
              else logMessage
                     (marker
                      +:+ " | Episode metadata exists locally. Skipping..."))
         (fun _ =>
       bindM (notInArchive key archive) (fun missing =>
       if missing then
         tryCatch (archiveKey key archive)
           (fun error => throw (Error "Error writing to archive"))
       else ret tt))))
      (fun error => throw (Error "Unable to save meta file for episode")))).

(** *** Reference notions for the properties of the writers *)

(** The end of both writers: the key is recorded in the ledger unless it
    is there. *)
Definition recordKey (inner : exn -> exn) (key archive : option string)
  : M unit :=
  bindM (notInArchive key archive) (fun missing =>
  if missing then
    tryCatch (archiveKey key archive) (fun error => throw (inner error))
  else ret tt).

(** The common shape of the two writers. *)
Definition saveMeta (archivedMessage localMessage : string)
  (strip : object -> object) (inner outer : exn -> exn)
  (outputPath : string) (source : object) (key archive : option string)
  (override : bool) (fields : list string) : M unit :=
  bindM (inArchive key archive) (fun archived =>
  if archived then logMessage archivedMessage
  else
    bindM (lift (getFields source fields)) (fun metadata =>
    tryCatch
      (bindM (existsSync outputPath) (fun present =>
       bindM (if override || negb present
              then writeMeta outputPath (VObj (strip metadata))
              else logMessage localMessage)
         (fun _ => recordKey inner key archive)))
      (fun error => throw (outer error)))).

(** What a writer may change between two worlds: no file other than the
    output file and the ledger, not the output file when it exists and
    [override] is unset, and no message that was logged. *)
Definition confinedTo (outputPath : string) (archive : option string)
  (override : bool) (w w' : world) : Prop :=
  (forall p, p <> outputPath ->
     (forall a, archive = Some a -> p <> path_resolve_cwd a) ->
     files w' !! p = files w !! p) /\
  (override = false -> is_Some (files w !! outputPath) ->
   (forall a, archive = Some a -> outputPath <> path_resolve_cwd a) ->
   files w' !! outputPath = files w !! outputPath) /\
  logged w `prefix_of` logged w'.

(** The computation keeps the invariant [I] of the world, also when it
    throws, and a value that it returns satisfies [Q]. *)
Definition keeps {A : Type} (I : world -> Prop) (m : M A) (Q : A -> Prop)
  : Prop :=
  forall w, I w ->
    I (snd (m w)) /\ (forall a, fst (m w) = Val a -> Q a).

(** The computation completes: it returns or throws. *)
Definition completes {A : Type} (m : M A) : Prop :=
  forall w, fst (m w) <> Stalled.

End Files.

(** The errors that the two writers make of what they catch. *)
Definition feedInner (error : exn) : exn :=
  Error ("Error writing to archive: " +:+ toString error).
Definition feedOuter (error : exn) : exn :=
  Error ("Unable to save metadata file for feed: " +:+ toString error).
Definition itemInner (error : exn) : exn := Error "Error writing to archive".
Definition itemOuter (error : exn) : exn :=
  Error "Unable to save meta file for episode".

(** A text without full stop. *)
Definition dotless (s : string) : bool :=
  forallb (fun c => negb (Ascii.eqb c ".")) (list_ascii_of_string s).

End Meta.

(** ** URLs embedded in a path: [getPossibleUrlEmbeds], [getUrlEmbed] *)

Module Embeds.

(** What the two functions throw: the [TypeError] of [new URL] and the
    [URIError] of [decodeURIComponent]. *)
Inductive thrown : Type :=
| InvalidURL (input : string)
| URIMalformed.

Inductive outcome (A : Type) : Type :=
| Returned (a : A)
| Threw (e : thrown).

Arguments Returned {A} a.
Arguments Threw {A} e.

(** The loop that collects the indices [i] with [pathname[i] === "/"];
    [i] is the index of the first character of [s]. *)
Fixpoint possibleStartIndexes (s : string) (i : nat) : list nat :=
  match s with
  | EmptyString => []
  | String c r =>
      if Ascii.eqb c "/" then i :: possibleStartIndexes r (S i)
      else possibleStartIndexes r (S i)
  end.

(** [String.prototype.slice(start)] for a start that is not negative. *)
Fixpoint slice (start : nat) (s : string) : string :=
  match start, s with
  | O, _ => s
  | S start', String _ r => slice start' r
  | S _, EmptyString => EmptyString
  end.

(** [Array.prototype.map] with a callback that may throw. *)
Fixpoint mapThrowing {A B : Type} (f : A -> option B) (l : list A)
  : option (list B) :=
  match l with
  | [] => Some []
  | x :: l' =>
      match f x with
      | Some y =>
          match mapThrowing f l' with
          | Some ys => Some (y :: ys)
          | None => None
          end
      | None => None
      end
  end.

(** The text that is decoded for the part of the path after a slash. *)
Definition withScheme (possibleEmbed : string) : string :=
  if startsWith possibleEmbed "http" then possibleEmbed
  else "https://" +:+ possibleEmbed.

Section Platform.

(** The built-ins: the [pathname] of [new URL(_)] ([None] when the
    constructor throws), [decodeURIComponent] ([None] when it throws), the
    [href] of [new URL(_)], and the [HEAD] request of [got], whose answer
    may depend on the requests made before. *)
Variable URL_pathname : string -> option string.
Variable decodeURIComponent : string -> option string.
Variable URL_href : string -> option string.
Variable got : list string -> string -> bool.

Definition getPossibleUrlEmbeds (url : string) (maxAmount : Z)
  : outcome (list string) :=
  match URL_pathname url with
  | None => Threw (InvalidURL url)
  | Some pathname =>
      let indexes := possibleStartIndexes pathname 0 in
      let choices :=
        mapThrowing
          (fun startIndex =>
             decodeURIComponent (withScheme (slice (startIndex + 1) pathname)))
          indexes in
      match choices with
      | None => Threw URIMalformed
      | Some possibleEmbedChoices =>
          let start :=
            Z.max (Z.of_nat (length possibleEmbedChoices) - maxAmount) 0 in
          Returned (rev (drop (Z.to_nat start) possibleEmbedChoices))
      end
  end.

(** The loop of [getUrlEmbed] over the candidates; [requests] are the
    addresses requested so far.  A candidate that is not a URL and a
    request that fails are both skipped by the empty [catch]. *)
Fixpoint probe (requests : list string) (possibleUrlEmbeds : list string)
  : option string * list string :=
  match possibleUrlEmbeds with
  | [] => (None, requests)
  | possibleUrl :: rest =>
      match URL_href possibleUrl with
      | None => probe requests rest
      | Some href =>
          if got requests href then (Some href, requests ++ [href])
          else probe (requests ++ [href]) rest
      end
  end.

(** The embedded URL, given by its [href], or [null]; and the requests
    that were made. *)
Definition getUrlEmbed (url : string)
  : outcome (option string * list string) :=
  match getPossibleUrlEmbeds url 5 with
  | Threw e => Threw e
  | Returned possibleUrlEmbeds => Returned (probe [] possibleUrlEmbeds)
  end.

End Platform.

(** *** Reference notions *)

(** The parts of a path that follow each of its slashes, from the
    longest. *)
Fixpoint afterSlashes (s : string) : list string :=
  match s with
  | EmptyString => []
  | String c r =>
      if Ascii.eqb c "/" then r :: afterSlashes r else afterSlashes r
  end.

(** *** A concrete platform for the examples *)

(** A decoder for texts without escapes: any [%] is taken to start a
    malformed escape. *)
Definition sampleDecode (s : string) : option string :=
  if existsb (Ascii.eqb "%") (list_ascii_of_string s) then None else Some s.

(** The [href] of a URL with scheme, without normalisation. *)
Definition sampleHref (url : string) : option string :=
  if startsWith url "https://" || startsWith url "http://" then Some url
  else None.

(** A network on which one host answers. *)
Definition sampleGot (requests : list string) (href : string) : bool :=
  startsWith href "https://cdn.example.org/".

End Embeds.

(** ** The listing of the episodes: the rows of [logItemsList] *)

Module Listing.

Import Fields Archive Selector.

(** One element of [tableData]; [episodeNum] is [None] for [NaN]. *)
Record Row : Type :=
  { episodeNum : option Z;
    row_title : option string;
    row_pubDate : option string }.

Section Rows.

Context {content : Type}.
Variable JSON_parse : content -> option value.
Variable path_resolve_cwd : string -> string.
Variable path_resolve3 : string -> string -> string -> string.
Variable path_extname : string -> string.
Variable URL_pathname : string -> option string.
Variable Date_parse : string -> option Z.
Variable utcOffset : Z.
Variable RegExp_new : string -> res (string -> bool).
Variable getArchiveFilename :
  option string -> option string -> option Ext -> string.
Variable getFilename :
  Item -> Feed -> option string -> string -> option string -> string.

(** The object that [logItemsList] hands to [getItemsToDownload]: seven of
    its own parameters; the other properties are [undefined]. *)
Definition listArguments (o : Options) : Options :=
  {| archive := None; archiveUrl := None; basePath := None;
     feed := feed o; limit := limit o; offset := offset o;
     reverse := reverse o; before := before o; after := after o;
     episodeRegex := episodeRegex o;
     episodeTemplate := None; includeEpisodeImages := false |}.

(** The callback of [items.map]. *)
Definition row (o : Options) (st : store) (l : loc) : res Row :=
  item <- deref st l ;;
  its <- feedItems (feed o) ;;
  Ok {| episodeNum :=
          (fun originalIndex => Z.of_nat (length its) - originalIndex)
            <$> _originalIndex item;
        row_title := title item;
        row_pubDate := pubDate item |}.

(** Lines 300-316 of [logItemsList]: the selection and the rows made of
    it, with the store that the selection leaves. *)
Definition tableData (fuel : nat) (fs : gmap string content) (st : store)
  (o : Options) : res (list Row * store) :=
  selected <-
    getItemsToDownload JSON_parse path_resolve_cwd path_resolve3
      path_extname URL_pathname Date_parse utcOffset RegExp_new
      getArchiveFilename getFilename fuel fs st
      (listArguments o) ;;
  let '(items, st') := selected in
  tableData <- mapM (row o st') items ;;
  Ok (tableData, st').

End Rows.

End Listing.

(** ** The conversion of an episode file: [runFfmpeg] *)

Module Ffmpeg.

Import Selector Meta.

(** The double quote. *)
Definition dquote : ascii := "034"%char.

(** The properties of an item that [runFfmpeg] reads. *)
Record ItunesTags : Type :=
  { itunes_author : option string; itunes_episode : option string }.

Record TaggedItem : Type :=
  { item_title : option string;
    item_author : option string;
    item_itunes : option ItunesTags;
    item_pubDate : option string }.

(** How the call ends. *)
Inductive completion : Type :=
| Returned
| Thrown (e : exn).

(** [String.prototype.endsWith] *)
Fixpoint endsWith (s suffix : string) : bool :=
  String.eqb s suffix ||
  match s with
  | EmptyString => false
  | String _ r => endsWith r suffix
  end.

(** [value.replace(/"/g, '\\"')] *)
Fixpoint escapeQuotes (s : string) : string :=
  match s with
  | EmptyString => EmptyString
  | String c r =>
      if Ascii.eqb c dquote then String "\" (String dquote (escapeQuotes r))
      else String c (escapeQuotes r)
  end.

(** [a || ""] *)
Definition orEmpty (a : option string) : string :=
  if truthy a then render a else "".

(** [Array.prototype.join(" ")] *)
Fixpoint joinSpace (l : list string) : string :=
  match l with
  | [] => EmptyString
  | [x] => x
  | x :: l' => x +:+ " " +:+ joinSpace l'
  end.

Section Platform.

(** The built-ins: [dayjs(new Date(_)).format("YYYY-MM-DD")], the decimal
    text of a number, and the external command run by [exec], which ends
    well or with an error and leaves the disk in some state. *)
Context {content : Type}.
Variable formatDate : string -> string.
Variable numberToString : Z -> string.
Variable execWithPromise :
  string -> gmap string content -> option exn * gmap string content.

Abbreviation disk := (gmap string content).

(** The text [-metadata key="value"] of one tag, or [null]. *)
Definition metadataSegment (key value : string) : option string :=
  if negb (String.eqb value "") then
    Some ("-metadata " +:+ key +:+ "=" +:+ String dquote
            (escapeQuotes value +:+ String dquote EmptyString))
  else None.

(** The tags, [None] when [feed.items] is needed and undefined. *)
Definition metadataString (feed : Feed) (item : TaggedItem) (itemIndex : Z)
  : option string :=
  let album := orEmpty (feed_title feed) in
  let title := orEmpty (item_title item) in
  let artist :=
    if truthy (item_itunes item ≫= itunes_author)
    then render (item_itunes item ≫= itunes_author)
    else orEmpty (item_author item) in
  let track :=
    if truthy (item_itunes item ≫= itunes_episode)
    then Some (render (item_itunes item ≫= itunes_episode))
    else
      match feed_items feed with
      | Some its => Some (numberToString (Z.of_nat (length its) - itemIndex))
      | None => None
      end in
  let date :=
    if truthy (item_pubDate item) then formatDate (render (item_pubDate item))
    else "" in
  match track with
  | Some track =>
      Some (joinSpace
              (omap (fun kv => metadataSegment (fst kv) (snd kv))
                 [ ("album", album); ("artist", artist); ("title", title);
                   ("track", track); ("date", date);
                   ("album_artist", album) ]))
  | None => None
  end.

(** The completion, the disk, and the commands that were run. *)
Definition runFfmpeg (fs : disk) (feed : Feed) (item : TaggedItem)
  (itemIndex : Z) (outputPath : string) (bitrate : option string)
  (mono addMp3Metadata : bool) : completion * disk * list string :=
  match fs !! outputPath with
  | None => (Returned, fs, [])
  | Some original =>
      if negb (endsWith outputPath ".mp3") then
        (Thrown (Error "Not an .mp3 file. Unable to run ffmpeg."), fs, [])
      else
        let command :=
          "ffmpeg -loglevel quiet -i " +:+ String dquote
            (outputPath +:+ String dquote EmptyString) in
        let command :=
          if truthy bitrate then command +:+ " -b:a " +:+ render bitrate
          else command in
        let command := if mono then command +:+ " -ac 1" else command in
        let tagged :=
          if addMp3Metadata then
            match metadataString feed item itemIndex with
            | Some tags =>
                Some (command +:+ " -map_metadata 0 " +:+ tags
                      +:+ " -codec copy")
            | None => None
            end
          else Some command in
        match tagged with
        | None =>
            (Thrown (Native (TypeError "Cannot read properties of undefined")),
             fs, [])
        | Some command =>
            let tmpMp3Path := outputPath +:+ ".tmp.mp3" in
            let command :=
              command +:+ " " +:+ String dquote
                (tmpMp3Path +:+ String dquote EmptyString) in
            match execWithPromise command fs with
            | (Some error, fs1) =>
                let fs2 :=
                  match fs1 !! tmpMp3Path with
                  | Some _ => delete tmpMp3Path fs1
                  | None => fs1
                  end in
                (Thrown error, fs2, [command])
            | (None, fs1) =>
                match fs1 !! outputPath with
                | None =>
                    (Thrown (Error "ENOENT: no such file or directory, unlink"),
                     fs1, [command])
                | Some _ =>
                    let fs2 := delete outputPath fs1 in
                    match fs2 !! tmpMp3Path with
                    | None =>
                        (Thrown
                           (Error "ENOENT: no such file or directory, rename"),
                         fs2, [command])
                    | Some converted =>
                        (Returned,
                         <[outputPath := converted]> (delete tmpMp3Path fs2),
                         [command])
                    end
                end
            end
        end
  end.

End Platform.

End Ffmpeg.

(** * Properties *)

(** ** The archive ledger *)

Module ArchiveProps.

Import Fields Archive Selector.

Section Ledger.

Context {content : Type}.
Variable JSON_parse : content -> option value.
Variable JSON_stringify : value -> content.
Variable path_resolve_cwd : string -> string.
Variable dirExists : string -> bool.

Abbreviation getArchive := (Archive.getArchive JSON_parse path_resolve_cwd).
Abbreviation writeToArchive :=
  (Archive.writeToArchive JSON_parse JSON_stringify path_resolve_cwd
     dirExists).
Abbreviation getIsInArchive :=
  (Archive.getIsInArchive JSON_parse path_resolve_cwd).
Abbreviation writeFileSync := (Archive.writeFileSync dirExists).

Lemma existsb_is_string_app (l : list value) (key : string) :
  existsb (is_string key) (l ++ [VStr key]) = true.
Proof.
  rewrite existsb_app. simpl. rewrite String.eqb_refl.
  now rewrite orb_true_r.
Qed.

Lemma inserted_includes (l : list value) (key : string) :
  existsb (is_string key) (inserted l key) = true.
Proof.
  unfold inserted. destruct (existsb (is_string key) l) eqn:E.
  - exact E.
  - apply existsb_is_string_app.
Qed.

Lemma inserted_idem (l : list value) (key : string) :
  inserted (inserted l key) key = inserted l key.
Proof.
  unfold inserted at 1. now rewrite inserted_includes.
Qed.

Lemma getArchive_after_write (fs : gmap string content) (archive : string)
  (v : value) :
  JSON_parse (JSON_stringify v) = Some v ->
  getArchive (<[path_resolve_cwd archive := JSON_stringify v]> fs) archive
  = Ok v.
Proof.
  intros Hrt. unfold Archive.getArchive.
  rewrite lookup_insert_eq. now rewrite Hrt.
Qed.

Lemma existsSync_insert (fs : gmap string content) (path : string)
  (data : content) :
  existsSync (<[path := data]> fs) path = true.
Proof. unfold existsSync. now rewrite lookup_insert_eq. Qed.

Lemma writeFileSync_possible (fs : gmap string content) (path : string)
  (data : content) :
  existsSync fs path || dirExists path = true ->
  writeFileSync fs path data = Ok (<[path := data]> fs).
Proof. intros H. unfold Archive.writeFileSync. now rewrite H. Qed.

Lemma writeFileSync_impossible (fs : gmap string content) (path : string)
  (data : content) :
  existsSync fs path || dirExists path = false ->
  exists msg, writeFileSync fs path data = Throw (SystemError msg).
Proof.
  intros H. unfold Archive.writeFileSync. rewrite H. now eexists.
Qed.

(** The ledger that [writeToArchive] hands to [fs.writeFileSync]. *)
Lemma writeToArchive_write (fs : gmap string content) (key archive : string)
  (l : list value) :
  getArchive fs archive = Ok (VArr l) ->
  writeToArchive fs key archive
  = writeFileSync fs (path_resolve_cwd archive)
      (JSON_stringify (VArr (inserted l key))).
Proof.
  intros Hload. unfold Archive.writeToArchive. rewrite Hload. simpl.
  unfold inserted. destruct (existsb (is_string key) l); reflexivity.
Qed.

(** C6: insertion in a well-formed ledger (absent file, or a file holding
    an array).  When the ledger file exists or the directory that is to
    hold it does, the insertion rewrites the whole file with the previous
    keys followed by the new key when it was absent, and with the same
    keys when it was present; afterwards the ledger contains the key, and
    a second insertion of the same key leaves the file as it is.  When
    neither the file nor its directory exists, the insertion throws the
    error of [fs.writeFileSync]. *)
Theorem writeToArchive_idempotent (fs : gmap string content)
  (key archive : string) (l : list value) :
  getArchive fs archive = Ok (VArr l) ->
  JSON_parse (JSON_stringify (VArr (inserted l key)))
    = Some (VArr (inserted l key)) ->
  let archivePath := path_resolve_cwd archive in
  let fs' := <[archivePath := JSON_stringify (VArr (inserted l key))]> fs in
  (existsSync fs archivePath || dirExists archivePath = true ->
   writeToArchive fs key archive = Ok fs' /\
   getArchive fs' archive = Ok (VArr (inserted l key)) /\
   (existsb (is_string key) l = false ->
    getArchive fs' archive = Ok (VArr (l ++ [VStr key]))) /\
   (existsb (is_string key) l = true ->
    getArchive fs' archive = getArchive fs archive) /\
   getIsInArchive fs' key archive = Ok true /\
   writeToArchive fs' key archive = Ok fs') /\
  (existsSync fs archivePath || dirExists archivePath = false ->
   exists msg, writeToArchive fs key archive = Throw (SystemError msg)).
Proof.
  intros Hload Hrt archivePath fs'. split.
  - intros Hdir.
    assert (Hread : getArchive fs' archive = Ok (VArr (inserted l key)))
      by (subst fs' archivePath; now apply getArchive_after_write).
    assert (Hfirst : writeToArchive fs key archive = Ok fs').
    { rewrite (writeToArchive_write _ _ _ _ Hload).
      now apply writeFileSync_possible. }
    repeat split.
    + exact Hfirst.
    + exact Hread.
    + intros Habs. rewrite Hread. unfold inserted. now rewrite Habs.
    + intros Hin. rewrite Hread, Hload. unfold inserted. now rewrite Hin.
    + unfold Archive.getIsInArchive. rewrite Hread. simpl.
      now rewrite inserted_includes.
    + rewrite (writeToArchive_write _ _ _ _ Hread), inserted_idem.
      rewrite writeFileSync_possible.
      * subst fs'. now rewrite insert_insert_eq.
      * subst fs' archivePath. now rewrite existsSync_insert.
  - intros Hdir. rewrite (writeToArchive_write _ _ _ _ Hload).
    now apply writeFileSync_impossible.
Qed.

End Ledger.

(** A ledger file with one key receives a second key. *)
Lemma writeToArchive_idempotent_witness :
  let fs : gmap string string :=
    {[ "/work/archive.json" := Sample.JSON_stringify (VArr [VStr "feed-a.mp3"]) ]} in
  let fs' : gmap string string :=
    <["/work/archive.json" :=
        Sample.JSON_stringify (VArr [VStr "feed-a.mp3"; VStr "feed-b.mp3"])]> fs in
  Archive.getArchive Sample.JSON_parse Sample.path_resolve_cwd fs "archive.json"
    = Ok (VArr [VStr "feed-a.mp3"]) /\
  Archive.writeToArchive Sample.JSON_parse Sample.JSON_stringify
    Sample.path_resolve_cwd Sample.dirExists fs "feed-b.mp3" "archive.json"
    = Ok fs' /\
  Archive.getIsInArchive Sample.JSON_parse Sample.path_resolve_cwd fs'
    "feed-b.mp3" "archive.json" = Ok true.
Proof.
  intros fs fs'.
  assert (Hload :
    Archive.getArchive Sample.JSON_parse Sample.path_resolve_cwd fs
      "archive.json" = Ok (VArr [VStr "feed-a.mp3"])) by reflexivity.
  split; [exact Hload|].
  pose proof (proj1
    (writeToArchive_idempotent Sample.JSON_parse Sample.JSON_stringify
       Sample.path_resolve_cwd Sample.dirExists fs "feed-b.mp3"
       "archive.json" [VStr "feed-a.mp3"] Hload eq_refl) eq_refl) as H.
  split; [exact (proj1 H)|].
  exact (proj1 (proj2 (proj2 (proj2 (proj2 H))))).
Defined.

End ArchiveProps.

(** ** The field projector *)

Module FieldsProps.

Import Regex Fields FieldsRef.

(** *** Assignments to the result object *)

Lemma reserved_ownKey (key : string) :
  is_reserved key = true -> ownKey key = true.
Proof.
  unfold is_reserved. intros H. apply orb_true_iff in H as [H|H];
    apply String.eqb_eq in H; now subst key.
Qed.

Lemma obj_set_fresh (o : object) (key : string) (v : value) :
  key ∉ keys o -> ownKey key = true -> obj_set o key v = o ++ [(key, v)].
Proof.
  intros Hfresh Hown. induction o as [|[k w] o IH]; simpl.
  - now rewrite Hown.
  - unfold keys in Hfresh. simpl in Hfresh.
    apply not_elem_of_cons in Hfresh as [Hne Hfresh].
    replace (String.eqb k key) with false
      by (symmetry; apply String.eqb_neq; congruence).
    now rewrite IH.
Qed.

(** An assignment under the key [__proto__] to an object without an entry
    of that name adds no entry. *)
Lemma obj_set_proto (o : object) (key : string) (v : value) :
  key ∉ keys o -> ownKey key = false -> obj_set o key v = o.
Proof.
  intros Hfresh Hown. induction o as [|[k w] o IH]; simpl.
  - now rewrite Hown.
  - unfold keys in Hfresh. simpl in Hfresh.
    apply not_elem_of_cons in Hfresh as [Hne Hfresh].
    replace (String.eqb k key) with false
      by (symmetry; apply String.eqb_neq; congruence).
    now rewrite IH.
Qed.

Lemma obj_set_in (o : object) (key : string) (v : value) :
  key ∉ keys o -> ownKey key = true -> (key, v) ∈ obj_set o key v.
Proof.
  intros Hfresh Hown. rewrite obj_set_fresh by assumption.
  apply elem_of_app. right. left.
Qed.

Lemma obj_set_other (o : object) (key key' : string) (v w : value) :
  key <> key' -> (key, v) ∈ o -> (key, v) ∈ obj_set o key' w.
Proof.
  intros Hne. induction o as [|[k u] o IH]; intros Hin; simpl.
  - inversion Hin.
  - apply elem_of_cons in Hin as [Heq|Hin].
    + injection Heq as <- <-.
      replace (String.eqb key key') with false
        by (symmetry; now apply String.eqb_neq).
      left.
    + destruct (String.eqb k key'); right; [exact Hin|now apply IH].
Qed.

Lemma obj_set_keys (o : object) (key : string) (v : value) (k : string) :
  k ∈ keys (obj_set o key v) -> k = key \/ k ∈ keys o.
Proof.
  unfold keys. induction o as [|[k' w] o IH]; simpl; intros Hin.
  - destruct (ownKey key); simpl in Hin; [|inversion Hin].
    apply elem_of_cons in Hin as [->|Hin]; [now left|inversion Hin].
  - destruct (String.eqb k' key) eqn:E; simpl in Hin.
    + right. exact Hin.
    + apply elem_of_cons in Hin as [->|Hin].
      * right. left.
      * destruct (IH Hin) as [->|H]; [now left|right; now right].
Qed.

Lemma keys_app (o1 o2 : object) : keys (o1 ++ o2) = keys o1 ++ keys o2.
Proof. unfold keys. apply map_app. Qed.

(** *** The traversal of the entries *)

Section Entries.

Variable toInclude : value -> string -> value.
Variable prefix : string.

(** On entries with pairwise different keys the traversal appends to the
    result, in their order, what it makes of each entry. *)
Lemma applyEntries_omap (entries result : object) :
  NoDup (keys entries) ->
  (forall k, k ∈ keys entries -> k ∉ keys result) ->
  applyEntries toInclude prefix entries result
  = result ++ omap (projectEntry toInclude prefix) entries.
Proof.
  revert result. induction entries as [|[k v] entries IH];
    intros result Hnd Hfresh.
  - simpl. now rewrite app_nil_r.
  - unfold keys in Hnd. simpl in Hnd. apply NoDup_cons in Hnd as [Hk Hnd].
    assert (Hresult : k ∉ keys result) by (apply Hfresh; left).
    assert (Hrest : forall k', k' ∈ keys entries -> k' ∉ keys result)
      by (intros k' Hin; apply Hfresh; now right).
    assert (Hfresh' : forall w k', k' ∈ keys entries ->
      k' ∉ keys (result ++ [(k, w)])).
    { intros w k' Hin. rewrite keys_app. intros Hin'.
      apply elem_of_app in Hin' as [Hin'|Hin'].
      - apply (Hfresh k'); [now right|exact Hin'].
      - apply list_elem_of_singleton in Hin'. simpl in Hin'. subst k'.
        now apply Hk. }
    cbn [applyEntries omap list_omap]. unfold projectEntry at 1.
    cbn [fst snd].
    destruct (is_reserved k) eqn:Hres.
    + rewrite obj_set_fresh by (try assumption; now apply reserved_ownKey).
      rewrite (IH _ Hnd (Hfresh' v)). now rewrite <- app_assoc.
    + destruct (is_undefined (toInclude v (prefix +:+ k))); cbn [orb].
      * now apply IH.
      * destruct (ownKey k) eqn:Hown; cbn [negb].
        -- rewrite obj_set_fresh by assumption.
           rewrite (IH _ Hnd (Hfresh' _)). now rewrite <- app_assoc.
        -- rewrite obj_set_proto by assumption. now apply IH.
Qed.

(** An entry of the result stays in the result when the remaining keys
    are different from its key. *)
Lemma applyEntries_preserves (entries result : object) (k : string)
  (v : value) :
  k ∉ keys entries -> (k, v) ∈ result ->
  (k, v) ∈ applyEntries toInclude prefix entries result.
Proof.
  revert result. induction entries as [|[k' v'] entries IH];
    intros result Hk Hin.
  - exact Hin.
  - unfold keys in Hk. simpl in Hk.
    apply not_elem_of_cons in Hk as [Hne Hk].
    cbn [applyEntries].
    destruct (is_reserved k').
    + apply IH; [exact Hk|]. now apply obj_set_other.
    + destruct (is_undefined (toInclude v' (prefix +:+ k'))).
      * now apply IH.
      * apply IH; [exact Hk|]. now apply obj_set_other.
Qed.

(** The entries under the reserved keys are passed through. *)
Lemma applyEntries_reserved (entries result : object) (k : string)
  (v : value) :
  NoDup (keys entries) ->
  (forall k', k' ∈ keys entries -> k' ∉ keys result) ->
  (k, v) ∈ entries ->
  is_reserved k = true ->
  (k, v) ∈ applyEntries toInclude prefix entries result.
Proof.
  revert result. induction entries as [|[k' v'] entries IH];
    intros result Hnd Hfresh Hin Hres.
  - inversion Hin.
  - unfold keys in Hnd. simpl in Hnd. apply NoDup_cons in Hnd as [Hk' Hnd].
    assert (Hresult : k' ∉ keys result) by (apply Hfresh; left).
    assert (Hfresh' : forall w k0, k0 ∈ keys entries ->
      k0 ∉ keys (obj_set result k' w)).
    { intros w k0 Hin0 Hin'.
      apply obj_set_keys in Hin' as [->|Hin'].
      - now apply Hk'.
      - apply (Hfresh k0); [now right|exact Hin']. }
    cbn [applyEntries].
    apply elem_of_cons in Hin as [Heq|Hin].
    + injection Heq as <- <-. rewrite Hres.
      apply applyEntries_preserves; [exact Hk'|].
      apply obj_set_in; [exact Hresult|now apply reserved_ownKey].
    + destruct (is_reserved k').
      * apply IH; try assumption. apply Hfresh'.
      * destruct (is_undefined (toInclude v' (prefix +:+ k'))).
        -- apply IH; try assumption.
           intros k0 Hin0. apply Hfresh. now right.
        -- apply IH; try assumption. apply Hfresh'.
Qed.

Lemma projectEntry_key (kv kv' : string * value) :
  projectEntry toInclude prefix kv = Some kv' -> fst kv' = fst kv.
Proof.
  unfold projectEntry. destruct (is_reserved (fst kv)).
  - now intros [= <-].
  - destruct (_ || _); [discriminate|]. now intros [= <-].
Qed.

Lemma omap_keys_sublist (entries : object) :
  sublist (keys (omap (projectEntry toInclude prefix) entries)) (keys entries).
Proof.
  unfold keys. induction entries as [|kv entries IH]; [constructor|].
  cbn [omap list_omap]. destruct (projectEntry _ _ kv) as [kv'|] eqn:E.
  - cbn [map]. rewrite (projectEntry_key _ _ E). now constructor.
  - cbn [map]. now constructor.
Qed.

Lemma omap_keys_NoDup (entries : object) :
  NoDup (keys entries) ->
  NoDup (keys (omap (projectEntry toInclude prefix) entries)).
Proof. intros H. eapply sublist_NoDup; [exact H|apply omap_keys_sublist]. Qed.

End Entries.

Lemma applyFieldRules_omap (o : object) (rules : list rule) (prefix : string) :
  NoDup (keys o) ->
  applyFieldRules o rules prefix
  = omap (projectEntry (getToInclude rules) prefix) o.
Proof.
  intros Hnd. unfold applyFieldRules.
  rewrite applyEntries_omap; [reflexivity|exact Hnd|].
  intros k _ Hin. inversion Hin.
Qed.

(** *** Lists that a filter or a partial map leaves as they are *)

Lemma omap_length {A B : Type} (f : A -> option B) (l : list A) :
  (length (omap f l) <= length l)%nat.
Proof.
  induction l as [|x l IH]; [reflexivity|].
  cbn [omap list_omap]. destruct (f x); simpl; lia.
Qed.

Lemma omap_fix {A : Type} (f : A -> option A) (l : list A) :
  omap f l = l <-> Forall (fun x => f x = Some x) l.
Proof.
  split.
  - induction l as [|x l IH]; intros H; [constructor|].
    cbn [omap list_omap] in H. destruct (f x) as [y|] eqn:E.
    + injection H as -> H. constructor; [exact E|now apply IH].
    + pose proof (omap_length f l) as Hlen. rewrite H in Hlen.
      simpl in Hlen. lia.
  - induction 1 as [|x l Hx _ IH]; [reflexivity|].
    cbn [omap list_omap]. now rewrite Hx, IH.
Qed.

Lemma filter_map_fix {A : Type} (p : A -> bool) (f : A -> A) (l : list A) :
  List.filter p (map f l) = l <-> Forall (fun x => f x = x /\ p x = true) l.
Proof.
  split.
  - induction l as [|x l IH]; intros H; [constructor|].
    cbn [map List.filter] in H. destruct (p (f x)) eqn:E.
    + injection H as Hx H. rewrite Hx in E.
      constructor; [now split|now apply IH].
    + pose proof (List.filter_length_le p (map f l)) as Hlen.
      rewrite H, length_map in Hlen. simpl in Hlen. lia.
  - induction 1 as [|x l [Hx Hp] _ IH]; [reflexivity|].
    cbn [map List.filter]. now rewrite Hx, Hp, IH.
Qed.

Lemma filter_omap_length {A : Type} (p : A -> bool) (f : A -> option A)
  (l : list A) :
  (forall x, p x = true -> f x = Some x) ->
  (length (List.filter p l) <= length (omap f l))%nat.
Proof.
  intros Hp. induction l as [|x l IH]; [reflexivity|].
  cbn [List.filter omap list_omap]. destruct (p x) eqn:E.
  - rewrite (Hp x E). simpl. lia.
  - destruct (f x); simpl; lia.
Qed.

Lemma omap_filter {A : Type} (p : A -> bool) (f : A -> option A)
  (l : list A) :
  (forall x, p x = true -> f x = Some x) ->
  omap f l = List.filter p l
  <-> Forall (fun x => p x = false -> f x = None) l.
Proof.
  intros Hp. split.
  - induction l as [|x l IH]; intros H; [constructor|].
    cbn [List.filter omap list_omap] in H. destruct (p x) eqn:E.
    + rewrite (Hp x E) in H. injection H as H.
      constructor; [congruence|now apply IH].
    + destruct (f x) as [y|] eqn:Ef.
      * pose proof (filter_omap_length p f l Hp) as Hlen.
        rewrite <- H in Hlen. simpl in Hlen. lia.
      * constructor; [intros _; exact Ef|now apply IH].
  - induction 1 as [|x l Hx _ IH]; [reflexivity|].
    cbn [List.filter omap list_omap]. destruct (p x) eqn:E.
    + now rewrite (Hp x E), IH.
    + now rewrite (Hx eq_refl).
Qed.

(** *** Objects with pairwise different keys *)

Lemma distinct_NoDup (l : list string) : distinct l = true -> NoDup l.
Proof.
  induction l as [|x l IH]; intros H; [constructor|].
  cbn [distinct] in H. apply andb_true_iff in H as [Hx H].
  constructor; [|now apply IH].
  intros Hin. apply negb_true_iff in Hx.
  assert (existsb (String.eqb x) l = true); [|congruence].
  apply existsb_exists. exists x. split; [now apply list_elem_of_In|].
  apply String.eqb_refl.
Qed.

Lemma wf_entries (entries : object) :
  wf (VObj entries) = true ->
  NoDup (keys entries) /\ Forall (fun kv => wf (snd kv) = true) entries.
Proof.
  cbn [wf]. intros H. apply andb_true_iff in H as [H1 H2]. split.
  - now apply distinct_NoDup.
  - apply Forall_forall. intros kv Hin. rewrite forallb_forall in H2.
    apply H2. now apply list_elem_of_In.
Qed.

Lemma wf_items (items : list value) :
  wf (VArr items) = true -> Forall (fun v => wf v = true) items.
Proof.
  cbn [wf]. intros H. apply Forall_forall. intros v Hin.
  rewrite forallb_forall in H. apply H. now apply list_elem_of_In.
Qed.

(** *** The leaves of a projection *)

Lemma flat_map_filter {A B : Type} (p : B -> bool) (f : A -> list B)
  (l : list A) :
  List.filter p (flat_map f l) = flat_map (fun x => List.filter p (f x)) l.
Proof.
  induction l as [|x l IH]; [reflexivity|].
  cbn [flat_map]. now rewrite List.filter_app, IH.
Qed.

Lemma flat_map_ext_Forall {A B : Type} (f g : A -> list B) (l : list A) :
  Forall (fun x => f x = g x) l -> flat_map f l = flat_map g l.
Proof.
  induction 1 as [|x l Hx _ IH]; [reflexivity|].
  cbn [flat_map]. now rewrite Hx, IH.
Qed.

Lemma flat_map_omap {A B C : Type} (h : B -> list C) (f : A -> option B)
  (l : list A) :
  flat_map h (omap f l)
  = flat_map (fun x => match f x with Some y => h y | None => [] end) l.
Proof.
  induction l as [|x l IH]; [reflexivity|].
  cbn [omap list_omap flat_map]. destruct (f x); cbn [flat_map];
    now rewrite IH.
Qed.

Lemma leaves_defined_items (fullKey : string) (l : list value) :
  flat_map (leaves fullKey)
    (List.filter (fun item => negb (is_undefined item)) l)
  = flat_map (leaves fullKey) l.
Proof.
  induction l as [|x l IH]; [reflexivity|].
  cbn [List.filter flat_map]. destruct x; cbn [is_undefined negb flat_map];
    now rewrite IH.
Qed.

Lemma leaves_array (fullKey : string) (nested : list value) :
  leaves fullKey (match nested with [] => VUndef | _ => VArr nested end)
  = flat_map (leaves fullKey) nested.
Proof. now destruct nested. Qed.

Lemma leaves_object (fullKey : string) (nested : object) :
  leaves fullKey (match nested with [] => VUndef | _ => VObj nested end)
  = objectLeaves (fullKey +:+ ".") nested.
Proof. now destruct nested. Qed.

Section Leaves.

Variable rules : list rule.

Abbreviation keep := (fun pv : string * value => included rules (fst pv)).

Lemma objectLeaves_projection (prefix : string) (entries : object) :
  Forall (fun kv => forall fullKey,
            leaves fullKey (getToInclude rules (snd kv) fullKey)
            = List.filter keep (leaves fullKey (snd kv))) entries ->
  objectLeaves prefix (omap (projectEntry (getToInclude rules) prefix) entries)
  = List.filter keep (objectLeaves prefix entries).
Proof.
  intros IH. unfold objectLeaves. rewrite flat_map_omap, flat_map_filter.
  apply flat_map_ext_Forall. eapply Forall_impl; [exact IH|].
  intros [k v] Hv. cbn [fst snd] in *. unfold projectEntry. cbn [fst snd].
  destruct (is_reserved k) eqn:Hres.
  - cbn [fst]. now rewrite Hres.
  - cbn [orb]. destruct (ownKey k) eqn:Hown; cbn [negb].
    + rewrite orb_false_r.
      destruct (is_undefined (getToInclude rules v (prefix +:+ k))) eqn:Hu.
      * rewrite <- Hv. destruct (getToInclude rules v (prefix +:+ k));
          [reflexivity|discriminate Hu..].
      * cbn [fst snd]. rewrite Hres, Hown. apply Hv.
    + now rewrite orb_true_r.
Qed.

Lemma getToInclude_leaves (v : value) :
  wf v = true ->
  forall fullKey,
    leaves fullKey (getToInclude rules v fullKey)
    = List.filter keep (leaves fullKey v).
Proof.
  induction v as [| | b | n | s | items IH | entries IH] using value_induction;
    intros Hwf fullKey;
    try (cbn [getToInclude leaves List.filter fst]; unfold included;
         destruct (matchingRule rules fullKey) as [r|];
         [destruct (include r)|]; reflexivity).
  - cbn [getToInclude]. rewrite leaves_array, leaves_defined_items.
    cbn [leaves]. rewrite flat_map_filter, flat_map_concat_map, map_map.
    rewrite <- flat_map_concat_map. apply flat_map_ext_Forall.
    pose proof (wf_items _ Hwf) as Hitems.
    clear Hwf. induction IH as [|x l Hx _ IHl]; [constructor|].
    apply Forall_cons in Hitems as [Hwx Hl].
    constructor; [now apply Hx|now apply IHl].
  - destruct (wf_entries _ Hwf) as [Hnd Hall].
    cbn [getToInclude]. rewrite leaves_object.
    rewrite applyEntries_omap; [|exact Hnd|intros k _ Hin; inversion Hin].
    cbn [app]. rewrite objectLeaves_projection.
    + reflexivity.
    + clear Hwf Hnd. induction IH as [|x l Hx _ IHl]; [constructor|].
      apply Forall_cons in Hall as [Hwx Hl].
      constructor; [now apply Hx|now apply IHl].
Qed.

End Leaves.

(** *** The values that a projection copies as they are *)

Section Copies.

Variable rules : list rule.
Variable m : string -> bool.
Hypothesis included_m : forall fullKey, included rules fullKey = m fullKey.

Lemma projectEntry_copied (prefix : string) (kv : string * value) :
  (forall fullKey,
     getToInclude rules (snd kv) fullKey = snd kv /\
     is_undefined (snd kv) = false
     <-> copied m fullKey (snd kv) = true) ->
  projectEntry (getToInclude rules) prefix kv = Some kv
  <-> is_reserved (fst kv)
      || (ownKey (fst kv) && copied m (prefix +:+ fst kv) (snd kv)) = true.
Proof.
  destruct kv as [k v]. cbn [fst snd]. intros Hv. unfold projectEntry.
  cbn [fst snd]. destruct (is_reserved k); [now split|]. cbn [orb].
  specialize (Hv (prefix +:+ k)).
  destruct (ownKey k); cbn [negb andb].
  - rewrite orb_false_r. rewrite <- Hv.
    destruct (is_undefined (getToInclude rules v (prefix +:+ k))) eqn:Hu.
    + split; [discriminate|]. intros [Heq Hdef]. congruence.
    + split.
      * intros [= Heq]. rewrite Heq in Hu. now split.
      * intros [Heq _]. now rewrite Heq.
  - rewrite orb_true_r. now split.
Qed.

Lemma getToInclude_copied (v : value) :
  wf v = true ->
  forall fullKey,
    getToInclude rules v fullKey = v /\ is_undefined v = false
    <-> copied m fullKey v = true.
Proof.
  induction v as [| | b | n | s | items IH | entries IH] using value_induction;
    intros Hwf fullKey;
    try (cbn [getToInclude copied is_undefined]; rewrite <- included_m;
         unfold included;
         destruct (matchingRule rules fullKey) as [r|];
         [destruct (include r)|]; split;
         solve [intros [H _]; try discriminate H; reflexivity
               |intros H; try discriminate H; split; reflexivity]).
  - split; [intros [_ H]; discriminate H|discriminate].
  - pose proof (wf_items _ Hwf) as Hitems.
    assert (Hall :
      List.filter (fun item => negb (is_undefined item))
        (map (fun item => getToInclude rules item fullKey) items) = items
      <-> forallb (copied m fullKey) items = true).
    { rewrite filter_map_fix, forallb_forall, List.Forall_forall.
      rewrite List.Forall_forall in IH, Hitems.
      split; intros H x Hx.
      - apply (IH x Hx (Hitems x Hx)). destruct (H x Hx) as [H1 H2].
        split; [exact H1|]. now apply negb_true_iff.
      - apply (IH x Hx (Hitems x Hx)) in H; [|exact Hx].
        destruct H as [H1 H2]. split; [exact H1|]. now apply negb_true_iff. }
    cbn [getToInclude copied is_undefined]. split.
    + intros [H _].
      assert (Hn :
        List.filter (fun item => negb (is_undefined item))
          (map (fun item => getToInclude rules item fullKey) items) = items).
      { destruct (List.filter _ (map _ items)) as [|y nested];
          [discriminate H|]. now injection H. }
      apply Hall in Hn.
      destruct items as [|x items']; [discriminate H|exact Hn].
    + intros H. split; [|reflexivity].
      assert (Hitems' : forallb (copied m fullKey) items = true)
        by (destruct items; [discriminate H|exact H]).
      apply Hall in Hitems'. rewrite Hitems'.
      destruct items; [discriminate H|reflexivity].
  - destruct (wf_entries _ Hwf) as [Hnd Hwfs].
    assert (Hall :
      omap (projectEntry (getToInclude rules) (fullKey +:+ ".")) entries
      = entries
      <-> forallb (fun kv => is_reserved (fst kv) ||
                     (ownKey (fst kv) &&
                      copied m ((fullKey +:+ ".") +:+ fst kv) (snd kv)))
            entries = true).
    { rewrite omap_fix, forallb_forall, List.Forall_forall.
      rewrite List.Forall_forall in IH, Hwfs.
      split; intros H x Hx.
      - apply projectEntry_copied; [|now apply H].
        intros fk. now apply IH, Hwfs.
      - apply projectEntry_copied; [|now apply H].
        intros fk. now apply IH, Hwfs. }
    cbn [getToInclude copied is_undefined].
    rewrite applyEntries_omap; [|exact Hnd|intros k _ Hin; inversion Hin].
    cbn [app]. split.
    + intros [H _].
      assert (Hn :
        omap (projectEntry (getToInclude rules) (fullKey +:+ ".")) entries
        = entries).
      { destruct (omap _ entries) as [|y nested]; [discriminate H|].
        now injection H. }
      apply Hall in Hn.
      destruct entries as [|x entries']; [discriminate H|exact Hn].
    + intros H. split; [|reflexivity].
      assert (Hentries :
        forallb (fun kv => is_reserved (fst kv) ||
                   (ownKey (fst kv) &&
                    copied m ((fullKey +:+ ".") +:+ fst kv) (snd kv)))
          entries = true)
        by (destruct entries; [discriminate H|exact H]).
      apply Hall in Hentries. rewrite Hentries.
      destruct entries; [discriminate H|reflexivity].
Qed.

(** The projection is the identity exactly on the objects all of whose
    entries are copied. *)
Lemma applyFieldRules_copied (o : object) :
  wfObject o = true ->
  applyFieldRules o rules "" = o
  <-> (forall k v, (k, v) ∈ o -> is_reserved k = false ->
         ownKey k && copied m k v = true).
Proof.
  intros Hwf. destruct (wf_entries _ Hwf) as [Hnd Hwfs].
  rewrite applyFieldRules_omap by exact Hnd.
  etransitivity; [apply omap_fix|].
  rewrite List.Forall_forall. rewrite List.Forall_forall in Hwfs.
  split.
  - intros H k v Hin Hres. apply list_elem_of_In in Hin.
    specialize (H _ Hin).
    apply projectEntry_copied in H;
      [|intros fk; now apply getToInclude_copied, (Hwfs (k, v))].
    cbn [fst snd] in H. now rewrite Hres in H.
  - intros H [k v] Hin.
    apply projectEntry_copied;
      [intros fk; now apply getToInclude_copied, (Hwfs (k, v))|].
    cbn [fst snd]. destruct (is_reserved k) eqn:Hres; [reflexivity|].
    apply list_elem_of_In in Hin. now apply (H k v Hin).
Qed.

End Copies.

(** *** Rules that all exclude *)

Section Exclusions.

Variable rules : list rule.
Hypothesis exclusions : forall r, r ∈ rules -> include r = false.

Lemma projectEntry_exclusions (prefix : string) (kv : string * value) :
  (forall fullKey, is_undefined (getToInclude rules (snd kv) fullKey)
                   = negb (has_reserved (snd kv))) ->
  match projectEntry (getToInclude rules) prefix kv with
  | Some _ => true
  | None => false
  end
  = is_reserved (fst kv) || (ownKey (fst kv) && has_reserved (snd kv)).
Proof.
  destruct kv as [k v]. cbn [fst snd]. intros Hv. unfold projectEntry.
  cbn [fst snd]. destruct (is_reserved k); [reflexivity|]. rewrite Hv.
  now destruct (has_reserved v), (ownKey k).
Qed.

(** Under rules that all exclude, a value is included exactly when it
    holds a reserved key. *)
Lemma getToInclude_reserved (v : value) :
  wf v = true ->
  forall fullKey,
    is_undefined (getToInclude rules v fullKey) = negb (has_reserved v).
Proof.
  assert (Hscalar : forall key w,
    match matchingRule rules key with
    | Some r => if include r then w else VUndef
    | None => VUndef
    end = VUndef).
  { intros key w. unfold matchingRule.
    destruct (find _ rules) as [r|] eqn:Hfind; [|reflexivity].
    apply find_some in Hfind as [Hin _].
    now rewrite (exclusions r (proj2 (list_elem_of_In _ _) Hin)). }
  induction v as [| | b | n | s | items IH | entries IH] using value_induction;
    intros Hwf fullKey;
    try (cbn [getToInclude has_reserved]; now rewrite Hscalar).
  - pose proof (wf_items _ Hwf) as Hitems.
    cbn [getToInclude has_reserved].
    assert (Hnested :
      match List.filter (fun item => negb (is_undefined item))
              (map (fun item => getToInclude rules item fullKey) items) with
      | [] => true
      | _ => false
      end = negb (existsb has_reserved items)).
    { clear Hwf. induction IH as [|x l Hx _ IHl]; [reflexivity|].
      apply Forall_cons in Hitems as [Hwx Hl].
      cbn [map List.filter existsb]. rewrite (Hx Hwx).
      destruct (has_reserved x); cbn [negb orb]; [reflexivity|now apply IHl]. }
    rewrite <- Hnested. now destruct (List.filter _ _).
  - destruct (wf_entries _ Hwf) as [Hnd Hwfs].
    cbn [getToInclude has_reserved].
    rewrite applyEntries_omap; [|exact Hnd|intros k _ Hin; inversion Hin].
    cbn [app].
    assert (Hnested :
      match omap (projectEntry (getToInclude rules) (fullKey +:+ "."))
              entries with
      | [] => true
      | _ => false
      end
      = negb (existsb (fun kv => is_reserved (fst kv) ||
                         (ownKey (fst kv) && has_reserved (snd kv)))
                entries)).
    { clear Hwf Hnd. induction IH as [|x l Hx _ IHl]; [reflexivity|].
      apply Forall_cons in Hwfs as [Hwx Hl].
      cbn [omap list_omap existsb].
      rewrite <- (projectEntry_exclusions (fullKey +:+ ".") x (Hx Hwx)).
      destruct (projectEntry _ _ x); cbn [orb negb];
        [reflexivity|now apply IHl]. }
    rewrite <- Hnested. now destruct (omap _ _).
Qed.

(** The projection gives the entries under the reserved keys exactly on
    the objects whose other entries hold no reserved key. *)
Lemma applyFieldRules_reserved (o : object) :
  wfObject o = true ->
  applyFieldRules o rules "" = reservedEntries o
  <-> (forall k v, (k, v) ∈ o -> is_reserved k = false ->
         ownKey k && has_reserved v = false).
Proof.
  intros Hwf. destruct (wf_entries _ Hwf) as [Hnd Hwfs].
  rewrite applyFieldRules_omap by exact Hnd. unfold reservedEntries.
  rewrite List.Forall_forall in Hwfs.
  assert (Hentry : forall k v, In (k, v) o -> is_reserved k = false ->
    projectEntry (getToInclude rules) "" (k, v) = None
    <-> ownKey k && has_reserved v = false).
  { intros k v Hin Hres.
    pose proof (projectEntry_exclusions "" (k, v)
      (getToInclude_reserved v (Hwfs _ Hin))) as H.
    cbn [fst snd] in H. rewrite Hres in H. cbn [orb] in H. rewrite <- H.
    destruct (projectEntry _ _ _); split; congruence. }
  etransitivity;
    [apply (omap_filter (fun kv : string * value => is_reserved (fst kv)));
     intros [k v] Hres; unfold projectEntry; now rewrite Hres|].
  rewrite List.Forall_forall. split.
  - intros H k v Hin Hres. apply list_elem_of_In in Hin.
    apply (Hentry k v Hin Hres). now apply (H (k, v)).
  - intros H [k v] Hin Hres. cbn [fst] in Hres.
    apply (Hentry k v Hin Hres). apply H; [|exact Hres].
    now apply list_elem_of_In.
Qed.

End Exclusions.

(** *** The two rule lists of the round trip *)

Lemma globToRegExp_star : globToRegExp "*" = Ok starRe.
Proof. reflexivity. Qed.

Lemma star_notdot (s : list ascii) :
  star ANotDot (matches []) s
  = forallb (fun c => negb (Ascii.eqb c ".")) s.
Proof.
  induction s as [|c s IH].
  - reflexivity.
  - cbn [star forallb atom_ok]. rewrite IH. reflexivity.
Qed.

Lemma test_star (key : string) : test starRe key = segment key.
Proof.
  unfold test, segment, starRe. cbn [pieces matches].
  destruct key as [|c key]; cbn [list_ascii_of_string].
  - reflexivity.
  - rewrite star_notdot. reflexivity.
Qed.

Lemma processFieldRules_star :
  processFieldRules ["*"] = Ok [{| include := true; pattern := starRe |}].
Proof. reflexivity. Qed.

Lemma processFieldRules_not_star :
  processFieldRules ["!*"] = Ok [{| include := false; pattern := starRe |}].
Proof. reflexivity. Qed.

Lemma included_star (fullKey : string) :
  included [{| include := true; pattern := starRe |}] fullKey
  = segment fullKey.
Proof.
  unfold included, matchingRule. cbn [find pattern].
  rewrite test_star. now destruct (segment fullKey).
Qed.

(** C2, amended.  On an object whose keys are pairwise different at every
    depth, the rule list [*] gives a structurally equal copy exactly when
    every entry outside the reserved keys has a key other than [__proto__]
    and a value that is copied as it is at that key as key path, where a
    scalar is included at the key paths of one segment only: a scalar
    other than [undefined] under a non-empty key without full stop, a
    non-empty array of copied values, or a non-empty object whose entries
    outside the reserved keys hold, through objects and arrays that are
    not empty, nothing but entries under reserved keys.  The rule list
    [!*] gives exactly the entries under the reserved keys if and only if
    no other entry holds a reserved key at the end of a chain of keys
    other than [__proto__].  And whatever the rules, the entries of the
    object under the reserved keys are in the result. *)
Theorem projection_round_trip (o : object) :
  wfObject o = true ->
  (getFields o ["*"] = Ok o
   <-> (forall k v, (k, v) ∈ o -> is_reserved k = false ->
          ownKey k && copied segment k v = true)) /\
  (getFields o ["!*"] = Ok (reservedEntries o)
   <-> (forall k v, (k, v) ∈ o -> is_reserved k = false ->
          ownKey k && has_reserved v = false)) /\
  (forall patterns result k v,
     getFields o patterns = Ok result ->
     (k, v) ∈ o -> is_reserved k = true -> (k, v) ∈ result).
Proof.
  intros Hwf. split; [|split].
  - unfold getFields. rewrite processFieldRules_star. cbn [bind rev app].
    rewrite <- (applyFieldRules_copied _ segment included_star o Hwf).
    split; [now intros [= ->]|now intros ->].
  - unfold getFields. rewrite processFieldRules_not_star.
    cbn [bind rev app].
    rewrite <- (applyFieldRules_reserved
                  [{| include := false; pattern := starRe |}]).
    + split; [now intros [= ->]|now intros ->].
    + intros r Hr. apply list_elem_of_singleton in Hr. now subst r.
    + exact Hwf.
  - intros patterns result k v Hget Hin Hres. unfold getFields in Hget.
    destruct (processFieldRules patterns) as [rules| |];
      cbn [bind] in Hget; try discriminate.
    injection Hget as <-. unfold applyFieldRules.
    apply applyEntries_reserved; try assumption.
    + now apply wf_entries.
    + intros k' _. unfold keys. simpl. apply not_elem_of_nil.
Qed.

(** An object with a reserved key, a scalar, an array of scalars and a
    nested object that holds nothing but an entry under a reserved key;
    and the same object without the nested one. *)
Lemma projection_round_trip_witness :
  let o :=
    [ ("title", VStr "Episode one");
      ("$", VObj [("id", VNum 1)]);
      ("tags", VArr [VStr "news"; VStr "weekly"]);
      ("enclosure", VObj [("$", VObj [("url", VStr "a.mp3")])]) ] in
  let flat :=
    [ ("title", VStr "Episode one");
      ("$", VObj [("id", VNum 1)]);
      ("tags", VArr [VStr "news"; VStr "weekly"]) ] in
  wfObject o = true /\
  getFields o ["*"] = Ok o /\
  getFields flat ["!*"] = Ok [("$", VObj [("id", VNum 1)])].
Proof.
  intros o flat. split; [reflexivity|]. split.
  - apply (proj1 (projection_round_trip o eq_refl)).
    intros k v Hin Hres. subst o.
    rewrite !elem_of_cons, elem_of_nil in Hin.
    destruct Hin as [Heq|[Heq|[Heq|[Heq|[]]]]]; injection Heq as -> ->;
      try discriminate Hres; reflexivity.
  - apply (proj1 (proj2 (projection_round_trip flat eq_refl))).
    intros k v Hin Hres. subst flat.
    rewrite !elem_of_cons, elem_of_nil in Hin.
    destruct Hin as [Heq|[Heq|[Heq|[]]]]; injection Heq as -> ->;
      try discriminate Hres; reflexivity.
Defined.

(** C2 as stated fails on nested objects: the rule [*] matches one path
    segment, so the field [a.b] is dropped and [a] with it; and under the
    rule [!*] a field that holds a reserved key deeper down is kept. *)
Lemma projection_star_drops_nested :
  let nested := [("a", VObj [("b", VNum 1)])] in
  let deep := [("a", VObj [("$", VNum 1)])] in
  getFields nested ["*"] = Ok [] /\
  getFields nested ["*"] <> Ok nested /\
  getFields deep ["!*"] = Ok deep /\
  getFields deep ["!*"] <> Ok (reservedEntries deep).
Proof.
  intros nested deep. repeat split; try reflexivity; discriminate.
Qed.

(** *** Rule compilation and precedence *)

Lemma find_app {A : Type} (p : A -> bool) (l1 l2 : list A) :
  find p (l1 ++ l2)
  = match find p l1 with Some x => Some x | None => find p l2 end.
Proof.
  induction l1 as [|x l1 IH]; [reflexivity|].
  simpl. destruct (p x); [reflexivity|exact IH].
Qed.

(** The first match in the reversed list is the last declared match. *)
Lemma matchingRule_rev (rules : list rule) (fullKey : string) :
  matchingRule (rev rules) fullKey = lastDeclared rules fullKey.
Proof.
  unfold matchingRule. induction rules as [|r rules IH]; [reflexivity|].
  cbn [rev lastDeclared]. rewrite find_app, IH.
  destruct (lastDeclared rules fullKey); [reflexivity|].
  cbn [find]. now destruct (test (pattern r) fullKey).
Qed.

Lemma included_rev (rules : list rule) (fullKey : string) :
  included (rev rules) fullKey = decides rules fullKey.
Proof. unfold included, decides. now rewrite matchingRule_rev. Qed.

Lemma lastDeclared_app (earlier later : list rule) (fullKey : string) :
  lastDeclared (earlier ++ later) fullKey
  = match lastDeclared later fullKey with
    | Some r => Some r
    | None => lastDeclared earlier fullKey
    end.
Proof.
  induction earlier as [|r earlier IH]; cbn [app lastDeclared].
  - now destruct (lastDeclared later fullKey).
  - rewrite IH. now destruct (lastDeclared later fullKey).
Qed.

Lemma lastDeclared_none (rules : list rule) (fullKey : string) :
  forallb (fun r => negb (test (pattern r) fullKey)) rules = true ->
  lastDeclared rules fullKey = None.
Proof.
  induction rules as [|r rules IH]; [reflexivity|].
  cbn [forallb lastDeclared]. intros H. apply andb_true_iff in H as [Hr H].
  rewrite (IH H). apply negb_true_iff in Hr. now rewrite Hr.
Qed.

Lemma globPattern_bang (g : string) :
  globPattern (String "!" g) = String "!" (globPattern g).
Proof. reflexivity. Qed.

(** The pattern of a glob, closed by the anchor, does not start with a
    quantifier. *)
Lemma globPattern_head (g : string) :
  match globPattern g +:+ "$" with
  | String c _ => Ascii.eqb c "+" = false /\ Ascii.eqb c "*" = false
  | EmptyString => False
  end.
Proof.
  destruct g as [|c g]; [now split|].
  unfold globPattern. cbn [escapeRegExp].
  destruct (is_special c) eqn:Hspecial.
  - now split.
  - destruct (Ascii.eqb "*" c) eqn:Hstar.
    + apply Ascii.eqb_eq in Hstar. subst c.
      destruct (escapeRegExp g) as [|d rest]; [now split|].
      cbn [replace_first strip_prefix].
      replace (Ascii.eqb "*" "*") with true by reflexivity.
      destruct (Ascii.eqb "*" d); now split.
    + cbn [replace_first strip_prefix]. rewrite Hstar.
      cbn [replace_first strip_prefix]. rewrite Hstar.
      cbn [String.append]. split.
      * destruct (Ascii.eqb c "+") eqn:Hplus; [|reflexivity].
        apply Ascii.eqb_eq in Hplus. subst c. discriminate Hspecial.
      * now rewrite Ascii.eqb_sym.
Qed.

Lemma parse_body_bang (r : string) :
  match r with
  | String c _ => Ascii.eqb c "+" = false /\ Ascii.eqb c "*" = false
  | EmptyString => False
  end ->
  parse_body (String "!" r)
  = (ps <- parse_body r ;; Ok ((ALit "!", QOne) :: ps)).
Proof.
  intros Hhead.
  change (parse_body (String "!" r))
    with (quantified parse_body (ALit "!") r).
  destruct r as [|c r]; [contradiction|]. destruct Hhead as [Hplus Hstar].
  unfold quantified. now rewrite Hplus, Hstar.
Qed.

(** A glob written after a literal [!] compiles when the glob does, to
    the pattern of the glob preceded by the character [!]. *)
Lemma globToRegExp_bang (g : string) :
  globToRegExp (String "!" g)
  = (re <- globToRegExp g ;;
     Ok {| pieces := (ALit "!", QOne) :: pieces re |}).
Proof.
  unfold globToRegExp. rewrite globPattern_bang.
  change ("^" +:+ String "!" (globPattern g) +:+ "$")
    with (String "^" (String "!" (globPattern g +:+ "$"))).
  change ("^" +:+ globPattern g +:+ "$")
    with (String "^" (globPattern g +:+ "$")).
  unfold compile. rewrite (parse_body_bang _ (globPattern_head g)).
  now destruct (parse_body (globPattern g +:+ "$")).
Qed.

Lemma test_bang (re : RegExp) (key : string) :
  test {| pieces := (ALit "!", QOne) :: pieces re |} key
  = match key with
    | String c key' => Ascii.eqb "!" c && test re key'
    | EmptyString => false
    end.
Proof. destruct key; reflexivity. Qed.

Lemma mapM_Forall2 {A B : Type} (f : A -> res B) (l : list A) (ys : list B) :
  mapM f l = Ok ys -> Forall2 (fun x y => f x = Ok y) l ys.
Proof.
  revert ys. induction l as [|x l IH]; intros ys H; simpl in H.
  - injection H as <-. constructor.
  - destruct (f x) as [y| |] eqn:Hx; simpl in H; try discriminate.
    destruct (mapM f l) as [ys'| |]; simpl in H; try discriminate.
    injection H as <-. constructor; [exact Hx|now apply IH].
Qed.

(** C3.  Compilation: each pattern compiles to its rule; a pattern that
    starts with [!] gives an excluding rule for the glob that follows the
    [!]; one that starts with a backslash and [!] gives an including rule
    whose pattern accepts the key paths made of a literal [!] followed by
    a match of the glob that follows; any other pattern gives an including
    rule for the whole pattern.  Evaluation: the first match in the
    reversed list of the compiled rules is the last declared rule that
    matches the key path, so that a rule that matches hides every rule
    declared before it, and decides unless a rule declared after it
    matches as well.  The projection of an object whose keys are pairwise
    different at every depth keeps exactly the scalars at whose dotted key
    path the last declared matching rule is an inclusion, under the same
    key paths and in the same order (what lies under a reserved key or
    under the key [__proto__] is not counted), and it keeps the entries
    of the object under the reserved keys. *)
Theorem rules_last_declared_wins (o : object) (patterns : list string)
  (rules : list rule) :
  wfObject o = true ->
  processFieldRules patterns = Ok rules ->
  Forall2 (fun p r => processFieldRule p = Ok r) patterns rules /\
  (forall g r,
     processFieldRule (String "!" g) = Ok r ->
     include r = false /\ globToRegExp g = Ok (pattern r)) /\
  (forall g r,
     processFieldRule (String "\" (String "!" g)) = Ok r ->
     include r = true /\
     exists re,
       globToRegExp g = Ok re /\
       forall key,
         test (pattern r) key
         = match key with
           | String c key' => Ascii.eqb "!" c && test re key'
           | EmptyString => false
           end) /\
  (forall p r,
     startsWith p "!" = false -> startsWith p "\!" = false ->
     processFieldRule p = Ok r ->
     include r = true /\ globToRegExp p = Ok (pattern r)) /\
  (forall fullKey,
     matchingRule (rev rules) fullKey = lastDeclared rules fullKey) /\
  (forall earlier r later fullKey,
     rules = earlier ++ r :: later ->
     test (pattern r) fullKey = true ->
     lastDeclared rules fullKey = lastDeclared (r :: later) fullKey /\
     (forallb (fun r' => negb (test (pattern r') fullKey)) later = true ->
      lastDeclared rules fullKey = Some r)) /\
  exists result,
    getFields o patterns = Ok result /\
    objectLeaves "" result
    = List.filter (fun pv => decides rules (fst pv)) (objectLeaves "" o) /\
    (forall k v, (k, v) ∈ o -> is_reserved k = true -> (k, v) ∈ result).
Proof.
  intros Hwf Hrules.
  split; [now apply mapM_Forall2|].
  split.
  { intros g r.
    change (processFieldRule (String "!" g))
      with (re <- globToRegExp g ;; Ok {| include := false; pattern := re |}).
    destruct (globToRegExp g) as [re| |]; cbn [bind]; try discriminate.
    now intros [= <-]. }
  split.
  { intros g r.
    change (processFieldRule (String "\" (String "!" g)))
      with (re' <- globToRegExp (String "!" g) ;;
            Ok {| include := true; pattern := re' |}).
    rewrite globToRegExp_bang.
    destruct (globToRegExp g) as [re| |]; cbn [bind]; try discriminate.
    intros [= <-]. split; [reflexivity|].
    exists re. split; [reflexivity|]. intros key. apply test_bang. }
  split.
  { intros p r H1 H2. unfold processFieldRule. rewrite H1, H2.
    destruct (globToRegExp p) as [re| |]; cbn [bind]; try discriminate.
    now intros [= <-]. }
  split; [intros fullKey; apply matchingRule_rev|].
  split.
  { intros earlier r later fullKey -> Hr.
    assert (Hlater : exists r', lastDeclared (r :: later) fullKey = Some r').
    { cbn [lastDeclared]. destruct (lastDeclared later fullKey) as [r'|];
        [now exists r'|]. rewrite Hr. now exists r. }
    destruct Hlater as [r' Hr']. split.
    - rewrite lastDeclared_app. now rewrite Hr'.
    - intros Hnone. rewrite lastDeclared_app. cbn [lastDeclared].
      now rewrite (lastDeclared_none _ _ Hnone), Hr. }
  exists (applyFieldRules o (rev rules) "").
  split; [unfold getFields; now rewrite Hrules|].
  destruct (wf_entries _ Hwf) as [Hnd Hall].
  split.
  - rewrite applyFieldRules_omap by exact Hnd.
    rewrite objectLeaves_projection.
    + apply List.filter_ext. intros pv. apply included_rev.
    + eapply Forall_impl; [exact Hall|].
      intros kv Hkv fullKey. now apply getToInclude_leaves.
  - intros k v Hin Hres. unfold applyFieldRules.
    apply applyEntries_reserved; try assumption.
    intros k' _. unfold keys. simpl. apply not_elem_of_nil.
Qed.

(** The length of the enclosure is included by [**] and excluded by the
    later pattern; the keys of one segment are excluded by the pattern
    that follows, and two of them are included again by the last two
    patterns, of which the last is written with an escaped [!] and matches
    the key [!draft] only. *)
Lemma rules_last_declared_wins_witness :
  let o :=
    [ ("title", VStr "Episode one");
      ("enclosure", VObj [("$", VObj [("url", VStr "a.mp3")]);
                          ("length", VNum 12);
                          ("type", VStr "audio/mpeg")]);
      ("draft", VBool true);
      ("!draft", VBool false) ] in
  let patterns := ["!title"; "**"; "!enclosure.length"; "!*"; "title"; "\!draft"] in
  exists result,
    getFields o patterns = Ok result /\
    result
    = [ ("title", VStr "Episode one");
        ("enclosure", VObj [("$", VObj [("url", VStr "a.mp3")]);
                            ("type", VStr "audio/mpeg")]);
        ("!draft", VBool false) ] /\
    objectLeaves "" result
    = [ ("title", VStr "Episode one");
        ("enclosure.type", VStr "audio/mpeg");
        ("!draft", VBool false) ].
Proof.
  intros o patterns.
  destruct (rules_last_declared_wins o patterns _ eq_refl eq_refl)
    as (_ & _ & _ & _ & _ & _ & result & Hget & Hleaves & _).
  exists result. split; [exact Hget|]. split.
  - assert (Hrun : getFields o patterns
      = Ok [ ("title", VStr "Episode one");
             ("enclosure", VObj [("$", VObj [("url", VStr "a.mp3")]);
                                 ("type", VStr "audio/mpeg")]);
             ("!draft", VBool false) ]) by (vm_compute; reflexivity).
    rewrite Hrun in Hget. now injection Hget.
  - rewrite Hleaves. vm_compute. reflexivity.
Defined.

End FieldsProps.

(** ** The entry selector *)

Module SelectorProps.

Import Fields Archive Dayjs Selector.

(** *** The loop and its controls *)

Section Loop.

Context {S : Type}.
Variable body : Z -> S -> res S.

Lemma while_forward (offset length : Z) (fuel : nat) (i : Z) (s : S) :
  (Z.to_nat (length - i) <= fuel)%nat ->
  while fuel (getLoopControls offset length false) body i s
  = foldM body (seqZ i (length - i)) s.
Proof.
  revert i s. induction fuel as [|fuel IH]; intros i s Hfuel.
  - assert (Hle : length - i <= 0) by lia.
    rewrite (seqZ_nil _ _ Hle). simpl.
    replace (i <? length) with false by (symmetry; apply Z.ltb_ge; lia).
    reflexivity.
  - simpl. destruct (i <? length) eqn:Hgo.
    + apply Z.ltb_lt in Hgo.
      rewrite seqZ_cons by lia. simpl.
      destruct (body i s) as [s'| |]; simpl; try reflexivity.
      rewrite IH by lia. f_equal. f_equal; lia.
    + apply Z.ltb_ge in Hgo.
      assert (Hle : length - i <= 0) by lia.
      now rewrite (seqZ_nil _ _ Hle).
Qed.

Lemma rev_seqZ_succ (i : Z) :
  0 <= i -> rev (seqZ 0 (i + 1)) = i :: rev (seqZ 0 i).
Proof.
  intros Hi. rewrite seqZ_app by lia. rewrite rev_app_distr.
  rewrite Z.add_0_l. reflexivity.
Qed.

Lemma while_reverse (offset length : Z) (fuel : nat) (i : Z) (s : S) :
  (Z.to_nat (i + 1) <= fuel)%nat ->
  while fuel (getLoopControls offset length true) body i s
  = foldM body (rev (seqZ 0 (i + 1))) s.
Proof.
  revert i s. induction fuel as [|fuel IH]; intros i s Hfuel.
  - assert (Hle : i + 1 <= 0) by lia.
    rewrite (seqZ_nil _ _ Hle). simpl.
    replace (-1 <? i) with false by (symmetry; apply Z.ltb_ge; lia).
    reflexivity.
  - simpl. destruct (-1 <? i) eqn:Hgo.
    + apply Z.ltb_lt in Hgo.
      rewrite rev_seqZ_succ by lia. simpl.
      destruct (body i s) as [s'| |]; simpl; try reflexivity.
      rewrite IH by lia. f_equal. f_equal. f_equal; lia.
    + apply Z.ltb_ge in Hgo.
      assert (Hle : i + 1 <= 0) by lia.
      now rewrite (seqZ_nil _ _ Hle).
Qed.

(** With at least [length] unrollings the loop of [getItemsToDownload]
    runs its body on the indices of the direction rule, in that order. *)
Lemma while_direction (offset : Z) (length : nat) (reverse : bool)
  (fuel : nat) (s : S) :
  0 <= offset ->
  (length <= fuel)%nat ->
  let ctl := getLoopControls offset (Z.of_nat length) reverse in
  while fuel ctl body (startIndex ctl) s
  = foldM body (directionIndices offset length reverse) s.
Proof.
  intros Hoff Hfuel ctl. subst ctl. unfold directionIndices.
  destruct reverse.
  - rewrite while_reverse by (simpl; lia). simpl.
    do 3 f_equal. lia.
  - rewrite while_forward by (simpl; lia). simpl.
    reflexivity.
Qed.

End Loop.

Lemma foldM_record (indices seen : list Z) :
  foldM (fun i seen => Ok (seen ++ [i])) indices seen = Ok (seen ++ indices).
Proof.
  revert seen. induction indices as [|i indices IH]; intros seen; simpl.
  - now rewrite app_nil_r.
  - rewrite IH. now rewrite <- app_assoc.
Qed.

Lemma visited_direction (offset : Z) (length : nat) (reverse : bool)
  (fuel : nat) :
  0 <= offset ->
  (length <= fuel)%nat ->
  visited fuel (getLoopControls offset (Z.of_nat length) reverse)
  = Ok (directionIndices offset length reverse).
Proof.
  intros Hoff Hfuel. unfold visited.
  rewrite while_direction by assumption.
  now rewrite foldM_record.
Qed.

(** *** Generic facts on [mapM] and on stores *)

Lemma mapM_app {A B : Type} (f : A -> res B) (l1 l2 : list A)
  (ys1 ys2 : list B) :
  mapM f l1 = Ok ys1 -> mapM f l2 = Ok ys2 ->
  mapM f (l1 ++ l2) = Ok (ys1 ++ ys2).
Proof.
  revert ys1. induction l1 as [|x l1 IH]; intros ys1 H1 H2; simpl in *.
  - injection H1 as <-. exact H2.
  - destruct (f x) as [y| |]; simpl in *; try discriminate.
    destruct (mapM f l1) as [ys| |]; simpl in *; try discriminate.
    injection H1 as <-. now rewrite (IH ys eq_refl H2).
Qed.

Lemma mapM_rev {A B : Type} (f : A -> res B) (l : list A) (ys : list B) :
  mapM f l = Ok ys -> mapM f (rev l) = Ok (rev ys).
Proof.
  revert ys. induction l as [|x l IH]; intros ys H; simpl in *.
  - injection H as <-. reflexivity.
  - destruct (f x) as [y| |] eqn:Hx; simpl in *; try discriminate.
    destruct (mapM f l) as [ys'| |]; simpl in *; try discriminate.
    injection H as <-. simpl.
    apply mapM_app; [now apply IH|]. simpl. now rewrite Hx.
Qed.

Lemma mapM_elem {A B : Type} (f : A -> res B) (l : list A) (ys : list B)
  (x : A) (y : B) :
  mapM f l = Ok ys -> x ∈ l -> f x = Ok y -> y ∈ ys.
Proof.
  revert ys. induction l as [|a l IH]; intros ys H Hin Hx; simpl in *.
  - inversion Hin.
  - destruct (f a) as [b| |] eqn:Ha; simpl in *; try discriminate.
    destruct (mapM f l) as [ys'| |]; simpl in *; try discriminate.
    injection H as <-.
    apply elem_of_cons in Hin as [->|Hin].
    + rewrite Hx in Ha. injection Ha as <-. left.
    + right. now apply (IH ys').
Qed.

Lemma mapM_NoDup {A B : Type} (f : A -> res B) (l : list A) (ys : list B) :
  mapM f l = Ok ys -> NoDup ys -> NoDup l.
Proof.
  revert ys. induction l as [|a l IH]; intros ys H Hnd; simpl in *.
  - constructor.
  - destruct (f a) as [b| |] eqn:Ha; simpl in *; try discriminate.
    destruct (mapM f l) as [ys'| |] eqn:Hl; simpl in *; try discriminate.
    injection H as <-. apply NoDup_cons in Hnd as [Hb Hnd].
    constructor.
    + intros Hin. apply Hb. exact (mapM_elem f l ys' a b Hl Hin Ha).
    + now apply (IH ys').
Qed.

Lemma NoDup_List_filter {A : Type} (p : A -> bool) (l : list A) :
  NoDup l -> NoDup (List.filter p l).
Proof. rewrite !NoDup_ListNoDup. apply List.NoDup_filter. Qed.

Lemma omap_rev {A B : Type} (f : A -> option B) (l : list A) :
  omap f (rev l) = rev (omap f l).
Proof.
  induction l as [|x l IH]; simpl.
  - reflexivity.
  - rewrite omap_app, IH. simpl. destruct (f x); simpl.
    + reflexivity.
    + now rewrite app_nil_r.
Qed.

Lemma omap_id_fst (us : list (option (loc * Item))) :
  (omap id us).*1 = omap (fmap fst) us.
Proof.
  induction us as [|u us IH]; [reflexivity|].
  destruct u as [[l item]|].
  - change (l :: (omap id us).*1 = l :: omap (fmap fst) us).
    f_equal. exact IH.
  - exact IH.
Qed.

(** The store after the commits is the initial store overwritten, in the
    order of the commits, with the annotated items. *)
Lemma fold_commit_snd (us : list (option (loc * Item))) (items : list loc)
  (st : store) :
  snd (fold_left commit us (items, st))
  = (list_to_map (rev (omap id us)) : store) ∪ st.
Proof.
  revert items st. induction us as [|u us IH]; intros items st.
  - simpl. now rewrite (left_id_L ∅ (∪)).
  - cbn [fold_left]. destruct u as [[l item]|].
    + cbn [commit fst snd]. rewrite IH. cbn [omap list_omap id rev].
      rewrite list_to_map_app. cbn [list_to_map foldr fst snd].
      rewrite <- (assoc_L (∪)). f_equal.
      rewrite insert_union_singleton_l.
      now rewrite insert_empty.
    + cbn [commit]. rewrite IH. reflexivity.
Qed.

Lemma fold_commit_rev (us : list (option (loc * Item))) (items : list loc)
  (st : store) :
  NoDup (omap (fmap fst) us) ->
  snd (fold_left commit (rev us) (items, st))
  = snd (fold_left commit us (items, st)).
Proof.
  intros Hnd. rewrite !fold_commit_snd. f_equal.
  rewrite omap_rev, rev_involutive.
  apply list_to_map_proper.
  - now rewrite omap_id_fst.
  - first [ apply Permutation_rev | apply Permutation_sym, Permutation_rev ].
Qed.

Lemma entriesAt_seq (pre its : list loc) :
  entriesAt (pre ++ its)
    (seqZ (Z.of_nat (length pre)) (Z.of_nat (length its))) = its.
Proof.
  revert pre. induction its as [|a its IH]; intros pre.
  - reflexivity.
  - rewrite seqZ_cons by (simpl; lia). unfold entriesAt.
    cbn [omap list_omap].
    replace (Z.of_nat (length pre) <? 0) with false
      by (symmetry; apply Z.ltb_ge; lia).
    rewrite Nat2Z.id, list_lookup_middle by reflexivity.
    f_equal. specialize (IH (pre ++ [a])).
    rewrite <- app_assoc in IH. simpl in IH.
    rewrite length_app in IH. simpl in IH.
    replace (Z.succ (Z.of_nat (length pre)))
      with (Z.of_nat (length pre + 1)) by lia.
    replace (Z.pred (Z.of_nat (length (a :: its))))
      with (Z.of_nat (length its)) by (simpl; lia).
    exact IH.
Qed.

Lemma entriesAt_all (its : list loc) :
  entriesAt its (seqZ 0 (Z.of_nat (length its))) = its.
Proof. exact (entriesAt_seq [] its). Qed.

(** *** The selection on an arbitrary platform *)

Section Selection.

Context {content : Type}.
Variable JSON_parse : content -> option value.
Variable path_resolve_cwd : string -> string.
Variable path_resolve3 : string -> string -> string -> string.
Variable path_extname : string -> string.
Variable URL_pathname : string -> option string.
Variable Date_parse : string -> option Z.
Variable utcOffset : Z.
Variable RegExp_new : string -> res (string -> bool).
Variable getArchiveFilename :
  option string -> option string -> option Ext -> string.
Variable getFilename :
  Item -> Feed -> option string -> string -> option string -> string.

Abbreviation verdict :=
  (Selector.verdict path_extname URL_pathname Date_parse utcOffset RegExp_new
     getArchiveFilename).
Abbreviation extraDownloads :=
  (Selector.extraDownloads path_resolve3 path_extname URL_pathname
     getArchiveFilename getFilename).
Abbreviation loopBody :=
  (Selector.loopBody path_resolve3 path_extname URL_pathname Date_parse
     utcOffset RegExp_new getArchiveFilename getFilename).
Abbreviation turn :=
  (Selector.turn path_resolve3 path_extname URL_pathname Date_parse
     utcOffset RegExp_new getArchiveFilename getFilename).
Abbreviation passes :=
  (Selector.passes path_extname URL_pathname Date_parse utcOffset RegExp_new
     getArchiveFilename).
Abbreviation loadArchive :=
  (Selector.loadArchive JSON_parse path_resolve_cwd).
Abbreviation getItemsToDownload :=
  (Selector.getItemsToDownload JSON_parse path_resolve_cwd path_resolve3
     path_extname URL_pathname Date_parse utcOffset RegExp_new
     getArchiveFilename getFilename).
Abbreviation feedKeys :=
  (Selector.feedKeys path_extname URL_pathname getArchiveFilename).
Abbreviation main :=
  (Cli.main JSON_parse path_resolve_cwd path_resolve3 path_extname
     URL_pathname Date_parse utcOffset RegExp_new getArchiveFilename
     getFilename).

(** The verdict reads neither of the two annotations. *)
Lemma verdict_erase (o : Options) (sa : value) (it it' : Item) :
  erase it = erase it' -> verdict o sa it = verdict o sa it'.
Proof.
  intros H. destruct it, it'. unfold erase in H. simpl in H.
  injection H as -> -> -> -> -> -> ->. reflexivity.
Qed.

Lemma annotate_erase (it it' : Item) (i : Z) (extra : list ExtraDownload) :
  erase it = erase it' -> annotate it i extra = annotate it' i extra.
Proof.
  intros H. destruct it, it'. unfold erase in H. simpl in H.
  injection H as -> -> -> -> -> -> ->. reflexivity.
Qed.

Lemma erase_annotate (it : Item) (i : Z) (extra : list ExtraDownload) :
  erase (annotate it i extra) = erase it.
Proof. reflexivity. Qed.

Lemma similar_refl (st : store) : similar st st.
Proof. intros l. reflexivity. Qed.

Lemma similar_deref (st st0 : store) (l : loc) :
  similar st st0 ->
  match deref st0 l with
  | Ok it0 => exists it, deref st l = Ok it /\ erase it = erase it0
  | Throw e => deref st l = Throw e
  | OutOfFuel => False
  end.
Proof.
  intros Hsim. specialize (Hsim l). unfold deref.
  destruct (st0 !! l) as [it0|], (st !! l) as [it|];
    simpl in Hsim; try discriminate.
  - exists it. split; [reflexivity|congruence].
  - reflexivity.
Qed.

Lemma similar_commit (st st0 : store) (items : list loc) (l : loc)
  (it0 : Item) (i : Z) (extra : list ExtraDownload) :
  similar st st0 -> st0 !! l = Some it0 ->
  similar (snd (commit (items, st) (Some (l, annotate it0 i extra)))) st0.
Proof.
  intros Hsim Hl l'. simpl.
  destruct (decide (l = l')) as [<-|Hne].
  - rewrite lookup_insert_eq, Hl. reflexivity.
  - rewrite lookup_insert_ne by assumption. apply Hsim.
Qed.

(** One turn of the loop, on a store that differs from the initial one in
    the annotations only, is the turn computed on the initial store. *)
Lemma loopBody_turn (o : Options) (its : list loc) (sa : value)
  (st st0 : store) (i : Z) (items : list loc) :
  similar st st0 ->
  loopBody o its sa i (items, st)
  = (u <- turn o its sa st0 i ;; Ok (commit (items, st) u)).
Proof.
  intros Hsim. unfold Selector.loopBody, Selector.turn.
  destruct (item_at its i) as [l| |]; simpl; try reflexivity.
  pose proof (similar_deref st st0 l Hsim) as Hd.
  destruct (deref st0 l) as [it0|e|]; [|now rewrite Hd|contradiction].
  destruct Hd as (it & -> & Her). simpl.
  rewrite (verdict_erase o sa it it0 Her).
  destruct (verdict o sa it0) as [[isValid url]| |]; simpl; try reflexivity.
  destruct isValid; [|reflexivity].
  rewrite (annotate_erase it it0 i [] Her).
  destruct (extraDownloads o (annotate it0 i []) url) as [extra| |];
    simpl; try reflexivity.
  now rewrite (annotate_erase it it0 i extra Her).
Qed.

Lemma turn_similar (o : Options) (its : list loc) (sa : value)
  (st st0 : store) (i : Z) (items : list loc) (u : option (loc * Item)) :
  similar st st0 -> turn o its sa st0 i = Ok u ->
  similar (snd (commit (items, st) u)) st0.
Proof.
  intros Hsim Hturn. unfold Selector.turn in Hturn.
  destruct (item_at its i) as [l| |]; simpl in Hturn; try discriminate.
  unfold deref in Hturn. destruct (st0 !! l) as [it0|] eqn:Hl;
    simpl in Hturn; try discriminate.
  destruct (verdict o sa it0) as [[isValid url]| |];
    simpl in Hturn; try discriminate.
  destruct isValid.
  - destruct (extraDownloads o (annotate it0 i []) url) as [extra| |];
      simpl in Hturn; try discriminate.
    injection Hturn as <-. now apply similar_commit.
  - injection Hturn as <-. exact Hsim.
Qed.

(** The whole loop is the sequence of the turns computed on the initial
    store, committed in the order of the visits. *)
Lemma foldM_turns (o : Options) (its : list loc) (sa : value) (st0 : store)
  (indices : list Z) (items : list loc) (st : store) :
  similar st st0 ->
  foldM (loopBody o its sa) indices (items, st)
  = (us <- mapM (turn o its sa st0) indices ;;
     Ok (fold_left commit us (items, st))).
Proof.
  revert items st. induction indices as [|i indices IH];
    intros items st Hsim; cbn [foldM mapM].
  - reflexivity.
  - rewrite (loopBody_turn o its sa st st0 i items Hsim).
    destruct (turn o its sa st0 i) as [u| |] eqn:Hturn; cbn [bind];
      try reflexivity.
    pose proof (turn_similar o its sa st st0 i items u Hsim Hturn) as Hsim'.
    destruct (commit (items, st) u) as [items' st'] eqn:Hc.
    cbn [snd] in Hsim'.
    rewrite (IH items' st' Hsim').
    destruct (mapM (turn o its sa st0) indices) as [us| |]; cbn [bind];
      try reflexivity.
    cbn [fold_left]. now rewrite Hc.
Qed.

Lemma fold_commit_fst (us : list (option (loc * Item))) (items : list loc)
  (st : store) :
  fst (fold_left commit us (items, st)) = items ++ omap (fmap fst) us.
Proof.
  revert items st. induction us as [|u us IH]; intros items st; simpl.
  - now rewrite app_nil_r.
  - destruct u as [[l item]|]; simpl.
    + rewrite IH. now rewrite <- app_assoc.
    + apply IH.
Qed.

(** The entries committed by the turns are the visited entries that pass
    the predicates, in the order of the visits. *)
Lemma turns_filter (o : Options) (its : list loc) (sa : value) (st0 : store)
  (indices : list Z) (us : list (option (loc * Item))) :
  mapM (turn o its sa st0) indices = Ok us ->
  omap (fmap fst) us
  = List.filter (passes o sa st0) (entriesAt its indices).
Proof.
  revert us. induction indices as [|i indices IH]; intros us H;
    cbn [mapM] in H.
  - injection H as <-. reflexivity.
  - destruct (turn o its sa st0 i) as [u| |] eqn:Hturn;
      cbn [bind] in H; try discriminate.
    destruct (mapM (turn o its sa st0) indices) as [us'| |];
      cbn [bind] in H; try discriminate.
    injection H as <-. specialize (IH us' eq_refl).
    unfold Selector.turn, item_at in Hturn.
    unfold entriesAt. cbn [omap list_omap].
    destruct (i <? 0); [discriminate|].
    destruct (its !! Z.to_nat i) as [l|]; [|discriminate].
    cbn [bind] in Hturn. unfold deref in Hturn.
    cbn [List.filter]. unfold Selector.passes at 1.
    destruct (st0 !! l) as [it|]; [|discriminate].
    cbn [bind] in Hturn.
    destruct (verdict o sa it) as [[isValid url]| |];
      cbn [bind] in Hturn; try discriminate.
    destruct isValid.
    + destruct (extraDownloads o (annotate it i []) url) as [extra| |];
        cbn [bind] in Hturn; try discriminate.
      injection Hturn as <-. cbn [fmap option_fmap option_map fst].
      f_equal. exact IH.
    + injection Hturn as <-. exact IH.
Qed.

Lemma directionIndices_length (offset : Z) (length : nat) (reverse : bool) :
  List.length (directionIndices offset length reverse)
  = Z.to_nat (Z.of_nat length - offset).
Proof.
  unfold directionIndices. destruct reverse.
  - rewrite length_rev. apply length_seqZ.
  - apply length_seqZ.
Qed.

Lemma directionIndices_lookup (offset : Z) (length : nat) (reverse : bool)
  (k : nat) :
  (k < Z.to_nat (Z.of_nat length - offset))%nat ->
  directionIndices offset length reverse !! k
  = Some (if reverse then Z.of_nat length - 1 - offset - Z.of_nat k
          else offset + Z.of_nat k).
Proof.
  intros Hk. unfold directionIndices. destruct reverse.
  - rewrite rev_alt.
    change (rev_append ?l []) with (list.reverse l).
    rewrite reverse_lookup by (rewrite length_seqZ; lia).
    rewrite length_seqZ. rewrite lookup_seqZ_lt by lia. f_equal. lia.
  - rewrite lookup_seqZ_lt by lia. reflexivity.
Qed.

Lemma getItemsToDownload_fold (fuel : nat) (fs : gmap string content)
  (st : store) (o : Options) (its : list loc) :
  feed_items (feed o) = Some its ->
  0 <= offset o ->
  (length its <= fuel)%nat ->
  getItemsToDownload fuel fs st o
  = (sa <- loadArchive fs (archive o) ;;
     us <- mapM (turn o its sa st)
             (directionIndices (offset o) (length its) (reverse o)) ;;
     let final := fold_left commit us ([], st) in
     Ok (applyLimit (limit o) (fst final), snd final)).
Proof.
  intros Hits Hoff Hfuel. unfold Selector.getItemsToDownload, feedItems.
  rewrite Hits. cbn [bind].
  destruct (loadArchive fs (archive o)) as [sa| |]; cbn [bind];
    try reflexivity.
  rewrite while_direction by assumption.
  rewrite (foldM_turns o its sa st _ [] st (similar_refl st)).
  destruct (mapM _ _) as [us| |]; cbn [bind]; try reflexivity.
  now destruct (fold_left commit us ([], st)).
Qed.

Lemma directionIndices_range (offset : Z) (length : nat) (reverse : bool)
  (i : Z) :
  0 <= offset ->
  i ∈ directionIndices offset length reverse ->
  0 <= i < Z.of_nat length.
Proof.
  intros Hoff. unfold directionIndices. destruct reverse.
  - rewrite list_elem_of_In, <- in_rev, <- list_elem_of_In, elem_of_seqZ. lia.
  - rewrite elem_of_seqZ. lia.
Qed.

Lemma item_at_in_range (its : list loc) (i : Z) :
  0 <= i < Z.of_nat (length its) ->
  exists l, item_at its i = Ok l /\ l ∈ its.
Proof.
  intros Hi. unfold item_at.
  replace (i <? 0) with false by (symmetry; apply Z.ltb_ge; lia).
  destruct (its !! Z.to_nat i) as [l|] eqn:Hl.
  - exists l. split; [reflexivity|]. eapply list_elem_of_lookup_2, Hl.
  - apply lookup_ge_None in Hl. lia.
Qed.

Lemma entriesAt_in_range (its : list loc) (indices : list Z) :
  (forall i, i ∈ indices -> 0 <= i < Z.of_nat (length its)) ->
  Forall (fun l => l ∈ its) (entriesAt its indices).
Proof.
  induction indices as [|i indices IH]; intros Hall; unfold entriesAt;
    cbn [omap list_omap].
  - constructor.
  - destruct (i <? 0); [apply IH; intros j Hj; apply Hall; now right|].
    destruct (its !! Z.to_nat i) as [l|] eqn:Hl.
    + constructor.
      * eapply list_elem_of_lookup_2, Hl.
      * apply IH. intros j Hj. apply Hall. now right.
    + apply IH. intros j Hj. apply Hall. now right.
Qed.

Lemma filter_all (A : Type) (p : A -> bool) (l : list A) :
  Forall (fun x => p x = true) l -> List.filter p l = l.
Proof.
  induction 1 as [|x l Hx _ IH]; simpl.
  - reflexivity.
  - now rewrite Hx, IH.
Qed.

(** A turn on an entry that passes, when no image is requested. *)
Lemma turn_passes (o : Options) (its : list loc) (sa : value) (st : store)
  (i : Z) (l : loc) :
  includeEpisodeImages o = false ->
  item_at its i = Ok l ->
  passes o sa st l = true ->
  exists item, turn o its sa st i = Ok (Some (l, item)).
Proof.
  intros Himg Hl Hpass. unfold Selector.turn. rewrite Hl. cbn [bind].
  unfold Selector.passes in Hpass. unfold deref.
  destruct (st !! l) as [it|]; [|discriminate]. cbn [bind].
  destruct (verdict o sa it) as [[isValid url]| |]; try discriminate.
  subst isValid. cbn [bind].
  unfold Selector.extraDownloads. rewrite Himg. cbn [bind].
  now eexists.
Qed.

Lemma mapM_total {A B : Type} (f : A -> res B) (l : list A) :
  (forall x, x ∈ l -> exists y, f x = Ok y) ->
  exists ys, mapM f l = Ok ys.
Proof.
  induction l as [|x l IH]; intros Hall; simpl.
  - now eexists.
  - destruct (Hall x) as [y Hy]; [left|].
    destruct IH as [ys Hys]; [intros z Hz; apply Hall; now right|].
    rewrite Hy, Hys. simpl. now eexists.
Qed.

(** When every entry of the feed passes and no image is requested, the
    selection returns the visited entries, cut by the limit. *)
Lemma getItemsToDownload_all_pass (fuel : nat) (fs : gmap string content)
  (st : store) (o : Options) (its : list loc) (sa : value) :
  feed_items (feed o) = Some its ->
  0 <= offset o ->
  (length its <= fuel)%nat ->
  loadArchive fs (archive o) = Ok sa ->
  includeEpisodeImages o = false ->
  forallb (passes o sa st) its = true ->
  exists st',
    getItemsToDownload fuel fs st o
    = Ok (applyLimit (limit o)
            (entriesAt its
               (directionIndices (offset o) (length its) (reverse o))),
          st').
Proof.
  intros Hits Hoff Hfuel Hsa Himg Hall.
  rewrite forallb_forall in Hall.
  set (indices := directionIndices (offset o) (length its) (reverse o)).
  assert (Hrange : forall i, i ∈ indices -> 0 <= i < Z.of_nat (length its))
    by (intros i Hi; now apply (directionIndices_range _ _ _ _ Hoff Hi)).
  destruct (mapM_total (turn o its sa st) indices) as [us Hus].
  { intros i Hi.
    destruct (item_at_in_range its i (Hrange i Hi)) as (l & Hl & Hin).
    destruct (turn_passes o its sa st i l Himg Hl) as [item Hitem].
    - apply Hall. now apply list_elem_of_In.
    - eexists. exact Hitem. }
  rewrite (getItemsToDownload_fold fuel fs st o its Hits Hoff Hfuel).
  rewrite Hsa. cbn [bind]. fold indices. rewrite Hus. cbn [bind].
  exists (snd (fold_left commit us ([], st))).
  rewrite fold_commit_fst. cbn [app].
  rewrite (turns_filter o its sa st indices us Hus).
  rewrite filter_all; [reflexivity|].
  eapply Forall_impl; [apply entriesAt_in_range, Hrange|].
  intros l Hl. apply Hall. now apply list_elem_of_In.
Qed.

(** What the selection returns is the list of the visited entries that
    pass the predicates, cut by the limit. *)
Lemma getItemsToDownload_filter (fuel : nat) (fs : gmap string content)
  (st : store) (o : Options) (its : list loc) (sa : value)
  (selected : list loc) (st' : store) :
  feed_items (feed o) = Some its ->
  0 <= offset o ->
  (length its <= fuel)%nat ->
  loadArchive fs (archive o) = Ok sa ->
  getItemsToDownload fuel fs st o = Ok (selected, st') ->
  selected
  = applyLimit (limit o)
      (List.filter (passes o sa st)
         (entriesAt its
            (directionIndices (offset o) (length its) (reverse o)))).
Proof.
  intros Hits Hoff Hfuel Hsa Hsel.
  rewrite (getItemsToDownload_fold fuel fs st o its Hits Hoff Hfuel) in Hsel.
  rewrite Hsa in Hsel. cbn [bind] in Hsel.
  destruct (mapM (turn o its sa st) _) as [us| |] eqn:Hus;
    cbn [bind] in Hsel; try discriminate.
  injection Hsel as <- <-.
  rewrite fold_commit_fst. cbn [app].
  now rewrite (turns_filter o its sa st _ us Hus).
Qed.

(** C1: for a feed of [L] items and an offset that is not negative, the
    loop visits the indices [offset, offset+1, ..., L-1] when [reverse] is
    unset and [L-1-offset, L-2-offset, ..., 0] when it is set, in that
    order; the selection is the run of the loop body over exactly these
    indices, and what it returns is the list of the visited entries that
    pass all the predicates, in the order of the visits (cut by the limit
    when there is one). *)
Theorem selection_visits_direction_indices (fuel : nat)
  (fs : gmap string content) (st : store) (o : Options) (its : list loc) :
  feed_items (feed o) = Some its ->
  0 <= offset o ->
  (length its <= fuel)%nat ->
  let L := Z.of_nat (length its) in
  let indices := directionIndices (offset o) (length its) (reverse o) in
  visited fuel (getLoopControls (offset o) L (reverse o)) = Ok indices /\
  List.length indices = Z.to_nat (L - offset o) /\
  (forall k : nat, (k < Z.to_nat (L - offset o))%nat ->
     indices !! k
     = Some (if reverse o then L - 1 - offset o - Z.of_nat k
             else offset o + Z.of_nat k)) /\
  getItemsToDownload fuel fs st o
  = (sa <- loadArchive fs (archive o) ;;
     final <- foldM (loopBody o its sa) indices ([], st) ;;
     Ok (applyLimit (limit o) (fst final), snd final)) /\
  (forall sa selected st',
     loadArchive fs (archive o) = Ok sa ->
     getItemsToDownload fuel fs st o = Ok (selected, st') ->
     selected
     = applyLimit (limit o)
         (List.filter (passes o sa st) (entriesAt its indices))).
Proof.
  intros Hits Hoff Hfuel L indices.
  split; [now apply visited_direction|].
  split; [apply directionIndices_length|].
  split; [intros k Hk; now apply directionIndices_lookup|].
  split.
  - unfold Selector.getItemsToDownload, feedItems.
    rewrite Hits. cbn [bind].
    destruct (loadArchive fs (archive o)) as [sa| |]; cbn [bind];
      try reflexivity.
    rewrite while_direction by assumption. fold indices.
    destruct (foldM _ _ _) as [[items st']| |]; reflexivity.
  - intros sa selected st' Hsa Hsel.
    exact (getItemsToDownload_filter fuel fs st o its sa selected st'
             Hits Hoff Hfuel Hsa Hsel).
Qed.

Lemma applyLimit_set (n : Z) (items : list loc) :
  1 <= n -> applyLimit (Some n) items = firstn (Z.to_nat n) items.
Proof.
  intros Hn. unfold applyLimit, truthyLimit, slice0. simpl.
  replace (n =? 0) with false by (symmetry; apply Z.eqb_neq; lia).
  replace (0 <=? n) with true by (symmetry; apply Z.leb_le; lia).
  reflexivity.
Qed.

(** C4: with a limit set, the selection is the selection without the
    limit cut to its first [limit] entries, so the limit bounds the
    matching entries; on a feed of ten entries that all pass, with limit 3,
    offset 2 and [reverse] unset, the entries at the indices 2, 3 and 4 are
    returned in that order. *)
Theorem limit_truncates_after_filtering (fuel : nat)
  (fs : gmap string content) (st : store) (o : Options) (its : list loc)
  (sa : value) (n : Z) :
  limit o = Some n ->
  1 <= n ->
  feed_items (feed o) = Some its ->
  0 <= offset o ->
  (length its <= fuel)%nat ->
  loadArchive fs (archive o) = Ok sa ->
  let indices := directionIndices (offset o) (length its) (reverse o) in
  getItemsToDownload fuel fs st o
  = (final <- getItemsToDownload fuel fs st (withLimit o None) ;;
     Ok (firstn (Z.to_nat n) (fst final), snd final)) /\
  (forall selected st',
     getItemsToDownload fuel fs st o = Ok (selected, st') ->
     selected
     = firstn (Z.to_nat n)
         (List.filter (passes o sa st) (entriesAt its indices))) /\
  (length its = 10%nat -> offset o = 2 -> reverse o = false -> n = 3 ->
   includeEpisodeImages o = false ->
   forallb (passes o sa st) its = true ->
   exists st',
     getItemsToDownload fuel fs st o = Ok (entriesAt its [2; 3; 4], st')).
Proof.
  intros Hlimit Hn Hits Hoff Hfuel Hsa indices.
  split; [|split].
  - unfold Selector.getItemsToDownload. cbn [feed offset reverse archive
      limit withLimit]. rewrite Hlimit.
    destruct (feedItems (feed o)) as [its'| |]; cbn [bind]; try reflexivity.
    destruct (loadArchive fs (archive o)) as [sa'| |]; cbn [bind];
      try reflexivity.
    change (Selector.loopBody path_resolve3 path_extname URL_pathname
              Date_parse utcOffset RegExp_new getArchiveFilename getFilename
              (withLimit o None) its' sa')
      with (loopBody o its' sa').
    destruct (while fuel _ _ _ _) as [[items st']| |]; cbn [bind];
      try reflexivity.
    cbn [fst snd]. rewrite (applyLimit_set n items Hn). reflexivity.
  - intros selected st' Hsel.
    rewrite (getItemsToDownload_filter fuel fs st o its sa selected st'
               Hits Hoff Hfuel Hsa Hsel), Hlimit.
    now apply applyLimit_set.
  - intros Hlen Hoffset Hrev -> Himg Hall.
    destruct (getItemsToDownload_all_pass fuel fs st o its sa
                Hits Hoff Hfuel Hsa Himg Hall) as [st' Hst'].
    exists st'. rewrite Hst'. f_equal. f_equal.
    rewrite Hlimit, Hoffset, Hrev, Hlen.
    do 11 (destruct its as [|? its]; try discriminate Hlen).
    reflexivity.
Qed.

(** Entries with pairwise distinct archive keys are pairwise distinct
    objects. *)
Lemma feedKeys_NoDup (o : Options) (st : store) (its : list loc)
  (ks : list string) :
  feedKeys o st its = Ok ks -> NoDup ks -> NoDup its.
Proof. apply mapM_NoDup. Qed.

Lemma mapM_ok_elem {A B : Type} (f : A -> res B) (l : list A) (ys : list B)
  (x : A) :
  mapM f l = Ok ys -> x ∈ l -> exists y, f x = Ok y.
Proof.
  revert ys. induction l as [|a l IH]; intros ys H Hin; simpl in H.
  - inversion Hin.
  - destruct (f a) as [b| |] eqn:Ha; simpl in H; try discriminate.
    destruct (mapM f l) as [ys'| |]; simpl in H; try discriminate.
    apply elem_of_cons in Hin as [->|Hin].
    + now exists b.
    + now apply (IH ys').
Qed.

(** Without pattern, date bound and ledger, an entry whose archive key can
    be computed passes. *)
Lemma passes_plain (o : Options) (st : store) (l : loc) (k : string) :
  episodeRegex o = None ->
  before o = None ->
  after o = None ->
  (it <- deref st l ;;
   Selector.archiveKeyOf path_extname URL_pathname getArchiveFilename o it)
  = Ok k ->
  passes o (VArr []) st l = true.
Proof.
  intros Hre Hbefore Hafter Hkey. unfold Selector.passes.
  unfold deref in Hkey. destruct (st !! l) as [it|]; [|discriminate].
  cbn [bind] in Hkey. unfold Selector.archiveKeyOf in Hkey.
  unfold Selector.verdict. rewrite Hre, Hbefore, Hafter.
  unfold regexStep, beforeStep, afterStep. cbn [truthy bind].
  destruct (getEpisodeAudioUrlAndExt path_extname URL_pathname it)
    as [[url ext]| |]; cbn [bind] in Hkey |- *; try discriminate.
  unfold archiveStep, includes. cbn [existsb bind].
  now destruct (negb _).
Qed.

(** C5: on a feed whose entries have pairwise distinct archive keys, with
    offset 0 and no limit, pattern, date bound or archive, whenever the
    selection with [reverse] unset returns, the selection with [reverse]
    set returns the same entries in the opposite order, with the same
    annotations in the store; and when no image is requested both
    selections do return, the first one with all the entries of the feed
    in the order of the feed. *)
Theorem reverse_offset_symmetry (fuel : nat) (fs : gmap string content)
  (st : store) (o : Options) (its : list loc) (ks : list string) :
  feed_items (feed o) = Some its ->
  offset o = 0 ->
  reverse o = false ->
  limit o = None ->
  episodeRegex o = None ->
  before o = None ->
  after o = None ->
  archive o = None ->
  feedKeys o st its = Ok ks ->
  NoDup ks ->
  (length its <= fuel)%nat ->
  (forall selected st',
     getItemsToDownload fuel fs st o = Ok (selected, st') ->
     getItemsToDownload fuel fs st (withReverse o true)
     = Ok (rev selected, st')) /\
  (includeEpisodeImages o = false ->
   exists st',
     getItemsToDownload fuel fs st o = Ok (its, st') /\
     getItemsToDownload fuel fs st (withReverse o true)
     = Ok (rev its, st')).
Proof.
  intros Hits Hoff Hrev Hlimit Hre Hbefore Hafter Harch Hkeys Hnd Hfuel.
  assert (Hoff0 : 0 <= offset o) by lia.
  assert (Hsym : forall selected st',
    getItemsToDownload fuel fs st o = Ok (selected, st') ->
    getItemsToDownload fuel fs st (withReverse o true)
    = Ok (rev selected, st')); [|split; [exact Hsym|]].
  2:{ intros Himg.
      destruct (getItemsToDownload_all_pass fuel fs st o its (VArr [])
                  Hits Hoff0 Hfuel) as [st' Hst'].
      - unfold Selector.loadArchive. now rewrite Harch.
      - exact Himg.
      - apply forallb_forall. intros l Hl.
        apply list_elem_of_In in Hl.
        destruct (mapM_ok_elem _ its ks l Hkeys Hl) as [k Hk].
        exact (passes_plain o st l k Hre Hbefore Hafter Hk).
      - rewrite Hlimit, Hoff, Hrev in Hst'.
        unfold applyLimit, directionIndices in Hst'.
        cbn [truthyLimit] in Hst'.
        rewrite Z.sub_0_r, entriesAt_all in Hst'.
        exists st'. split; [exact Hst'|]. now apply Hsym. }
  intros selected st' Hsel.
  rewrite (getItemsToDownload_fold fuel fs st o its Hits Hoff0 Hfuel) in Hsel.
  rewrite (getItemsToDownload_fold fuel fs st (withReverse o true) its
             Hits Hoff0 Hfuel).
  cbn [archive limit offset reverse withReverse].
  change (Selector.turn path_resolve3 path_extname URL_pathname Date_parse
            utcOffset RegExp_new getArchiveFilename getFilename
            (withReverse o true) its)
    with (turn o its).
  rewrite Hlimit, Harch, Hoff, Hrev in *.
  unfold Selector.loadArchive in *. cbn [truthy bind] in *.
  unfold directionIndices in *. rewrite Z.sub_0_r in *.
  destruct (mapM (turn o its (VArr []) st) (seqZ 0 (Z.of_nat (length its))))
    as [us| |] eqn:Hus; cbn [bind] in Hsel; try discriminate.
  rewrite (mapM_rev _ _ us Hus). cbn [bind].
  unfold applyLimit in *. cbn [truthyLimit] in *.
  injection Hsel as <- <-.
  assert (Hlocs : NoDup (omap (fmap fst) us)).
  { rewrite (turns_filter o its (VArr []) st _ us Hus), entriesAt_all.
    apply NoDup_List_filter. exact (feedKeys_NoDup o st its ks Hkeys Hnd). }
  f_equal. f_equal.
  - rewrite !fold_commit_fst. cbn [app]. apply omap_rev.
  - now apply fold_commit_rev.
Qed.

(** C10: with a pattern set, the title filter leaves the verdict on an
    entry without a title (absent or empty) as it is; when the pattern
    compiles, the entry gets the verdict it would get with no pattern. *)
Theorem regex_skips_missing_title (o : Options) (sa : value) (it : Item)
  (isValid : bool) :
  truthy (title it) = false ->
  (forall v,
     regexStep RegExp_new (episodeRegex o) (title it) isValid = Ok v ->
     v = isValid) /\
  (isOk (RegExp_new (render (episodeRegex o))) = true ->
   regexStep RegExp_new (episodeRegex o) (title it) isValid = Ok isValid /\
   verdict o sa it = verdict (withEpisodeRegex o None) sa it).
Proof.
  intros Htitle.
  assert (Hstep : forall b,
    isOk (RegExp_new (render (episodeRegex o))) = true ->
    regexStep RegExp_new (episodeRegex o) (title it) b = Ok b).
  { intros b Hre. unfold regexStep. destruct (truthy (episodeRegex o)).
    - destruct (RegExp_new (render (episodeRegex o))) as [re| |];
        try discriminate.
      cbn [bind]. now rewrite Htitle.
    - reflexivity. }
  split.
  - intros v. unfold regexStep. destruct (truthy (episodeRegex o)).
    + destruct (RegExp_new (render (episodeRegex o))) as [re| |];
        cbn [bind]; try discriminate.
      rewrite Htitle. cbn [andb]. congruence.
    + congruence.
  - intros Hre. split; [now apply Hstep|].
    unfold Selector.verdict. cbn [episodeRegex withEpisodeRegex before after
      archiveUrl]. now rewrite (Hstep true Hre).
Qed.

Lemma applyLimit_nil (limit : option Z) : applyLimit limit [] = [].
Proof.
  unfold applyLimit, slice0. destruct (truthyLimit limit); [|reflexivity].
  destruct (0 <=? default 0 limit); apply firstn_nil.
Qed.

Lemma while_stops {S : Type} (fuel : nat) (offset length : Z)
  (reverse : bool) (body : Z -> S -> res S) (s : S) :
  length <= offset ->
  let ctl := getLoopControls offset length reverse in
  while fuel ctl body (startIndex ctl) s = Ok s.
Proof.
  intros Hle ctl. subst ctl.
  destruct reverse; destruct fuel; simpl.
  - replace (-1 <? length - 1 - offset) with false
      by (symmetry; apply Z.ltb_ge; lia). reflexivity.
  - replace (-1 <? length - 1 - offset) with false
      by (symmetry; apply Z.ltb_ge; lia). reflexivity.
  - replace (0 + offset <? length) with false
      by (symmetry; apply Z.ltb_ge; lia). reflexivity.
  - replace (0 + offset <? length) with false
      by (symmetry; apply Z.ltb_ge; lia). reflexivity.
Qed.

(** C9, amended: on a feed that has entries, an offset that is not below
    the number of entries makes the loop visit no index in either
    direction, whatever the unrolling budget, the selection is empty, and
    the entry point, once a download run has reached its guards on the
    feed, reports the condition [--offset too large] with the fatal exit
    status, without running the selection. *)
Theorem offset_too_large_is_fatal (fuel : nat) (fs : gmap string content)
  (st : store) (o : Options) (its : list loc) :
  feed_items (feed o) = Some its ->
  its <> [] ->
  Z.of_nat (length its) <= offset o ->
  visited fuel
    (getLoopControls (offset o) (Z.of_nat (length its)) (reverse o)) = Ok [] /\
  (forall sa, loadArchive fs (archive o) = Ok sa ->
     getItemsToDownload fuel fs st o = Ok ([], st)) /\
  main fuel fs st o
  = Ok (Cli.Exit Cli.fatalStatus "--offset too large. No episodes to download.") /\
  Cli.fatalStatus <> 0.
Proof.
  intros Hits Hne Hle. repeat split.
  - unfold visited. now apply while_stops.
  - intros sa Hsa. unfold Selector.getItemsToDownload, feedItems.
    rewrite Hits. cbn [bind]. rewrite Hsa. cbn [bind].
    rewrite while_stops by assumption. cbn [bind].
    now rewrite applyLimit_nil.
  - unfold Cli.main. rewrite Hits. destruct its as [|l its]; [congruence|].
    replace (Z.of_nat (length (l :: its)) <=? offset o) with true
      by (symmetry; now apply Z.leb_le).
    reflexivity.
  - discriminate.
Qed.

(** C7: loading the ledger gives the empty ledger when there is no file at
    the resolved path; when the file is there and does not parse, loading
    throws the parse error, and so do the selection that asked for the
    ledger and the entry point that called the selection: the run stops
    and no selection is made on an empty ledger. *)
Theorem getArchive_absent_or_malformed (fs : gmap string content)
  (ledger : string) :
  (fs !! path_resolve_cwd ledger = None ->
   Archive.getArchive JSON_parse path_resolve_cwd fs ledger = Ok (VArr [])) /\
  (forall text,
     fs !! path_resolve_cwd ledger = Some text ->
     JSON_parse text = None ->
     let e := SyntaxError "Unexpected token in JSON" in
     Archive.getArchive JSON_parse path_resolve_cwd fs ledger = Throw e /\
     (forall key,
        Archive.getIsInArchive JSON_parse path_resolve_cwd fs key ledger
        = Throw e) /\
     forall fuel st o its,
       archive o = Some ledger ->
       ledger <> "" ->
       feed_items (feed o) = Some its ->
       getItemsToDownload fuel fs st o = Throw e /\
       (0 <= offset o < Z.of_nat (length its) ->
        main fuel fs st o = Throw e)).
Proof.
  split.
  - intros Habs. unfold Archive.getArchive. now rewrite Habs.
  - intros text Hfile Hbad e.
    assert (Hload : Archive.getArchive JSON_parse path_resolve_cwd fs ledger
                    = Throw e).
    { unfold Archive.getArchive. now rewrite Hfile, Hbad. }
    split; [exact Hload|]. split.
    { intros key. unfold Archive.getIsInArchive. now rewrite Hload. }
    intros fuel st o its Harch Hne Hits.
    assert (Hsel : getItemsToDownload fuel fs st o = Throw e).
    { unfold Selector.getItemsToDownload, feedItems, Selector.loadArchive.
      rewrite Hits, Harch. cbn [bind truthy render].
      replace (String.eqb ledger "") with false
        by (symmetry; now apply String.eqb_neq).
      cbn [negb]. now rewrite Hload. }
    split; [exact Hsel|].
    intros Hlen. unfold Cli.main. rewrite Hits.
    destruct its as [|l its]; [simpl in Hlen; lia|].
    replace (Z.of_nat (length (l :: its)) <=? offset o) with false
      by (symmetry; apply Z.leb_gt; lia).
    now rewrite Hsel.
Qed.

End Selection.

(** *** Date bounds *)

Lemma localDay_before (utcOffset t u : Z) :
  u < startOfDay utcOffset t <-> localDay utcOffset u < localDay utcOffset t.
Proof.
  unfold startOfDay, localDay, msPerDay, msPerMinute.
  pose proof (Z.div_mod (u + utcOffset * 60000) 86400000 ltac:(lia)) as Hu.
  pose proof (Z.mod_pos_bound (u + utcOffset * 60000) 86400000 ltac:(lia)).
  pose proof (Z.div_mod (t + utcOffset * 60000) 86400000 ltac:(lia)) as Ht.
  pose proof (Z.mod_pos_bound (t + utcOffset * 60000) 86400000 ltac:(lia)).
  lia.
Qed.

Lemma localDay_after (utcOffset t u : Z) :
  endOfDay utcOffset t < u <-> localDay utcOffset t < localDay utcOffset u.
Proof.
  unfold endOfDay, startOfDay, localDay, msPerDay, msPerMinute.
  pose proof (Z.div_mod (u + utcOffset * 60000) 86400000 ltac:(lia)) as Hu.
  pose proof (Z.mod_pos_bound (u + utcOffset * 60000) 86400000 ltac:(lia)).
  pose proof (Z.div_mod (t + utcOffset * 60000) 86400000 ltac:(lia)) as Ht.
  pose proof (Z.mod_pos_bound (t + utcOffset * 60000) 86400000 ltac:(lia)).
  lia.
Qed.

Lemma beforeStep_excludes (Date_parse : string -> option Z) (utcOffset : Z)
  (bound : string) (t b : Z) :
  bound <> "" ->
  Date_parse bound = Some b ->
  beforeStep Date_parse utcOffset (Some bound) (Some t) true = false
  <-> localDay utcOffset b < localDay utcOffset t.
Proof.
  intros Hne Hb. unfold beforeStep, newDate. cbn [truthy mbind option_bind].
  replace (String.eqb bound "") with false
    by (symmetry; now apply String.eqb_neq).
  cbn [negb]. rewrite Hb. cbn [isSameDay isBeforeDay].
  rewrite <- localDay_before.
  pose proof (localDay_after utcOffset t b) as Hafter.
  unfold endOfDay in *.
  destruct (startOfDay utcOffset t <=? b) eqn:H1;
    destruct (b <=? startOfDay utcOffset t + msPerDay - 1) eqn:H2;
    destruct (startOfDay utcOffset t + msPerDay - 1 <? b) eqn:H3;
    cbn [andb negb];
    try apply Z.leb_le in H1; try apply Z.leb_gt in H1;
    try apply Z.leb_le in H2; try apply Z.leb_gt in H2;
    try apply Z.ltb_lt in H3; try apply Z.ltb_ge in H3;
    unfold msPerDay in *; split; intros; try discriminate; try lia;
    reflexivity.
Qed.

Lemma afterStep_excludes (Date_parse : string -> option Z) (utcOffset : Z)
  (bound : string) (t b : Z) :
  bound <> "" ->
  Date_parse bound = Some b ->
  afterStep Date_parse utcOffset (Some bound) (Some t) true = false
  <-> localDay utcOffset t < localDay utcOffset b.
Proof.
  intros Hne Hb. unfold afterStep, newDate. cbn [truthy mbind option_bind].
  replace (String.eqb bound "") with false
    by (symmetry; now apply String.eqb_neq).
  cbn [negb]. rewrite Hb. cbn [isSameDay isAfterDay].
  rewrite <- localDay_after.
  pose proof (localDay_before utcOffset t b) as Hbefore.
  unfold endOfDay in *.
  destruct (startOfDay utcOffset t <=? b) eqn:H1;
    destruct (b <=? startOfDay utcOffset t + msPerDay - 1) eqn:H2;
    destruct (b <? startOfDay utcOffset t) eqn:H3;
    cbn [andb negb];
    try apply Z.leb_le in H1; try apply Z.leb_gt in H1;
    try apply Z.leb_le in H2; try apply Z.leb_gt in H2;
    try apply Z.ltb_lt in H3; try apply Z.ltb_ge in H3;
    unfold msPerDay in *; split; intros; try discriminate; try lia;
    reflexivity.
Qed.

(** C8, amended: the date bounds are inclusive at the granularity of the
    calendar day of the local time zone.  For an entry with a valid
    publish date and a bound that parses, the [before] filter rejects the
    entry exactly when the local day of its publish instant is strictly
    after the local day of the bound instant, and the [after] filter
    exactly when it is strictly before.  In the zone UTC, with the bound
    [2020-01-10], an entry published at [2020-01-10T23:00:00Z] is kept and
    an entry published at [2020-01-11T00:01:00Z] is rejected. *)
Theorem date_bounds_local_calendar_day :
  (forall (Date_parse : string -> option Z) (utcOffset : Z) (bound : string)
      (pub : option string) (t b : Z),
      bound <> "" ->
      Date_parse bound = Some b ->
      newDate Date_parse pub = Some t ->
      (beforeStep Date_parse utcOffset (Some bound) (newDate Date_parse pub)
         true = false
       <-> localDay utcOffset b < localDay utcOffset t) /\
      (afterStep Date_parse utcOffset (Some bound) (newDate Date_parse pub)
         true = false
       <-> localDay utcOffset t < localDay utcOffset b)) /\
  beforeStep Sample.Date_parse 0 (Some "2020-01-10")
    (newDate Sample.Date_parse (Some "2020-01-10T23:00:00Z")) true = true /\
  beforeStep Sample.Date_parse 0 (Some "2020-01-10")
    (newDate Sample.Date_parse (Some "2020-01-11T00:01:00Z")) true = false.
Proof.
  split; [|split; reflexivity].
  intros Date_parse utcOffset bound pub t b Hne Hb Ht. rewrite Ht. split.
  - now apply beforeStep_excludes.
  - now apply afterStep_excludes.
Qed.

(** In UTC the entry of 9 January passes the bound of 10 January and the
    entry of 11 January does not pass it. *)
Lemma date_bounds_local_calendar_day_witness :
  beforeStep Sample.Date_parse 0 (Some "2020-01-10")
    (newDate Sample.Date_parse (Some "2020-01-09T08:00:00Z")) true <> false /\
  localDay 0 1578614400000 < localDay 0 1578700860000.
Proof.
  destruct date_bounds_local_calendar_day as [Hgen _].
  destruct (Hgen Sample.Date_parse 0 "2020-01-10"
              (Some "2020-01-11T00:01:00Z") 1578700860000 1578614400000
              ltac:(discriminate) eq_refl eq_refl) as [Hbefore _].
  split.
  - discriminate.
  - apply Hbefore. reflexivity.
Defined.

(** C8 as stated fails outside UTC: two hours east of UTC the entry of
    [2020-01-10T23:00:00Z] is published on the local day after the bound
    [2020-01-10] and is rejected; five hours west of UTC the bound, read
    as midnight UTC, falls on the local day before and the entry is
    rejected as well. *)
Lemma date_bounds_depend_on_zone :
  beforeStep Sample.Date_parse 120 (Some "2020-01-10")
    (newDate Sample.Date_parse (Some "2020-01-10T23:00:00Z")) true = false /\
  beforeStep Sample.Date_parse (-300) (Some "2020-01-10")
    (newDate Sample.Date_parse (Some "2020-01-10T23:00:00Z")) true = false /\
  exists st',
    Sample.select 120 10 ∅ Sample.tenEpisodes
      (Sample.withBefore (Sample.plain (Sample.feedOf Sample.tenItems) 0 false)
         (Some "2020-01-10"))
    = Ok ([1; 2; 3; 4; 5; 6; 7; 8; 9]%nat, st').
Proof.
  split; [reflexivity|]. split; [reflexivity|].
  eexists. vm_compute. reflexivity.
Qed.

(** *** Examples on the concrete platform *)

(** The loop on ten entries, offset 2, in reverse. *)
Lemma selection_visits_direction_indices_witness :
  let o := Sample.plain (Sample.feedOf Sample.tenItems) 2 true in
  feed_items (feed o) = Some Sample.tenItems /\
  0 <= offset o /\
  (length Sample.tenItems <= 10)%nat /\
  visited 10 (getLoopControls 2 10 true) = Ok [7; 6; 5; 4; 3; 2; 1; 0].
Proof.
  intros o. split; [reflexivity|]. split; [simpl; lia|].
  split; [simpl; lia|].
  exact (proj1
    (selection_visits_direction_indices Sample.JSON_parse
       Sample.path_resolve_cwd Sample.path_resolve3 Sample.path_extname
       Sample.URL_pathname Sample.Date_parse 0 Sample.RegExp_new
       Sample.getArchiveFilename Sample.getFilename 10 ∅ Sample.tenEpisodes o
       Sample.tenItems eq_refl ltac:(simpl; lia) ltac:(simpl; lia))).
Defined.

(** Ten entries, limit 3, offset 2: the entries 2, 3 and 4. *)
Lemma limit_truncates_after_filtering_witness :
  let o := withLimit (Sample.plain (Sample.feedOf Sample.tenItems) 2 false)
             (Some 3) in
  limit o = Some 3 /\
  forallb
    (passes Sample.path_extname Sample.URL_pathname Sample.Date_parse 0
       Sample.RegExp_new Sample.getArchiveFilename o (VArr [])
       Sample.tenEpisodes) Sample.tenItems = true /\
  exists st',
    Sample.select 0 10 ∅ Sample.tenEpisodes o = Ok ([2; 3; 4]%nat, st').
Proof.
  intros o. split; [reflexivity|]. split; [vm_compute; reflexivity|].
  exact (proj2 (proj2
    (limit_truncates_after_filtering Sample.JSON_parse
       Sample.path_resolve_cwd Sample.path_resolve3 Sample.path_extname
       Sample.URL_pathname Sample.Date_parse 0 Sample.RegExp_new
       Sample.getArchiveFilename Sample.getFilename 10 ∅ Sample.tenEpisodes o
       Sample.tenItems (VArr []) 3 eq_refl ltac:(lia) eq_refl
       ltac:(simpl; lia) ltac:(simpl; lia) eq_refl))
    eq_refl eq_refl eq_refl eq_refl eq_refl eq_refl).
Defined.

(** Ten entries in both directions. *)
Lemma reverse_offset_symmetry_witness :
  let o := Sample.plain (Sample.feedOf Sample.tenItems) 0 false in
  match Sample.select 0 10 ∅ Sample.tenEpisodes o with
  | Ok (selected, st') =>
      selected = Sample.tenItems /\
      Sample.select 0 10 ∅ Sample.tenEpisodes (withReverse o true)
      = Ok (rev selected, st')
  | _ => False
  end.
Proof.
  intros o.
  destruct (Sample.select 0 10 ∅ Sample.tenEpisodes o)
    as [[selected st']| |] eqn:Hsel.
  - split.
    + vm_compute in Hsel. now injection Hsel as <- _.
    + assert (Hkeys :
        exists ks,
          feedKeys Sample.path_extname Sample.URL_pathname
            Sample.getArchiveFilename o Sample.tenEpisodes Sample.tenItems
          = Ok ks /\ NoDup ks).
      { eexists. split; [vm_compute; reflexivity|].
        apply (bool_decide_unpack _). vm_compute. reflexivity. }
      destruct Hkeys as (ks & Hks & Hnd).
      exact (proj1
               (reverse_offset_symmetry Sample.JSON_parse
                  Sample.path_resolve_cwd Sample.path_resolve3
                  Sample.path_extname Sample.URL_pathname Sample.Date_parse 0
                  Sample.RegExp_new Sample.getArchiveFilename
                  Sample.getFilename 10 ∅ Sample.tenEpisodes o
                  Sample.tenItems ks eq_refl eq_refl eq_refl eq_refl eq_refl
                  eq_refl eq_refl eq_refl Hks Hnd ltac:(simpl; lia))
               selected st' Hsel).
  - vm_compute in Hsel. discriminate.
  - vm_compute in Hsel. discriminate.
Defined.

(** An entry without a title under the pattern [Episode]. *)
Lemma regex_skips_missing_title_witness :
  let o := withEpisodeRegex (Sample.plain (Sample.feedOf [0%nat]) 0 false)
             (Some "Episode") in
  truthy (title Sample.untitled) = false /\
  regexStep Sample.RegExp_new (episodeRegex o) (title Sample.untitled) true
  = Ok true.
Proof.
  intros o. split; [reflexivity|].
  exact (proj1 (proj2
    (regex_skips_missing_title Sample.path_extname Sample.URL_pathname
       Sample.Date_parse 0 Sample.RegExp_new Sample.getArchiveFilename
       o (VArr []) Sample.untitled true eq_refl) eq_refl)).
Defined.

(** Ten entries and offset 10. *)
Lemma offset_too_large_is_fatal_witness :
  let o := Sample.plain (Sample.feedOf Sample.tenItems) 10 true in
  Z.of_nat (length Sample.tenItems) <= offset o /\
  Sample.run 0 0 ∅ Sample.tenEpisodes o
  = Ok (Cli.Exit 1 "--offset too large. No episodes to download.").
Proof.
  intros o. split; [simpl; lia|].
  exact (proj1 (proj2 (proj2
    (offset_too_large_is_fatal Sample.JSON_parse
       Sample.path_resolve_cwd Sample.path_resolve3 Sample.path_extname
       Sample.URL_pathname Sample.Date_parse 0 Sample.RegExp_new
       Sample.getArchiveFilename Sample.getFilename 0 ∅ Sample.tenEpisodes o
       Sample.tenItems eq_refl ltac:(discriminate) ltac:(simpl; lia))))).
Defined.

(** C9 as stated fails on the empty feed: the offset 0 is not below the
    number of entries, and the entry point reports that there is no episode
    to download, not that the offset is too large. *)
Lemma offset_too_large_empty_feed :
  let o := Sample.plain (Sample.feedOf []) 0 false in
  feed_items (feed o) = Some [] /\
  Z.of_nat (length (@nil loc)) <= offset o /\
  Sample.run 0 0 ∅ ∅ o = Ok (Cli.Exit 1 "No episodes found to download") /\
  Sample.run 0 0 ∅ ∅ o
  <> Ok (Cli.Exit Cli.fatalStatus "--offset too large. No episodes to download.").
Proof.
  intros o. split; [reflexivity|]. split; [simpl; lia|].
  split; [reflexivity|]. discriminate.
Qed.

(** No ledger file, and a ledger file that does not parse. *)
Lemma getArchive_absent_or_malformed_witness :
  let fs : gmap string string := {[ "/work/archive.json" := "{oops" ]} in
  let o := Sample.withArchive
             (Sample.plain (Sample.feedOf Sample.tenItems) 0 false)
             (Some "archive.json") in
  Archive.getArchive Sample.JSON_parse Sample.path_resolve_cwd ∅ "archive.json"
  = Ok (VArr []) /\
  Sample.JSON_parse "{oops" = None /\
  Sample.run 0 10 fs Sample.tenEpisodes o
  = Throw (SyntaxError "Unexpected token in JSON").
Proof.
  intros fs o. split; [|split; [reflexivity|]].
  - exact (proj1
      (getArchive_absent_or_malformed Sample.JSON_parse
         Sample.path_resolve_cwd Sample.path_resolve3 Sample.path_extname
         Sample.URL_pathname Sample.Date_parse 0 Sample.RegExp_new
         Sample.getArchiveFilename Sample.getFilename ∅ "archive.json")
      eq_refl).
  - exact (proj2 (proj2 (proj2
      (proj2
         (getArchive_absent_or_malformed Sample.JSON_parse
            Sample.path_resolve_cwd Sample.path_resolve3 Sample.path_extname
            Sample.URL_pathname Sample.Date_parse 0 Sample.RegExp_new
            Sample.getArchiveFilename Sample.getFilename fs "archive.json")
         "{oops" eq_refl eq_refl))
      10%nat Sample.tenEpisodes o Sample.tenItems eq_refl
      ltac:(discriminate) eq_refl)
      ltac:(simpl; lia)).
Defined.

End SelectorProps.

(** ** More on the archive ledger *)

Module ArchiveMore.

Import Fields Archive.

Lemma append_inv_head (p a b : string) : p +:+ a = p +:+ b -> a = b.
Proof.
  induction p as [|c p IH]; simpl; intros H.
  - exact H.
  - injection H as H. now apply IH.
Qed.

Lemma append_not_empty (a b : string) : b <> "" -> a +:+ b <> "".
Proof. destruct a; simpl; [trivial|discriminate]. Qed.

Lemma getArchiveKey_not_empty (prefix : option string) (name : string) :
  String.eqb (getArchiveKey prefix name) "" = false.
Proof.
  apply String.eqb_neq. unfold getArchiveKey.
  apply append_not_empty. discriminate.
Qed.

(** X1: an archive key is never the empty string, so the guard [key &&]
    of the archive filter never skips the look-up; and under one prefix two
    different file names never get the same key. *)
Theorem getArchiveKey_separates_names (prefix : option string)
  (name name' : string) :
  name <> name' ->
  getArchiveKey prefix name <> "" /\
  getArchiveKey prefix name <> getArchiveKey prefix name'.
Proof.
  intros Hne. unfold getArchiveKey. split.
  - apply append_not_empty. discriminate.
  - intros Heq. apply append_inv_head in Heq. simpl in Heq.
    injection Heq as Heq. contradiction.
Qed.

Lemma getArchiveKey_separates_names_witness :
  getArchiveKey (Some "example.org/feed.xml") "a.mp3"
  <> getArchiveKey (Some "example.org/feed.xml") "b.mp3".
Proof.
  exact (proj2 (getArchiveKey_separates_names (Some "example.org/feed.xml")
                  "a.mp3" "b.mp3" ltac:(discriminate))).
Defined.

Section Ledger.

Context {content : Type}.
Variable JSON_parse : content -> option value.
Variable JSON_stringify : value -> content.
Variable path_resolve_cwd : string -> string.
Variable dirExists : string -> bool.

Abbreviation getArchive := (Archive.getArchive JSON_parse path_resolve_cwd).
Abbreviation writeToArchive :=
  (Archive.writeToArchive JSON_parse JSON_stringify path_resolve_cwd
     dirExists).
Abbreviation getIsInArchive :=
  (Archive.getIsInArchive JSON_parse path_resolve_cwd).

Lemma is_string_other (l : list value) (key other : string) :
  other <> key ->
  existsb (is_string other) (inserted l key) = existsb (is_string other) l.
Proof.
  intros Hne. unfold inserted.
  destruct (existsb (is_string key) l); [reflexivity|].
  rewrite existsb_app. simpl.
  replace (String.eqb key other) with false
    by (symmetry; apply String.eqb_neq; congruence).
  now rewrite !orb_false_r.
Qed.

(** X2: when the ledger file exists or the directory that is to hold it
    does, an insertion in a well-formed ledger succeeds, changes no other
    file, leaves in the ledger the previous keys in their order, followed
    by the key exactly when it was absent, and changes the answer of the
    membership test for no other key. *)
Theorem writeToArchive_frame (fs : gmap string content)
  (key archive : string) (l : list value) :
  getArchive fs archive = Ok (VArr l) ->
  JSON_parse (JSON_stringify (VArr (inserted l key)))
    = Some (VArr (inserted l key)) ->
  existsSync fs (path_resolve_cwd archive)
  || dirExists (path_resolve_cwd archive) = true ->
  exists fs',
    writeToArchive fs key archive = Ok fs' /\
    (forall p, p <> path_resolve_cwd archive -> fs' !! p = fs !! p) /\
    getArchive fs' archive
    = Ok (VArr (if existsb (is_string key) l then l else l ++ [VStr key])) /\
    (forall other, other <> key ->
       getIsInArchive fs' other archive = getIsInArchive fs other archive).
Proof.
  intros Hload Hrt Hdir.
  exists (<[path_resolve_cwd archive :=
             JSON_stringify (VArr (inserted l key))]> fs).
  assert (Hread :
    getArchive (<[path_resolve_cwd archive :=
                   JSON_stringify (VArr (inserted l key))]> fs) archive
    = Ok (VArr (inserted l key)))
    by now apply ArchiveProps.getArchive_after_write.
  split; [|split; [|split]].
  - rewrite (ArchiveProps.writeToArchive_write _ _ _ _ _ _ _ _ Hload).
    now apply ArchiveProps.writeFileSync_possible.
  - intros p Hp. now rewrite lookup_insert_ne.
  - exact Hread.
  - intros other Hne. unfold Archive.getIsInArchive.
    rewrite Hread, Hload. simpl. now rewrite is_string_other.
Qed.

(** X3: when the ledger file parses to something that is neither an array
    nor a string, the membership test and the insertion both throw a
    [TypeError]; when it parses to a string, the membership test is a
    substring search and an insertion of a key that is not a substring
    throws a [TypeError].  In none of these cases is a key appended. *)
Theorem ledger_not_an_array (fs : gmap string content)
  (key archive : string) (v : value) :
  getArchive fs archive = Ok v ->
  (forall l, v <> VArr l) ->
  match v with
  | VStr s =>
      getIsInArchive fs key archive = Ok (str_includes s key) /\
      (str_includes s key = false ->
       exists msg, writeToArchive fs key archive = Throw (TypeError msg)) /\
      (str_includes s key = true ->
       writeToArchive fs key archive
       = Ok (<[path_resolve_cwd archive := JSON_stringify v]> fs))
  | _ =>
      (exists msg, getIsInArchive fs key archive = Throw (TypeError msg)) /\
      (exists msg, writeToArchive fs key archive = Throw (TypeError msg))
  end.
Proof.
  intros Hload Hnot.
  assert (Hfile : existsSync fs (path_resolve_cwd archive) = true).
  { unfold Archive.getArchive in Hload. unfold existsSync.
    destruct (fs !! path_resolve_cwd archive); [reflexivity|].
    injection Hload as <-. now destruct (Hnot []). }
  unfold Archive.getIsInArchive, Archive.writeToArchive. rewrite Hload.
  destruct v as [| | | |s|l|entries]; simpl;
    try (split; eexists; reflexivity).
  - split; [reflexivity|]. split; intros ->; simpl.
    + eexists; reflexivity.
    + unfold writeFileSync. now rewrite Hfile.
  - now destruct (Hnot l).
Qed.

End Ledger.

(** A ledger file that holds a number. *)
Lemma ledger_not_an_array_witness :
  let fs : gmap string value := {[ "/work/archive.json" := VNum 7 ]} in
  exists msg,
    Archive.writeToArchive Some id Sample.path_resolve_cwd Sample.dirExists
      fs "feed-a.mp3" "archive.json" = Throw (TypeError msg).
Proof.
  intros fs.
  exact (proj2
    (ledger_not_an_array Some id Sample.path_resolve_cwd Sample.dirExists
       fs "feed-a.mp3" "archive.json" (VNum 7) eq_refl ltac:(discriminate))).
Defined.

(** A ledger that does not exist yet, in an existing directory, receives
    its first key; a ledger with one key receives another key. *)
Lemma writeToArchive_frame_witness :
  (exists fs',
     Archive.writeToArchive Sample.JSON_parse Sample.JSON_stringify
       Sample.path_resolve_cwd Sample.dirExists ∅ "feed-a.mp3"
       "archive.json" = Ok fs' /\
     Archive.getArchive Sample.JSON_parse Sample.path_resolve_cwd fs'
       "archive.json" = Ok (VArr [VStr "feed-a.mp3"])) /\
  let fs : gmap string string :=
    {[ "/work/archive.json" := Sample.JSON_stringify (VArr [VStr "feed-a.mp3"]) ]} in
  exists fs',
    Archive.writeToArchive Sample.JSON_parse Sample.JSON_stringify
      Sample.path_resolve_cwd Sample.dirExists fs "feed-b.mp3"
      "archive.json" = Ok fs' /\
    Archive.getArchive Sample.JSON_parse Sample.path_resolve_cwd fs'
      "archive.json" = Ok (VArr [VStr "feed-a.mp3"; VStr "feed-b.mp3"]) /\
    Archive.getIsInArchive Sample.JSON_parse Sample.path_resolve_cwd fs'
      "feed-a.mp3" "archive.json" = Ok true.
Proof.
  split.
  - assert (Hload :
      Archive.getArchive Sample.JSON_parse Sample.path_resolve_cwd
        (∅ : gmap string string) "archive.json" = Ok (VArr []))
      by reflexivity.
    destruct (writeToArchive_frame Sample.JSON_parse Sample.JSON_stringify
                Sample.path_resolve_cwd Sample.dirExists ∅ "feed-a.mp3"
                "archive.json" [] Hload eq_refl eq_refl)
      as (fs' & Hwrite & _ & Hledger & _).
    exists fs'. split; [exact Hwrite|exact Hledger].
  - intros fs.
    destruct (writeToArchive_frame Sample.JSON_parse Sample.JSON_stringify
                Sample.path_resolve_cwd Sample.dirExists fs "feed-b.mp3"
                "archive.json" [VStr "feed-a.mp3"] eq_refl eq_refl eq_refl)
      as (fs' & Hwrite & _ & Hledger & Hothers).
    exists fs'. split; [exact Hwrite|]. split; [exact Hledger|].
    rewrite (Hothers "feed-a.mp3" ltac:(discriminate)). reflexivity.
Defined.

End ArchiveMore.

(** ** More on the entry selector *)

Module SelectorMore.

Import Fields Archive Dayjs Selector SelectorProps.

(** *** What the offset skips *)

Lemma entriesAt_mid (pre mid post : list loc) :
  entriesAt (pre ++ mid ++ post)
    (seqZ (Z.of_nat (length pre)) (Z.of_nat (length mid))) = mid.
Proof.
  revert pre. induction mid as [|a mid IH]; intros pre.
  - reflexivity.
  - rewrite seqZ_cons by (simpl; lia). unfold entriesAt.
    cbn [omap list_omap].
    replace (Z.of_nat (length pre) <? 0) with false
      by (symmetry; apply Z.ltb_ge; lia).
    rewrite Nat2Z.id.
    change (pre ++ (a :: mid) ++ post) with (pre ++ a :: (mid ++ post)).
    rewrite list_lookup_middle by reflexivity.
    f_equal. specialize (IH (pre ++ [a])).
    rewrite <- app_assoc in IH. simpl in IH.
    rewrite length_app in IH. simpl in IH.
    replace (Z.succ (Z.of_nat (length pre)))
      with (Z.of_nat (length pre + 1)) by lia.
    replace (Z.pred (Z.of_nat (length (a :: mid))))
      with (Z.of_nat (length mid)) by (simpl; lia).
    exact IH.
Qed.

Lemma entriesAt_nil (its : list loc) : entriesAt its [] = [].
Proof. reflexivity. Qed.

Lemma entriesAt_forward (its : list loc) (k : nat) :
  entriesAt its (seqZ (Z.of_nat k) (Z.of_nat (length its) - Z.of_nat k))
  = drop k its.
Proof.
  destruct (decide (k <= length its)%nat) as [Hle|Hgt].
  - pose proof (entriesAt_mid (take k its) (drop k its) []) as H.
    rewrite app_nil_r, take_drop in H.
    rewrite length_take_le, length_drop in H by assumption.
    replace (Z.of_nat (length its) - Z.of_nat k)
      with (Z.of_nat (length its - k)) by lia.
    exact H.
  - rewrite seqZ_nil by lia. rewrite drop_ge by lia. reflexivity.
Qed.

Lemma entriesAt_backward (its : list loc) (k : nat) :
  entriesAt its (rev (seqZ 0 (Z.of_nat (length its) - Z.of_nat k)))
  = rev (take (length its - k) its).
Proof.
  unfold entriesAt. rewrite omap_rev. f_equal.
  destruct (decide (k <= length its)%nat) as [Hle|Hgt].
  - pose proof (entriesAt_mid [] (take (length its - k) its)
                  (drop (length its - k) its)) as H.
    simpl in H. rewrite take_drop in H.
    rewrite length_take_le in H by lia.
    replace (Z.of_nat (length its) - Z.of_nat k)
      with (Z.of_nat (length its - k)) by lia.
    exact H.
  - rewrite seqZ_nil by lia.
    replace (length its - k)%nat with 0%nat by lia. reflexivity.
Qed.

Lemma entriesAt_direction (its : list loc) (offset : Z) (reverse : bool) :
  0 <= offset ->
  entriesAt its (directionIndices offset (length its) reverse)
  = if reverse then rev (take (length its - Z.to_nat offset) its)
    else drop (Z.to_nat offset) its.
Proof.
  intros Hoff. unfold directionIndices. destruct reverse.
  - pose proof (entriesAt_backward its (Z.to_nat offset)) as H.
    now rewrite Z2Nat.id in H by assumption.
  - pose proof (entriesAt_forward its (Z.to_nat offset)) as H.
    now rewrite Z2Nat.id in H by assumption.
Qed.

(** X4: in either direction the offset removes the first [offset] entries
    of the scan: with [reverse] unset the loop visits [feed.items] without
    its first [offset] entries, and with [reverse] set it visits, from the
    last one down, [feed.items] without its last [offset] entries. *)
Theorem offset_skips_the_head_of_the_scan (its : list loc) (offset : Z)
  (reverse : bool) (fuel : nat) :
  0 <= offset ->
  (length its <= fuel)%nat ->
  exists indices,
    visited fuel (getLoopControls offset (Z.of_nat (length its)) reverse)
    = Ok indices /\
    entriesAt its indices
    = if reverse then rev (take (length its - Z.to_nat offset) its)
      else drop (Z.to_nat offset) its.
Proof.
  intros Hoff Hfuel.
  exists (directionIndices offset (length its) reverse). split.
  - now apply visited_direction.
  - now apply entriesAt_direction.
Qed.

Lemma offset_skips_the_head_of_the_scan_witness :
  exists indices,
    visited 10 (getLoopControls 3 10 true) = Ok indices /\
    entriesAt Sample.tenItems indices = [6; 5; 4; 3; 2; 1; 0]%nat.
Proof.
  exact (offset_skips_the_head_of_the_scan Sample.tenItems 3 true 10
           ltac:(lia) ltac:(simpl; lia)).
Defined.

(** *** Generic facts on sublists and on [mapM] *)

Lemma sublist_rev {A : Type} (l1 l2 : list A) :
  l1 `sublist_of` l2 -> rev l1 `sublist_of` rev l2.
Proof.
  induction 1 as [|x l1 l2 _ IH|x l1 l2 _ IH]; simpl.
  - constructor.
  - now apply sublist_app.
  - now apply sublist_inserts_r.
Qed.

Lemma sublist_List_filter {A : Type} (p : A -> bool) (l : list A) :
  List.filter p l `sublist_of` l.
Proof.
  induction l as [|x l IH]; simpl.
  - constructor.
  - destruct (p x); now constructor.
Qed.

Lemma sublist_applyLimit (limit : option Z) (items : list loc) :
  applyLimit limit items `sublist_of` items.
Proof.
  unfold applyLimit, slice0. destruct (truthyLimit limit); [|reflexivity].
  destruct (0 <=? default 0 limit); apply sublist_take.
Qed.

Lemma sublist_elem_of {A : Type} (l1 l2 : list A) (x : A) :
  l1 `sublist_of` l2 -> x ∈ l1 -> x ∈ l2.
Proof.
  induction 1 as [|y l1 l2 _ IH|y l1 l2 _ IH]; intros Hin.
  - exact Hin.
  - apply elem_of_cons in Hin as [->|Hin]; [left|right; now apply IH].
  - right. now apply IH.
Qed.

Lemma mapM_elem_inv {A B : Type} (f : A -> res B) (l : list A) (ys : list B)
  (y : B) :
  mapM f l = Ok ys -> y ∈ ys -> exists x, x ∈ l /\ f x = Ok y.
Proof.
  revert ys. induction l as [|a l IH]; intros ys H Hin; simpl in H.
  - injection H as <-. inversion Hin.
  - destruct (f a) as [b| |] eqn:Ha; simpl in H; try discriminate.
    destruct (mapM f l) as [ys'| |]; simpl in H; try discriminate.
    injection H as <-. apply elem_of_cons in Hin as [->|Hin].
    + exists a. split; [left|exact Ha].
    + destruct (IH ys' eq_refl Hin) as (x & Hx & Hfx).
      exists x. split; [now right|exact Hfx].
Qed.

(** *** The selection on an arbitrary platform *)

Section Selection.

Context {content : Type}.
Variable JSON_parse : content -> option value.
Variable path_resolve_cwd : string -> string.
Variable path_resolve3 : string -> string -> string -> string.
Variable path_extname : string -> string.
Variable URL_pathname : string -> option string.
Variable Date_parse : string -> option Z.
Variable utcOffset : Z.
Variable RegExp_new : string -> res (string -> bool).
Variable getArchiveFilename :
  option string -> option string -> option Ext -> string.
Variable getFilename :
  Item -> Feed -> option string -> string -> option string -> string.

Abbreviation verdict :=
  (Selector.verdict path_extname URL_pathname Date_parse utcOffset RegExp_new
     getArchiveFilename).
Abbreviation turn :=
  (Selector.turn path_resolve3 path_extname URL_pathname Date_parse
     utcOffset RegExp_new getArchiveFilename getFilename).
Abbreviation passes :=
  (Selector.passes path_extname URL_pathname Date_parse utcOffset RegExp_new
     getArchiveFilename).
Abbreviation loadArchive :=
  (Selector.loadArchive JSON_parse path_resolve_cwd).
Abbreviation getItemsToDownload :=
  (Selector.getItemsToDownload JSON_parse path_resolve_cwd path_resolve3
     path_extname URL_pathname Date_parse utcOffset RegExp_new
     getArchiveFilename getFilename).
Abbreviation archiveKeyOf :=
  (Selector.archiveKeyOf path_extname URL_pathname getArchiveFilename).
Abbreviation main :=
  (Cli.main JSON_parse path_resolve_cwd path_resolve3 path_extname
     URL_pathname Date_parse utcOffset RegExp_new getArchiveFilename
     getFilename).

(** A selection that returns has loaded its ledger and run its turns. *)
Lemma selection_returns (fuel : nat) (fs : gmap string content) (st : store)
  (o : Options) (its : list loc) (selected : list loc) (st' : store) :
  feed_items (feed o) = Some its ->
  0 <= offset o ->
  (length its <= fuel)%nat ->
  getItemsToDownload fuel fs st o = Ok (selected, st') ->
  exists sa us,
    loadArchive fs (archive o) = Ok sa /\
    mapM (turn o its sa st)
      (directionIndices (offset o) (length its) (reverse o)) = Ok us /\
    selected = applyLimit (limit o) (omap (fmap fst) us) /\
    st' = (list_to_map (rev (omap id us)) : store) ∪ st.
Proof.
  intros Hits Hoff Hfuel Hsel.
  rewrite (getItemsToDownload_fold _ _ _ _ _ _ _ _ _ _ fuel fs st o its
             Hits Hoff Hfuel) in Hsel.
  destruct (loadArchive fs (archive o)) as [sa| |];
    cbn [bind] in Hsel; try discriminate.
  destruct (mapM (turn o its sa st) _) as [us| |] eqn:Hus;
    cbn [bind] in Hsel; try discriminate.
  injection Hsel as <- <-. exists sa, us.
  split; [reflexivity|]. split; [exact Hus|].
  rewrite fold_commit_fst, fold_commit_snd. now split.
Qed.

(** X5: what the selection returns is a subsequence of the scan: of
    [feed.items] when [reverse] is unset, of its reverse when it is set; so
    the order of the feed is kept or exactly reversed, and the result has
    at most [length - offset] entries and, with a limit, at most [limit]
    entries. *)
Theorem selection_is_a_subsequence (fuel : nat) (fs : gmap string content)
  (st : store) (o : Options) (its : list loc) (selected : list loc)
  (st' : store) :
  feed_items (feed o) = Some its ->
  0 <= offset o ->
  (length its <= fuel)%nat ->
  getItemsToDownload fuel fs st o = Ok (selected, st') ->
  selected `sublist_of` (if reverse o then rev its else its) /\
  Z.of_nat (length selected) <= Z.max 0 (Z.of_nat (length its) - offset o) /\
  (forall n, limit o = Some n -> 1 <= n -> Z.of_nat (length selected) <= n).
Proof.
  intros Hits Hoff Hfuel Hsel.
  destruct (selection_returns fuel fs st o its selected st'
              Hits Hoff Hfuel Hsel) as (sa & us & _ & Hus & -> & _).
  rewrite (turns_filter _ _ _ _ _ _ _ _ o its sa st _ us Hus).
  rewrite (entriesAt_direction its (offset o) (reverse o) Hoff).
  set (scan := if reverse o then rev (take (length its - Z.to_nat (offset o)) its)
               else drop (Z.to_nat (offset o)) its).
  assert (Hsub : applyLimit (limit o) (List.filter (passes o sa st) scan)
                 `sublist_of` scan).
  { etransitivity; [apply sublist_applyLimit|apply sublist_List_filter]. }
  split; [|split].
  - etransitivity; [exact Hsub|]. subst scan. destruct (reverse o).
    + apply sublist_rev, sublist_take.
    + apply sublist_drop.
  - apply sublist_length in Hsub.
    assert (Hscan : length scan = (length its - Z.to_nat (offset o))%nat).
    { subst scan. destruct (reverse o).
      - rewrite length_rev, length_take. lia.
      - apply length_drop. }
    lia.
  - intros n Hn Hge. rewrite Hn.
    rewrite applyLimit_set by assumption.
    rewrite length_take. lia.
Qed.

Lemma item_at_ok (its : list loc) (i : Z) (l : loc) :
  item_at its i = Ok l -> 0 <= i /\ its !! Z.to_nat i = Some l.
Proof.
  unfold item_at. destruct (i <? 0) eqn:Hi; [discriminate|].
  apply Z.ltb_ge in Hi.
  destruct (its !! Z.to_nat i) as [l'|]; [|discriminate].
  intros [= ->]. now split.
Qed.

(** What a turn that commits has read and written. *)
Lemma turn_shape (o : Options) (its : list loc) (sa : value) (st : store)
  (i : Z) (l : loc) (item : Item) :
  turn o its sa st i = Ok (Some (l, item)) ->
  item_at its i = Ok l /\
  exists it url extra,
    st !! l = Some it /\
    verdict o sa it = Ok (true, url) /\
    item = annotate it i extra.
Proof.
  unfold Selector.turn. intros Hturn.
  destruct (item_at its i) as [l'| |]; cbn [bind] in Hturn; try discriminate.
  unfold deref in Hturn. destruct (st !! l') as [it|] eqn:Hl;
    cbn [bind] in Hturn; try discriminate.
  destruct (verdict o sa it) as [[isValid url]| |] eqn:Hv;
    cbn [bind] in Hturn; try discriminate.
  destruct isValid; [|discriminate].
  destruct (Selector.extraDownloads _ _ _ _ _ _ _ _) as [extra| |];
    cbn [bind] in Hturn; try discriminate.
  injection Hturn as <- <-. split; [reflexivity|].
  exists it, url, extra. repeat split; assumption.
Qed.

Lemma pairs_from_turns (o : Options) (its : list loc) (sa : value)
  (st : store) (indices : list Z) (us : list (option (loc * Item)))
  (l : loc) (item : Item) :
  mapM (turn o its sa st) indices = Ok us ->
  (l, item) ∈ omap id us ->
  exists i, i ∈ indices /\ turn o its sa st i = Ok (Some (l, item)).
Proof.
  intros Hus Hin. apply list_elem_of_omap in Hin as (u & Hu & Heq).
  simpl in Heq. subst u.
  exact (mapM_elem_inv _ _ _ _ Hus Hu).
Qed.

Lemma elem_of_rev_inv {A : Type} (l : list A) (x : A) : x ∈ rev l -> x ∈ l.
Proof.
  intros H. apply list_elem_of_In. apply in_rev. now apply list_elem_of_In.
Qed.

(** The final store, read at one location. *)
Lemma final_store_lookup (ps : list (loc * Item)) (st : store) (l : loc) :
  match ((list_to_map (rev ps) : store) ∪ st) !! l with
  | Some item => (l, item) ∈ ps \/ ((l ∉ ps.*1) /\ st !! l = Some item)
  | None => (l ∉ ps.*1) /\ st !! l = None
  end.
Proof.
  assert (Hnone : (list_to_map (rev ps) : store) !! l = None -> l ∉ ps.*1).
  { intros H Hin. apply not_elem_of_list_to_map_2 in H. apply H.
    apply list_elem_of_fmap in Hin as ([l' item] & -> & Hin).
    apply list_elem_of_fmap. exists (l', item). split; [reflexivity|].
    apply list_elem_of_In. apply -> in_rev. now apply list_elem_of_In. }
  destruct (((list_to_map (rev ps) : store) ∪ st) !! l) as [item|] eqn:Hl.
  - apply lookup_union_Some_raw in Hl as [Hl|[Hl Hst]].
    + left. apply elem_of_rev_inv. now apply elem_of_list_to_map_2.
    + right. split; [now apply Hnone|exact Hst].
  - apply lookup_union_None in Hl as [Hl Hst].
    split; [now apply Hnone|exact Hst].
Qed.

(** What a positive verdict says about the ledger. *)
Lemma verdict_not_archived (o : Options) (ledger : list value) (it : Item)
  (url : option string) :
  verdict o (VArr ledger) it = Ok (true, url) ->
  exists key,
    archiveKeyOf o it = Ok key /\ existsb (is_string key) ledger = false.
Proof.
  unfold Selector.verdict, Selector.archiveKeyOf. intros Hv.
  destruct (regexStep RegExp_new (episodeRegex o) (title it) true)
    as [v1| |]; cbn [bind] in Hv; try discriminate.
  destruct (getEpisodeAudioUrlAndExt path_extname URL_pathname it)
    as [[u ext]| |]; cbn [bind snd] in Hv |- *; try discriminate.
  eexists. split; [reflexivity|].
  unfold archiveStep in Hv. rewrite ArchiveMore.getArchiveKey_not_empty in Hv.
  cbn [negb includes bind] in Hv.
  destruct (existsb _ ledger); [discriminate|reflexivity].
Qed.

(** X6: the selection never returns an entry whose archive key is in the
    ledger it loaded; and without pattern, date bound and limit, it returns
    every scanned entry whose key is not in the ledger. *)
Theorem selected_entries_are_not_archived (fuel : nat)
  (fs : gmap string content) (st : store) (o : Options) (its : list loc)
  (ledger : list value) (selected : list loc) (st' : store) :
  feed_items (feed o) = Some its ->
  0 <= offset o ->
  (length its <= fuel)%nat ->
  loadArchive fs (archive o) = Ok (VArr ledger) ->
  getItemsToDownload fuel fs st o = Ok (selected, st') ->
  (forall l, l ∈ selected ->
     exists it key,
       st !! l = Some it /\ archiveKeyOf o it = Ok key /\
       existsb (is_string key) ledger = false) /\
  (episodeRegex o = None -> before o = None -> after o = None ->
   limit o = None ->
   forall l it key,
     l ∈ (if reverse o then take (length its - Z.to_nat (offset o)) its
          else drop (Z.to_nat (offset o)) its) ->
     st !! l = Some it -> archiveKeyOf o it = Ok key ->
     existsb (is_string key) ledger = false ->
     l ∈ selected).
Proof.
  intros Hits Hoff Hfuel Hsa Hsel.
  pose proof (getItemsToDownload_filter _ _ _ _ _ _ _ _ _ _ fuel fs st o its
                (VArr ledger) selected st' Hits Hoff Hfuel Hsa Hsel) as Hfilter.
  split.
  - intros l Hl. rewrite Hfilter in Hl.
    apply (sublist_elem_of _ _ _ (sublist_applyLimit _ _)) in Hl.
    apply list_elem_of_In, filter_In in Hl as [_ Hpass].
    unfold Selector.passes in Hpass.
    destruct (st !! l) as [it|]; [|discriminate].
    destruct (verdict o (VArr ledger) it) as [[isValid url]| |] eqn:Hv;
      try discriminate.
    subst isValid.
    destruct (verdict_not_archived o ledger it url Hv) as (key & Hkey & Hnot).
    now exists it, key.
  - intros Hre Hbefore Hafter Hlimit l it key Hscan Hl Hkey Hnot.
    rewrite Hfilter, Hlimit. unfold applyLimit. cbn [truthyLimit].
    rewrite (entriesAt_direction its (offset o) (reverse o) Hoff).
    apply list_elem_of_In, filter_In. split.
    + apply list_elem_of_In. destruct (reverse o); [|exact Hscan].
      apply list_elem_of_In, in_rev. rewrite rev_involutive.
      now apply list_elem_of_In.
    + unfold Selector.passes. rewrite Hl.
      unfold Selector.verdict. rewrite Hre, Hbefore, Hafter.
      unfold regexStep, beforeStep, afterStep. cbn [truthy bind].
      unfold Selector.archiveKeyOf in Hkey.
      destruct (getEpisodeAudioUrlAndExt path_extname URL_pathname it)
        as [[u ext]| |]; cbn [bind snd] in Hkey |- *; try discriminate.
      injection Hkey as Hkey. rewrite Hkey.
      unfold archiveStep, includes. cbn [bind]. rewrite Hnot.
      now destruct (negb _).
Qed.

(** X7: after a selection that returns, every returned entry carries the
    two annotations: [_originalIndex] is an index of [feed.items] at which
    the feed holds that very entry, and [_extra_downloads] is defined. *)
Theorem selected_entries_are_annotated (fuel : nat)
  (fs : gmap string content) (st : store) (o : Options) (its : list loc)
  (selected : list loc) (st' : store) :
  feed_items (feed o) = Some its ->
  0 <= offset o ->
  (length its <= fuel)%nat ->
  getItemsToDownload fuel fs st o = Ok (selected, st') ->
  forall l, l ∈ selected ->
    exists item i extra,
      st' !! l = Some item /\
      _originalIndex item = Some i /\
      0 <= i < Z.of_nat (length its) /\
      its !! Z.to_nat i = Some l /\
      _extra_downloads item = Some extra.
Proof.
  intros Hits Hoff Hfuel Hsel l Hl.
  destruct (selection_returns fuel fs st o its selected st'
              Hits Hoff Hfuel Hsel) as (sa & us & _ & Hus & -> & ->).
  apply (sublist_elem_of _ _ _ (sublist_applyLimit _ _)) in Hl.
  rewrite <- omap_id_fst in Hl.
  pose proof (final_store_lookup (omap id us) st l) as Hlookup.
  destruct ((_ ∪ st) !! l) as [item|]; [|now destruct Hlookup].
  destruct Hlookup as [Hpair|[Habsent _]]; [|contradiction].
  destruct (pairs_from_turns o its sa st _ us l item Hus Hpair)
    as (i & Hi & Hturn).
  destruct (turn_shape o its sa st i l item Hturn)
    as (Hat & it & url & extra & _ & _ & ->).
  destruct (item_at_ok its i l Hat) as [Hi0 Hlook].
  exists (annotate it i extra), i, extra.
  split; [reflexivity|]. split; [reflexivity|].
  split; [|split; [exact Hlook|reflexivity]].
  split; [exact Hi0|]. apply lookup_lt_Some in Hlook. lia.
Qed.

(** X8: a selection that returns writes nothing but the two annotations:
    in the final store every item has the title, dates, links and the other
    fields it had; the items outside the feed are unchanged, and so are the
    entries that do not pass the predicates. *)
Theorem selection_only_annotates (fuel : nat) (fs : gmap string content)
  (st : store) (o : Options) (its : list loc) (sa : value)
  (selected : list loc) (st' : store) :
  feed_items (feed o) = Some its ->
  0 <= offset o ->
  (length its <= fuel)%nat ->
  loadArchive fs (archive o) = Ok sa ->
  getItemsToDownload fuel fs st o = Ok (selected, st') ->
  similar st' st /\
  (forall l, l ∉ its -> st' !! l = st !! l) /\
  (forall l, passes o sa st l = false -> st' !! l = st !! l).
Proof.
  intros Hits Hoff Hfuel Hsa Hsel.
  destruct (selection_returns fuel fs st o its selected st'
              Hits Hoff Hfuel Hsel) as (sa' & us & Hsa' & Hus & _ & ->).
  rewrite Hsa in Hsa'. injection Hsa' as <-.
  assert (Hcases : forall l,
    ((list_to_map (rev (omap id us)) : store) ∪ st) !! l = st !! l \/
    exists i it url extra,
      item_at its i = Ok l /\ st !! l = Some it /\
      verdict o sa it = Ok (true, url) /\
      ((list_to_map (rev (omap id us)) : store) ∪ st) !! l
      = Some (annotate it i extra)).
  { intros l. pose proof (final_store_lookup (omap id us) st l) as Hlookup.
    destruct ((_ ∪ st) !! l) as [item|].
    - destruct Hlookup as [Hpair|[_ Hst]]; [|now left].
      destruct (pairs_from_turns o its sa st _ us l item Hus Hpair)
        as (i & _ & Hturn).
      destruct (turn_shape o its sa st i l item Hturn)
        as (Hat & it & url & extra & Hl & Hv & ->).
      right. now exists i, it, url, extra.
    - left. now destruct Hlookup as [_ ->]. }
  split; [|split].
  - intros l. destruct (Hcases l) as [->|(i & it & url & extra & _ & Hl & _ & ->)].
    + reflexivity.
    + now rewrite Hl.
  - intros l Hout.
    destruct (Hcases l) as [H|(i & it & url & extra & Hat & _)]; [exact H|].
    destruct (item_at_ok its i l Hat) as [_ Hlook].
    destruct Hout. eapply list_elem_of_lookup_2, Hlook.
  - intros l Hfail.
    destruct (Hcases l) as [H|(i & it & url & extra & _ & Hl & Hv & _)];
      [exact H|].
    unfold Selector.passes in Hfail. rewrite Hl, Hv in Hfail. discriminate.
Qed.

Lemma audioExtOfType_cases (type : option string) :
  match audioExtOfType type with
  | Some (ExtText text) => existsb (String.eqb text) VALID_AUDIO_EXTS = true
  | Some (ExtMember name) =>
      name = render type /\
      existsb (String.eqb name) OBJECT_PROTOTYPE_KEYS = true
  | None => True
  end.
Proof.
  unfold audioExtOfType, AUDIO_TYPES_TO_EXTS. cbn [find fst snd].
  repeat (destruct (String.eqb _ (render type)); [reflexivity|]).
  destruct (existsb _ OBJECT_PROTOTYPE_KEYS) eqn:E; [|exact I].
  split; [reflexivity|exact E].
Qed.

Lemma getIsAudioUrl_ext (url : option string) :
  getIsAudioUrl path_extname URL_pathname url = Ok true ->
  exists e,
    getUrlExt path_extname URL_pathname url = Ok e /\
    existsb (String.eqb e) VALID_AUDIO_EXTS = true.
Proof.
  unfold getIsAudioUrl.
  destruct (getUrlExt path_extname URL_pathname url) as [e| |];
    cbn [bind]; try discriminate.
  destruct (String.eqb e ""); [discriminate|].
  intros [= H]. now exists e.
Qed.

Lemma truthy_some (x : option string) :
  truthy x = true -> exists u, x = Some u /\ u <> "".
Proof.
  destruct x as [u|]; [|discriminate]. simpl. intros H. exists u.
  split; [reflexivity|]. intros ->. discriminate.
Qed.

(** On a platform that refuses the empty text and the text [undefined] as
    URLs, a URL with an audio extension is a non-empty text. *)
Lemma getIsAudioUrl_some (x : option string) :
  URL_pathname "undefined" = None ->
  URL_pathname "" = None ->
  getIsAudioUrl path_extname URL_pathname x = Ok true ->
  exists u, x = Some u /\ u <> "".
Proof.
  intros Hundef Hempty H. unfold getIsAudioUrl, getUrlExt in H.
  destruct x as [u|]; cbn [render] in H.
  - exists u. split; [reflexivity|]. intros ->.
    rewrite Hempty in H. discriminate.
  - rewrite Hundef in H. discriminate.
Qed.

(** The second and third attempts of [getEpisodeAudioUrlAndExt], on the
    enclosure. *)
Lemma enclosure_stage (it : Item) (url : option string) (ext : option Ext) :
  URL_pathname "undefined" = None ->
  URL_pathname "" = None ->
  (viaUrl <- (match enclosure it with
              | Some e => getIsAudioUrl path_extname URL_pathname (enc_url e)
              | None => Ok false
              end) ;;
   if viaUrl then
     ext <- getUrlExt path_extname URL_pathname (enclosure it ≫= enc_url) ;;
     Ok (enclosure it ≫= enc_url, Some (ExtText ext))
   else
     match enclosure it with
     | Some e =>
         if truthy (enc_url e) && truthyExt (audioExtOfType (enc_type e))
         then Ok (enc_url e, audioExtOfType (enc_type e))
         else Ok (None, None)
     | None => Ok (None, None)
     end) = Ok (url, ext) ->
  (url = None /\ ext = None) \/
  exists u e enc,
    url = Some u /\ ext = Some e /\ u <> "" /\
    enclosure it = Some enc /\ enc_url enc = Some u /\
    match e with
    | ExtText text => existsb (String.eqb text) VALID_AUDIO_EXTS = true
    | ExtMember name =>
        name = render (enc_type enc) /\
        existsb (String.eqb name) OBJECT_PROTOTYPE_KEYS = true
    end.
Proof.
  intros Hundef Hempty Hres.
  destruct (enclosure it) as [enc|]; cbn [bind mbind option_bind] in Hres;
    [|injection Hres as <- <-; now left].
  destruct (getIsAudioUrl path_extname URL_pathname (enc_url enc))
    as [[|]| |] eqn:Hia; cbn [bind] in Hres; try discriminate.
  - destruct (getIsAudioUrl_ext _ Hia) as (e & He & Hvalid).
    destruct (getIsAudioUrl_some _ Hundef Hempty Hia) as (u & Hu & Hne).
    rewrite He in Hres. cbn [bind] in Hres. injection Hres as <- <-.
    right. exists u, (ExtText e), enc. now repeat split.
  - destruct (truthy (enc_url enc)) eqn:Hurl; cbn [andb] in Hres;
      [|injection Hres as <- <-; now left].
    destruct (truthyExt (audioExtOfType (enc_type enc))) eqn:Htype;
      [|injection Hres as <- <-; now left].
    injection Hres as <- <-.
    destruct (truthy_some _ Hurl) as (u & Hu & Hne).
    pose proof (audioExtOfType_cases (enc_type enc)) as Hcases.
    destruct (audioExtOfType (enc_type enc)) as [e|]; [|discriminate Htype].
    right. exists u, e, enc. now repeat split.
Qed.

(** X9: on a platform that refuses the empty text and the text
    [undefined] as URLs, what [getEpisodeAudioUrlAndExt] returns is either
    the pair of nulls or a non-empty URL, taken from [link] or from the
    enclosure, together with an extension.  The extension is one of the
    six audio extensions of the table, unless the URL is the one of an
    enclosure whose type is the name of a member inherited from
    [Object.prototype]: then it is that member.  A [link] with an audio
    extension is preferred to the enclosure; and when the type of the
    enclosure names no inherited member, the extension is one of the six
    texts. *)
Theorem audio_url_and_ext_are_consistent (it : Item)
  (url : option string) (ext : option Ext) :
  URL_pathname "undefined" = None ->
  URL_pathname "" = None ->
  getEpisodeAudioUrlAndExt path_extname URL_pathname it = Ok (url, ext) ->
  ((url = None /\ ext = None) \/
   exists u e,
     url = Some u /\ ext = Some e /\ u <> "" /\
     match e with
     | ExtText text => existsb (String.eqb text) VALID_AUDIO_EXTS = true
     | ExtMember name =>
         existsb (String.eqb name) OBJECT_PROTOTYPE_KEYS = true /\
         exists enc,
           enclosure it = Some enc /\ enc_url enc = Some u /\
           render (enc_type enc) = name
     end /\
     (link it = Some u \/
      exists enc, enclosure it = Some enc /\ enc_url enc = Some u)) /\
  (truthy (link it) = true ->
   getIsAudioUrl path_extname URL_pathname (link it) = Ok true ->
   url = link it) /\
  ((forall enc, enclosure it = Some enc ->
      existsb (String.eqb (render (enc_type enc))) OBJECT_PROTOTYPE_KEYS
      = false) ->
   forall e, ext = Some e ->
     exists text,
       e = ExtText text /\
       existsb (String.eqb text) VALID_AUDIO_EXTS = true).
Proof.
  intros Hundef Hempty Hres.
  assert (Hshape :
    (url = None /\ ext = None) \/
    exists u e,
      url = Some u /\ ext = Some e /\ u <> "" /\
      match e with
      | ExtText text => existsb (String.eqb text) VALID_AUDIO_EXTS = true
      | ExtMember name =>
          existsb (String.eqb name) OBJECT_PROTOTYPE_KEYS = true /\
          exists enc,
            enclosure it = Some enc /\ enc_url enc = Some u /\
            render (enc_type enc) = name
      end /\
      (link it = Some u \/
       exists enc, enclosure it = Some enc /\ enc_url enc = Some u)).
  { assert (Hstage :
      ((url = None /\ ext = None) \/
       exists u e enc,
         url = Some u /\ ext = Some e /\ u <> "" /\
         enclosure it = Some enc /\ enc_url enc = Some u /\
         match e with
         | ExtText text => existsb (String.eqb text) VALID_AUDIO_EXTS = true
         | ExtMember name =>
             name = render (enc_type enc) /\
             existsb (String.eqb name) OBJECT_PROTOTYPE_KEYS = true
         end) ->
      (url = None /\ ext = None) \/
      exists u e,
        url = Some u /\ ext = Some e /\ u <> "" /\
        match e with
        | ExtText text => existsb (String.eqb text) VALID_AUDIO_EXTS = true
        | ExtMember name =>
            existsb (String.eqb name) OBJECT_PROTOTYPE_KEYS = true /\
            exists enc,
              enclosure it = Some enc /\ enc_url enc = Some u /\
              render (enc_type enc) = name
        end /\
        (link it = Some u \/
         exists enc, enclosure it = Some enc /\ enc_url enc = Some u)).
    { intros [H|(u & e & enc & Hu & He & Hne & Henc & Hurl & Hext)];
        [now left|].
      right. exists u, e. split; [exact Hu|]. split; [exact He|].
      split; [exact Hne|]. split; [|right; now exists enc].
      destruct e as [text|name]; [exact Hext|].
      destruct Hext as [Hname Hmember]. split; [exact Hmember|].
      exists enc. now repeat split. }
    unfold getEpisodeAudioUrlAndExt in Hres.
    destruct (truthy (link it)) eqn:Hlink; cbn [bind] in Hres.
    - destruct (getIsAudioUrl path_extname URL_pathname (link it))
        as [[|]| |] eqn:Hia; cbn [bind] in Hres; try discriminate.
      + destruct (getIsAudioUrl_ext _ Hia) as (e & He & Hvalid).
        destruct (truthy_some _ Hlink) as (u & Hu & Hne).
        rewrite He in Hres. cbn [bind] in Hres. injection Hres as <- <-.
        right. exists u, (ExtText e). repeat split; try assumption.
        now left.
      + apply Hstage, (enclosure_stage it url ext Hundef Hempty Hres).
    - apply Hstage, (enclosure_stage it url ext Hundef Hempty Hres). }
  split; [exact Hshape|]. split.
  - intros Hlink Hia. unfold getEpisodeAudioUrlAndExt in Hres.
    rewrite Hlink, Hia in Hres. cbn [bind] in Hres.
    destruct (getUrlExt path_extname URL_pathname (link it)) as [e| |];
      cbn [bind] in Hres; try discriminate.
    now injection Hres as <- _.
  - intros Hplain e He.
    destruct Hshape as [[_ Hnone]|(u & e' & _ & He' & _ & Hext & _)];
      [congruence|].
    assert (e' = e) by congruence. subst e'.
    destruct e as [text|name]; [now exists text|].
    destruct Hext as (Hmember & enc & Henc & _ & Hname).
    rewrite <- Hname, (Hplain enc Henc) in Hmember. discriminate.
Qed.

End Selection.

(** *** Examples on the concrete platform *)

(** Ten entries, offset 2, limit 3, in reverse. *)
Lemma selection_is_a_subsequence_witness :
  let o := withLimit (Sample.plain (Sample.feedOf Sample.tenItems) 2 true)
             (Some 3) in
  match Sample.select 0 10 ∅ Sample.tenEpisodes o with
  | Ok (selected, _) =>
      selected `sublist_of` rev Sample.tenItems /\
      Z.of_nat (length selected) <= 3
  | _ => False
  end.
Proof.
  intros o.
  destruct (Sample.select 0 10 ∅ Sample.tenEpisodes o)
    as [[selected st']| |] eqn:Hsel;
    [|vm_compute in Hsel; discriminate|vm_compute in Hsel; discriminate].
  destruct (selection_is_a_subsequence Sample.JSON_parse
              Sample.path_resolve_cwd Sample.path_resolve3
              Sample.path_extname Sample.URL_pathname Sample.Date_parse 0
              Sample.RegExp_new Sample.getArchiveFilename Sample.getFilename
              10 ∅ Sample.tenEpisodes o Sample.tenItems selected st'
              eq_refl ltac:(simpl; lia) ltac:(simpl; lia) Hsel)
    as (Hsub & _ & Hlimit).
  split; [exact Hsub|]. exact (Hlimit 3 eq_refl ltac:(lia)).
Defined.

(** The ledger holds the key of the entry at index 5 of ten. *)
Lemma selected_entries_are_not_archived_witness :
  let key := "example.org/feed.xml-2020-01-05T08:00:00Z-Episode five.mp3" in
  let fs : gmap string string :=
    {[ "/work/archive.json" := Sample.JSON_stringify (VArr [VStr key]) ]} in
  let o := Sample.withArchive
             (Sample.plain (Sample.feedOf Sample.tenItems) 0 false)
             (Some "archive.json") in
  match Sample.select 0 10 fs Sample.tenEpisodes o with
  | Ok (selected, _) =>
      selected = [0; 1; 2; 3; 4; 6; 7; 8; 9]%nat /\
      forall l, l ∈ selected ->
        exists it k,
          Sample.tenEpisodes !! l = Some it /\
          archiveKeyOf Sample.path_extname Sample.URL_pathname
            Sample.getArchiveFilename o it = Ok k /\
          existsb (is_string k) [VStr key] = false
  | _ => False
  end.
Proof.
  intros key fs o.
  destruct (Sample.select 0 10 fs Sample.tenEpisodes o)
    as [[selected st']| |] eqn:Hsel;
    [|vm_compute in Hsel; discriminate|vm_compute in Hsel; discriminate].
  split.
  - vm_compute in Hsel. now injection Hsel as <- _.
  - exact (proj1
      (selected_entries_are_not_archived Sample.JSON_parse
         Sample.path_resolve_cwd Sample.path_resolve3 Sample.path_extname
         Sample.URL_pathname Sample.Date_parse 0 Sample.RegExp_new
         Sample.getArchiveFilename Sample.getFilename 10 fs
         Sample.tenEpisodes o Sample.tenItems [VStr key] selected st'
         eq_refl ltac:(simpl; lia) ltac:(simpl; lia) eq_refl Hsel)).
Defined.

(** Ten entries, offset 8. *)
Lemma selected_entries_are_annotated_witness :
  let o := Sample.plain (Sample.feedOf Sample.tenItems) 8 false in
  match Sample.select 0 10 ∅ Sample.tenEpisodes o with
  | Ok (selected, st') =>
      9%nat ∈ selected /\
      exists item i extra,
        st' !! 9%nat = Some item /\
        _originalIndex item = Some i /\
        0 <= i < 10 /\
        Sample.tenItems !! Z.to_nat i = Some 9%nat /\
        _extra_downloads item = Some extra
  | _ => False
  end.
Proof.
  intros o.
  destruct (Sample.select 0 10 ∅ Sample.tenEpisodes o)
    as [[selected st']| |] eqn:Hsel;
    [|vm_compute in Hsel; discriminate|vm_compute in Hsel; discriminate].
  assert (Hin : 9%nat ∈ selected).
  { vm_compute in Hsel. injection Hsel as <- _. right. left. }
  split; [exact Hin|].
  exact (selected_entries_are_annotated Sample.JSON_parse
           Sample.path_resolve_cwd Sample.path_resolve3 Sample.path_extname
           Sample.URL_pathname Sample.Date_parse 0 Sample.RegExp_new
           Sample.getArchiveFilename Sample.getFilename 10 ∅
           Sample.tenEpisodes o Sample.tenItems selected st'
           eq_refl ltac:(simpl; lia) ltac:(simpl; lia) Hsel 9%nat Hin).
Defined.

(** Ten entries and a bound that rejects the newest one. *)
Lemma selection_only_annotates_witness :
  let o := Sample.withBefore
             (Sample.plain (Sample.feedOf Sample.tenItems) 0 false)
             (Some "2020-01-09") in
  match Sample.select 0 10 ∅ Sample.tenEpisodes o with
  | Ok (_, st') => st' !! 0%nat = Sample.tenEpisodes !! 0%nat
  | _ => False
  end.
Proof.
  intros o.
  destruct (Sample.select 0 10 ∅ Sample.tenEpisodes o)
    as [[selected st']| |] eqn:Hsel;
    [|vm_compute in Hsel; discriminate|vm_compute in Hsel; discriminate].
  exact (proj2 (proj2
    (selection_only_annotates Sample.JSON_parse
       Sample.path_resolve_cwd Sample.path_resolve3 Sample.path_extname
       Sample.URL_pathname Sample.Date_parse 0 Sample.RegExp_new
       Sample.getArchiveFilename Sample.getFilename 10 ∅
       Sample.tenEpisodes o Sample.tenItems (VArr []) selected st'
       eq_refl ltac:(simpl; lia) ltac:(simpl; lia) eq_refl Hsel))
    0%nat eq_refl).
Defined.

(** An episode with an audio link; and an episode whose enclosure has no
    audio extension and declares the type [toString]. *)
Lemma audio_url_and_ext_are_consistent_witness :
  (getEpisodeAudioUrlAndExt Sample.path_extname Sample.URL_pathname
     (Sample.episode "ten" "2020-01-10T23:00:00Z")
   = Ok (Some "https://cdn.example.org/audio/ten.mp3", Some (ExtText ".mp3")) /\
   Some "https://cdn.example.org/audio/ten.mp3"
   = link (Sample.episode "ten" "2020-01-10T23:00:00Z")) /\
  (getEpisodeAudioUrlAndExt Sample.path_extname Sample.URL_pathname
     Sample.streamed
   = Ok (Some "https://cdn.example.org/stream", Some (ExtMember "toString")) /\
   existsb (String.eqb "toString") OBJECT_PROTOTYPE_KEYS = true).
Proof.
  split.
  - split; [reflexivity|].
    exact (proj1 (proj2
      (audio_url_and_ext_are_consistent Sample.path_extname
         Sample.URL_pathname (Sample.episode "ten" "2020-01-10T23:00:00Z")
         (Some "https://cdn.example.org/audio/ten.mp3")
         (Some (ExtText ".mp3")) eq_refl eq_refl eq_refl))
      eq_refl eq_refl).
  - split; [reflexivity|].
    destruct (proj1
      (audio_url_and_ext_are_consistent Sample.path_extname
         Sample.URL_pathname Sample.streamed
         (Some "https://cdn.example.org/stream")
         (Some (ExtMember "toString")) eq_refl eq_refl eq_refl))
      as [[H _]|(u & e & _ & He & _ & Hext & _)]; [discriminate H|].
    injection He as <-. exact (proj1 Hext).
Defined.

End SelectorMore.

(** ** Further properties of the field projector *)

Module FieldsMore.

Import Js Regex Fields FieldsRef FieldsProps.

(** *** Globs without a wildcard *)

Lemma append_cons (c : ascii) (s t : string) :
  String c s +:+ t = String c (s +:+ t).
Proof. reflexivity. Qed.

Lemma strip_prefix_star (needle s : string) :
  starFree s = true ->
  strip_prefix (String "*" needle) s = None.
Proof.
  destruct s as [|c s]; [reflexivity|]. unfold starFree.
  cbn [list_ascii_of_string forallb strip_prefix].
  intros H. apply andb_true_iff in H as [H _].
  rewrite Ascii.eqb_sym. now destruct (Ascii.eqb c "*").
Qed.

Lemma replace_first_starFree (needle repl s : string) :
  starFree s = true ->
  replace_first (String "*" needle) repl s = s.
Proof.
  induction s as [|c s IH]; intros H.
  - reflexivity.
  - cbn [replace_first]. rewrite (strip_prefix_star needle _ H).
    unfold starFree in H. simpl in H. apply andb_true_iff in H as [_ H].
    now rewrite (IH H).
Qed.

Lemma escapeRegExp_starFree (g : string) :
  starFree g = true -> starFree (escapeRegExp g) = true.
Proof.
  unfold starFree. induction g as [|c g IH]; intros H; [reflexivity|].
  simpl in H. apply andb_true_iff in H as [Hc H].
  cbn [escapeRegExp]. destruct (is_special c); simpl; rewrite ?Hc, (IH H);
    reflexivity.
Qed.

Lemma globPattern_starFree (g : string) :
  starFree g = true -> globPattern g = escapeRegExp g.
Proof.
  intros H. unfold globPattern.
  rewrite (replace_first_starFree "*" ".+" (escapeRegExp g))
    by now apply escapeRegExp_starFree.
  apply replace_first_starFree. now apply escapeRegExp_starFree.
Qed.


Lemma escaped_head (g : string) :
  starFree g = true ->
  match escapeRegExp g +:+ "$" with
  | String c _ => Ascii.eqb c "+" = false /\ Ascii.eqb c "*" = false
  | EmptyString => False
  end.
Proof.
  destruct g as [|c g]; [now split|].
  unfold starFree. cbn [list_ascii_of_string forallb escapeRegExp].
  intros H. apply andb_true_iff in H as [Hc _].
  apply negb_true_iff in Hc.
  destruct (is_special c) eqn:E; rewrite !append_cons.
  - now split.
  - split; [|exact Hc].
    destruct (Ascii.eqb c "+") eqn:E'; [|reflexivity].
    apply Ascii.eqb_eq in E'. subst c. discriminate E.
Qed.

Lemma quantified_one (rest : string -> res (list piece)) (a : atom)
  (r : string) :
  match r with
  | String c _ => Ascii.eqb c "+" = false /\ Ascii.eqb c "*" = false
  | EmptyString => True
  end ->
  quantified rest a r = (ps <- rest r ;; Ok ((a, QOne) :: ps)).
Proof.
  destruct r as [|c r]; [reflexivity|]. intros [H1 H2].
  unfold quantified. now rewrite H1, H2.
Qed.

Lemma parse_body_literal (g : string) :
  starFree g = true ->
  parse_body (escapeRegExp g +:+ "$") = Ok (literal g).
Proof.
  induction g as [|c g IH]; intros H; [reflexivity|].
  pose proof H as H'. unfold starFree in H'.
  cbn [list_ascii_of_string forallb] in H'.
  apply andb_true_iff in H' as [Hc Hg]. apply negb_true_iff in Hc.
  pose proof (escaped_head g Hg) as Hhead.
  assert (Hq : forall a, quantified parse_body a (escapeRegExp g +:+ "$")
                = Ok ((a, QOne) :: literal g)).
  { intros a. rewrite quantified_one.
    - now rewrite (IH Hg).
    - destruct (escapeRegExp g +:+ "$"); [exact I|exact Hhead]. }
  cbn [escapeRegExp]. destruct (is_special c) eqn:E.
  - rewrite !append_cons. cbn [parse_body].
    change (Ascii.eqb "\" "$") with false.
    change (Ascii.eqb "\" "\") with true. cbv iota.
    rewrite E. rewrite Hq. reflexivity.
  - rewrite append_cons. cbn [parse_body].
    assert (Ascii.eqb c "$" = false) as ->.
    { destruct (Ascii.eqb c "$") eqn:E'; [|reflexivity].
      apply Ascii.eqb_eq in E'. subst c. discriminate E. }
    assert (Ascii.eqb c "\" = false) as ->.
    { destruct (Ascii.eqb c "\") eqn:E'; [|reflexivity].
      apply Ascii.eqb_eq in E'. subst c. discriminate E. }
    assert (Ascii.eqb c "." = false) as ->.
    { destruct (Ascii.eqb c ".") eqn:E'; [|reflexivity].
      apply Ascii.eqb_eq in E'. subst c. discriminate E. }
    assert (Ascii.eqb c "[" = false) as ->.
    { destruct (Ascii.eqb c "[") eqn:E'; [|reflexivity].
      apply Ascii.eqb_eq in E'. subst c. discriminate E. }
    assert (Ascii.eqb c "+" = false) as ->.
    { destruct (Ascii.eqb c "+") eqn:E'; [|reflexivity].
      apply Ascii.eqb_eq in E'. subst c. discriminate E. }
    rewrite Hc, E. cbn [orb]. rewrite Hq. reflexivity.
Qed.

Lemma matches_literal (g : string) (s : list ascii) :
  matches (literal g) s = String.eqb g (string_of_list_ascii s).
Proof.
  revert s. induction g as [|c g IH]; intros [|d s]; try reflexivity.
  unfold literal. cbn [list_ascii_of_string map matches atom_ok].
  fold (literal g). rewrite IH. reflexivity.
Qed.


(** X10: a glob without [*] compiles, whatever other characters it holds,
    to a pattern that accepts its own text and nothing else.  So the rule
    [!g] excludes exactly the key path [g], and the rule written with an
    escaped exclamation mark includes exactly the key path that starts
    with the exclamation mark. *)
Theorem literal_glob_selects_its_own_text (g : string) :
  starFree g = true ->
  exists re re',
    globToRegExp g = Ok re /\
    (forall key, test re key = String.eqb g key) /\
    processFieldRule (String "!" g)
    = Ok {| include := false; pattern := re |} /\
    processFieldRule (String "\" (String "!" g))
    = Ok {| include := true; pattern := re' |} /\
    (forall key, test re' key = String.eqb (String "!" g) key).
Proof.
  intros H.
  assert (Hlit : forall g', starFree g' = true ->
            globToRegExp g' = Ok {| pieces := literal g' |}).
  { intros g' H'. unfold globToRegExp. rewrite (globPattern_starFree _ H').
    rewrite append_cons. change ("" +:+ ?x) with x.
    unfold compile. now rewrite (parse_body_literal _ H'). }
  assert (Htest : forall g' key,
            test {| pieces := literal g' |} key = String.eqb g' key).
  { intros g' key. unfold test. cbn [pieces]. rewrite matches_literal.
    now rewrite string_of_list_ascii_of_string. }
  assert (Hbang : starFree (String "!" g) = true) by exact H.
  exists {| pieces := literal g |}, {| pieces := literal (String "!" g) |}.
  split; [now apply Hlit|]. split; [now apply Htest|].
  split; [|split; [|now apply Htest]].
  - unfold processFieldRule.
    change (startsWith (String "!" g) "!") with true. cbv iota.
    change (substring1 (String "!" g)) with g. now rewrite (Hlit _ H).
  - unfold processFieldRule.
    change (startsWith (String "\" (String "!" g)) "!") with false.
    change (startsWith (String "\" (String "!" g)) "\!") with true.
    cbv iota.
    change (substring1 (String "\" (String "!" g))) with (String "!" g).
    now rewrite (Hlit _ Hbang).
Qed.

Lemma literal_glob_selects_its_own_text_witness :
  exists re re',
    globToRegExp "itunes.image.$.href" = Ok re /\
    (forall key, test re key = String.eqb "itunes.image.$.href" key) /\
    processFieldRule "!itunes.image.$.href"
    = Ok {| include := false; pattern := re |} /\
    processFieldRule "\!itunes.image.$.href"
    = Ok {| include := true; pattern := re' |} /\
    (forall key, test re' key = String.eqb "!itunes.image.$.href" key).
Proof. exact (literal_glob_selects_its_own_text "itunes.image.$.href" eq_refl). Defined.


(** *** The glob that accepts every key path *)

Lemma globToRegExp_any : globToRegExp "**" = Ok anyRe.
Proof. reflexivity. Qed.

Lemma star_any (s : list ascii) :
  star AAny (matches []) s
  = forallb (fun c => negb (is_line_terminator c)) s.
Proof.
  induction s as [|c s IH]; [reflexivity|].
  cbn [star forallb atom_ok]. rewrite IH. reflexivity.
Qed.

Lemma test_any (key : string) : test anyRe key = plainKey key.
Proof.
  unfold test, plainKey, lineFree, anyRe. cbn [pieces matches].
  destruct key as [|c key]; cbn [list_ascii_of_string].
  - reflexivity.
  - rewrite star_any. reflexivity.
Qed.

Lemma append_assoc (a b c : string) : (a +:+ b) +:+ c = a +:+ (b +:+ c).
Proof.
  induction a as [|x a IH]; [reflexivity|].
  rewrite !append_cons. now rewrite IH.
Qed.

Lemma lineFree_append (a b : string) :
  lineFree (a +:+ b) = lineFree a && lineFree b.
Proof.
  unfold lineFree. induction a as [|c a IH]; [reflexivity|].
  rewrite append_cons. cbn [list_ascii_of_string forallb].
  rewrite IH. now rewrite andb_assoc.
Qed.

Lemma plainKey_path (fullKey key : string) :
  plainKey fullKey = true -> plainKey key = true ->
  plainKey (fullKey +:+ "." +:+ key) = true.
Proof.
  unfold plainKey. intros H1 H2.
  apply andb_true_iff in H1 as [Hne H1]. apply andb_true_iff in H2 as [_ H2].
  rewrite !lineFree_append, H1, H2.
  destruct fullKey; [discriminate Hne|reflexivity].
Qed.

Lemma solid_defined (v : value) : solid v = true -> is_undefined v = false.
Proof. now destruct v. Qed.

Lemma getToInclude_solid (v : value) :
  forall fullKey,
    plainKey fullKey = true -> solid v = true ->
    getToInclude [anyRule] v fullKey = v.
Proof.
  induction v as [| | b | n | s | items IH | entries IH] using value_induction;
    intros fullKey Hkey Hsolid; try discriminate Hsolid;
    try (cbn [getToInclude matchingRule find anyRule pattern include];
         rewrite test_any, Hkey; reflexivity).
  - cbn [getToInclude].
    assert (Hmap : map (fun item => getToInclude [anyRule] item fullKey) items
                   = items).
    { destruct items as [|x items]; [reflexivity|]. cbn [solid] in Hsolid.
      revert Hsolid IH. generalize (x :: items). clear x items.
      intros l Hsolid IH. induction IH as [|y l Hy _ IHl]; [reflexivity|].
      cbn [forallb] in Hsolid. apply andb_true_iff in Hsolid as [H1 H2].
      cbn [map]. rewrite (Hy _ Hkey H1), (IHl H2). reflexivity. }
    rewrite Hmap.
    assert (Hfilter : List.filter (fun item => negb (is_undefined item)) items
                      = items).
    { destruct items as [|x items]; [reflexivity|]. cbn [solid] in Hsolid.
      revert Hsolid. generalize (x :: items). clear.
      intros l Hsolid. induction l as [|y l IHl]; [reflexivity|].
      cbn [forallb] in Hsolid. apply andb_true_iff in Hsolid as [H1 H2].
      cbn [List.filter]. rewrite (solid_defined _ H1). cbn [negb].
      now rewrite (IHl H2). }
    rewrite Hfilter. destruct items; [discriminate Hsolid|reflexivity].
  - cbn [getToInclude].
    assert (Hall : distinct (map fst entries) = true /\
                   forallb (fun kv => is_reserved (fst kv) ||
                     (plainKey (fst kv) && ownKey (fst kv) &&
                      solid (snd kv))) entries = true).
    { destruct entries; [discriminate Hsolid|].
      cbn [solid] in Hsolid. now apply andb_true_iff in Hsolid. }
    destruct Hall as [Hdistinct Hall].
    rewrite applyEntries_omap;
      [|now apply distinct_NoDup|intros k _ Hin; inversion Hin].
    cbn [app].
    assert (Hfix :
      omap (projectEntry (getToInclude [anyRule]) (fullKey +:+ ".")) entries
      = entries).
    { apply omap_fix, List.Forall_forall. intros [k v] Hin.
      rewrite forallb_forall in Hall. specialize (Hall (k, v) Hin).
      rewrite List.Forall_forall in IH. specialize (IH (k, v) Hin).
      cbn [fst snd] in Hall, IH. unfold projectEntry. cbn [fst snd].
      destruct (is_reserved k); [reflexivity|]. cbn [orb] in Hall.
      apply andb_true_iff in Hall as [Hk Hv].
      apply andb_true_iff in Hk as [Hk Hown].
      rewrite IH; [|rewrite append_assoc; now apply plainKey_path|exact Hv].
      now rewrite (solid_defined _ Hv), Hown. }
    rewrite Hfix. destruct entries; [discriminate Hsolid|reflexivity].
Qed.

(** X11: with the single pattern [**] the projection is the identity on
    every object whose keys, at any depth outside the reserved keys, are
    not empty, hold no line terminator and are not [__proto__], and which
    holds no empty array, no empty object and no [undefined]: nested
    objects and arrays are kept whole. *)
Theorem double_star_keeps_everything (o : object) :
  solidObject o = true -> getFields o ["**"] = Ok o.
Proof.
  intros Hsolid. unfold solidObject in Hsolid.
  apply andb_true_iff in Hsolid as [Hdistinct Hall].
  change (getFields o ["**"]) with (Ok (applyFieldRules o [anyRule] "")).
  f_equal. rewrite applyFieldRules_omap by now apply distinct_NoDup.
  apply omap_fix, List.Forall_forall. intros [k v] Hin.
  rewrite forallb_forall in Hall. specialize (Hall (k, v) Hin).
  cbn [fst snd] in Hall. unfold projectEntry. cbn [fst snd].
  destruct (is_reserved k); [reflexivity|]. cbn [orb] in Hall.
  apply andb_true_iff in Hall as [Hk Hv].
  apply andb_true_iff in Hk as [Hk Hown].
  change ("" +:+ k) with k.
  rewrite (getToInclude_solid v k Hk Hv).
  now rewrite (solid_defined _ Hv), Hown.
Qed.

Lemma double_star_keeps_everything_witness :
  let o :=
    [ ("title", VStr "Episode one");
      ("enclosure", VObj [("$", VObj []); ("url", VStr "a.mp3")]);
      ("categories", VArr [VStr "news"; VObj [("_", VUndef); ("n", VNum 1)]]) ]
  in getFields o ["**"] = Ok o.
Proof.
  exact (double_star_keeps_everything
    [ ("title", VStr "Episode one");
      ("enclosure", VObj [("$", VObj []); ("url", VStr "a.mp3")]);
      ("categories", VArr [VStr "news"; VObj [("_", VUndef); ("n", VNum 1)]]) ]
    eq_refl).
Defined.


(** *** The leaves of a projection *)

(** X12: the projection keeps exactly the scalars of the object whose key
    path is included by the last declared pattern that matches it, under
    their key paths and in their order; what lies under a reserved key or
    under the key [__proto__] is not counted. *)
Theorem projection_keeps_the_included_leaves (o : object)
  (patterns : list string) (result : object) :
  wfObject o = true ->
  getFields o patterns = Ok result ->
  exists rules,
    processFieldRules patterns = Ok rules /\
    objectLeaves "" result
    = List.filter (fun pv => included (rev rules) (fst pv))
        (objectLeaves "" o).
Proof.
  intros Hwf Hget. unfold getFields in Hget.
  destruct (processFieldRules patterns) as [rules| |]; try discriminate Hget.
  cbn [Js.bind] in Hget. injection Hget as <-.
  exists rules. split; [reflexivity|].
  destruct (wf_entries _ Hwf) as [Hnd Hall].
  rewrite applyFieldRules_omap by exact Hnd.
  apply objectLeaves_projection.
  eapply Forall_impl; [exact Hall|].
  intros kv Hkv fullKey. now apply getToInclude_leaves.
Qed.


(** The entry under [__proto__] leaves nothing in the result, and its
    scalar is not counted. *)
Lemma projection_keeps_the_included_leaves_witness :
  let o :=
    [ ("title", VStr "Episode one");
      ("__proto__", VStr "shadow");
      ("enclosure", VObj [("$", VObj [("url", VStr "a.mp3")]);
                          ("length", VNum 12)]);
      ("categories", VArr [VStr "news"; VObj [("n", VNum 1)]]) ] in
  let result :=
    [ ("title", VStr "Episode one");
      ("enclosure", VObj [("$", VObj [("url", VStr "a.mp3")])]);
      ("categories", VArr [VStr "news"; VObj [("n", VNum 1)]]) ] in
  getFields o ["**"; "!enclosure.*"] = Ok result /\
  exists rules,
    processFieldRules ["**"; "!enclosure.*"] = Ok rules /\
    objectLeaves "" result
    = List.filter (fun pv => included (rev rules) (fst pv))
        (objectLeaves "" o).
Proof.
  split; [reflexivity|].
  exact (projection_keeps_the_included_leaves
    [ ("title", VStr "Episode one");
      ("__proto__", VStr "shadow");
      ("enclosure", VObj [("$", VObj [("url", VStr "a.mp3")]);
                          ("length", VNum 12)]);
      ("categories", VArr [VStr "news"; VObj [("n", VNum 1)]]) ]
    ["**"; "!enclosure.*"]
    [ ("title", VStr "Episode one");
      ("enclosure", VObj [("$", VObj [("url", VStr "a.mp3")])]);
      ("categories", VArr [VStr "news"; VObj [("n", VNum 1)]]) ]
    eq_refl eq_refl).
Defined.

(** *** Projecting twice *)

Section Twice.

Variable rules : list rule.

Abbreviation g := (getToInclude rules).

Lemma getToInclude_undefined (fullKey : string) : g VUndef fullKey = VUndef.
Proof.
  cbn [getToInclude]. destruct (matchingRule rules fullKey) as [r|];
    [destruct (include r)|]; reflexivity.
Qed.

Lemma omap_projectEntry_twice (prefix : string) (entries : object) :
  Forall (fun kv => forall fullKey,
            g (g (snd kv) fullKey) fullKey = g (snd kv) fullKey) entries ->
  omap (projectEntry g prefix) (omap (projectEntry g prefix) entries)
  = omap (projectEntry g prefix) entries.
Proof.
  induction 1 as [|[k v] entries Hv _ IH]; [reflexivity|].
  cbn [omap list_omap]. cbn [snd] in Hv.
  destruct (projectEntry g prefix (k, v)) as [kv'|] eqn:E; [|exact IH].
  cbn [omap list_omap].
  assert (Hfix : projectEntry g prefix kv' = Some kv').
  { unfold projectEntry in E |- *. cbn [fst snd] in E.
    destruct (is_reserved k) eqn:Hres.
    - injection E as <-. cbn [fst]. now rewrite Hres.
    - destruct (is_undefined (g v (prefix +:+ k)) || negb (ownKey k)) eqn:Hu;
        [discriminate E|].
      injection E as <-. cbn [fst snd]. rewrite Hres, Hv, Hu. reflexivity. }
  rewrite Hfix. now rewrite IH.
Qed.

Lemma getToInclude_twice (v : value) :
  wf v = true ->
  forall fullKey, g (g v fullKey) fullKey = g v fullKey.
Proof.
  induction v as [| | b | n | s | items IH | entries IH] using value_induction;
    intros Hwf fullKey;
    try (cbn [getToInclude];
         destruct (matchingRule rules fullKey) as [r|] eqn:Hr;
         [destruct (include r) eqn:Hi|];
         cbn [getToInclude]; rewrite Hr, ?Hi; reflexivity).
  - pose proof (wf_items _ Hwf) as Hitems.
    assert (Hfix :
      List.filter (fun item => negb (is_undefined item))
        (map (fun item => g item fullKey)
           (List.filter (fun item => negb (is_undefined item))
              (map (fun item => g item fullKey) items)))
      = List.filter (fun item => negb (is_undefined item))
          (map (fun item => g item fullKey) items)).
    { clear Hwf. induction IH as [|x l Hx _ IHl]; [reflexivity|].
      apply Forall_cons in Hitems as [Hwx Hl].
      cbn [map List.filter].
      destruct (is_undefined (g x fullKey)) eqn:Hu; cbn [negb].
      - now apply IHl.
      - cbn [map List.filter]. rewrite (Hx Hwx), Hu. cbn [negb].
        now rewrite (IHl Hl). }
    cbn [getToInclude].
    destruct (List.filter _ (map _ items)) as [|y nested] eqn:E.
    + apply getToInclude_undefined.
    + cbn [getToInclude]. now rewrite Hfix.
  - destruct (wf_entries _ Hwf) as [Hnd Hall].
    cbn [getToInclude].
    rewrite applyEntries_omap; [|exact Hnd|intros k _ Hin; inversion Hin].
    cbn [app].
    destruct (omap _ entries) as [|kv nested] eqn:E.
    + apply getToInclude_undefined.
    + cbn [getToInclude].
      rewrite applyEntries_omap; [| |intros k _ Hin; inversion Hin].
      * cbn [app]. rewrite <- E, omap_projectEntry_twice; [now rewrite E|].
        clear E Hwf Hnd. induction IH as [|x l Hx _ IHl]; [constructor|].
        apply Forall_cons in Hall as [Hwx Hl].
        constructor; [now apply Hx|now apply IHl].
      * rewrite <- E. now apply omap_keys_NoDup.
Qed.

End Twice.

(** X13: projecting the result of a projection again, with the same
    patterns, changes nothing. *)
Theorem projection_is_idempotent (o : object) (patterns : list string)
  (result : object) :
  wfObject o = true ->
  getFields o patterns = Ok result ->
  getFields result patterns = Ok result.
Proof.
  intros Hwf Hget. unfold getFields in *.
  destruct (processFieldRules patterns) as [rules| |]; try discriminate Hget.
  cbn [Js.bind] in *. injection Hget as <-. f_equal.
  destruct (wf_entries _ Hwf) as [Hnd Hall].
  rewrite (applyFieldRules_omap o) by exact Hnd.
  rewrite applyFieldRules_omap by now apply omap_keys_NoDup.
  apply omap_projectEntry_twice.
  eapply Forall_impl; [exact Hall|].
  intros kv Hkv fullKey. now apply getToInclude_twice.
Qed.

Lemma projection_is_idempotent_witness :
  let o :=
    [ ("title", VStr "Episode one");
      ("enclosure", VObj [("$", VObj [("url", VStr "a.mp3")]);
                          ("length", VNum 12)]);
      ("categories", VArr [VStr "news"; VObj [("n", VNum 1)]]) ] in
  let result :=
    [ ("title", VStr "Episode one");
      ("enclosure", VObj [("$", VObj [("url", VStr "a.mp3")])]);
      ("categories", VArr [VStr "news"]) ] in
  getFields result ["*"; "!enclosure.*"] = Ok result.
Proof.
  exact (projection_is_idempotent
    [ ("title", VStr "Episode one");
      ("enclosure", VObj [("$", VObj [("url", VStr "a.mp3")]);
                          ("length", VNum 12)]);
      ("categories", VArr [VStr "news"; VObj [("n", VNum 1)]]) ]
    ["*"; "!enclosure.*"]
    [ ("title", VStr "Episode one");
      ("enclosure", VObj [("$", VObj [("url", VStr "a.mp3")])]);
      ("categories", VArr [VStr "news"]) ]
    eq_refl eq_refl).
Defined.

(** *** Exclusions alone *)

Lemma applyEntries_ext (f f' : value -> string -> value) (prefix : string)
  (entries : object) :
  Forall (fun kv => forall fullKey, f (snd kv) fullKey = f' (snd kv) fullKey)
    entries ->
  forall result,
    applyEntries f prefix entries result
    = applyEntries f' prefix entries result.
Proof.
  induction 1 as [|[k v] entries Hv _ IH]; intros result; [reflexivity|].
  cbn [applyEntries]. cbn [snd] in Hv. rewrite Hv.
  destruct (is_reserved k); [apply IH|].
  destruct (is_undefined _); apply IH.
Qed.

Lemma getToInclude_exclusions (rules : list rule) (v : value) :
  (forall r, r ∈ rules -> include r = false) ->
  forall fullKey, getToInclude rules v fullKey = getToInclude [] v fullKey.
Proof.
  intros Hrules.
  induction v as [| | b | n | s | items IH | entries IH] using value_induction;
    intros fullKey;
    try (cbn [getToInclude]; unfold matchingRule;
         destruct (find _ rules) as [r|] eqn:Hr; [|reflexivity];
         apply find_some in Hr as [Hin _];
         rewrite (Hrules r) by (now apply list_elem_of_In); reflexivity).
  - cbn [getToInclude].
    assert (Hmap : map (fun item => getToInclude rules item fullKey) items
                   = map (fun item => getToInclude [] item fullKey) items).
    { induction IH as [|x l Hx _ IHl]; [reflexivity|].
      cbn [map]. now rewrite Hx, IHl. }
    now rewrite Hmap.
  - cbn [getToInclude]. now rewrite (applyEntries_ext _ (getToInclude []) _ _ IH).
Qed.

Lemma processFieldRule_exclusion (p : string) (r : rule) :
  startsWith p "!" = true -> processFieldRule p = Ok r -> include r = false.
Proof.
  intros Hp. unfold processFieldRule. rewrite Hp.
  destruct (globToRegExp _); [|discriminate..]. now intros [= <-].
Qed.

(** X14: patterns that are all exclusions select nothing: when they
    compile, the projection is the one of the empty pattern list. *)
Theorem exclusions_alone_select_nothing (o : object)
  (patterns : list string) (result : object) :
  forallb (fun p => startsWith p "!") patterns = true ->
  getFields o patterns = Ok result ->
  getFields o [] = Ok result.
Proof.
  intros Hall Hget. rewrite forallb_forall in Hall. unfold getFields in *.
  destruct (processFieldRules patterns) as [rules| |] eqn:Hrules;
    try discriminate Hget.
  cbn [Js.bind processFieldRules mapM rev] in *. injection Hget as <-.
  f_equal. unfold applyFieldRules. symmetry. apply applyEntries_ext.
  apply Forall_forall. intros kv _ fullKey.
  apply getToInclude_exclusions. intros r Hr.
  apply list_elem_of_In in Hr. rewrite <- in_rev in Hr.
  apply list_elem_of_In in Hr.
  apply mapM_Forall2 in Hrules.
  destruct (proj1 (list_elem_of_lookup _ _) Hr) as [i Hi].
  destruct (Forall2_lookup_r _ _ _ _ _ Hrules Hi) as (p & Hp & Hpr).
  eapply processFieldRule_exclusion; [|exact Hpr].
  apply Hall. apply list_elem_of_In. eapply list_elem_of_lookup_2. exact Hp.
Qed.

Lemma exclusions_alone_select_nothing_witness :
  let o :=
    [ ("title", VStr "Episode one");
      ("enclosure", VObj [("$", VObj [("url", VStr "a.mp3")]);
                          ("length", VNum 12)]) ] in
  getFields o [] = Ok [("enclosure", VObj [("$", VObj [("url", VStr "a.mp3")])])].
Proof.
  exact (exclusions_alone_select_nothing
    [ ("title", VStr "Episode one");
      ("enclosure", VObj [("$", VObj [("url", VStr "a.mp3")]);
                          ("length", VNum 12)]) ]
    ["!title"; "!enclosure.**"] _ eq_refl eq_refl).
Defined.

End FieldsMore.

(** ** The metadata writers *)

Module MetaProps.

Import Regex Fields Archive Meta.

(** *** The projector and the ledger complete *)

Lemma bind_completes {A B : Type} (m : res A) (k : A -> res B) :
  m <> OutOfFuel -> (forall a, k a <> OutOfFuel) -> Js.bind m k <> OutOfFuel.
Proof. destruct m; simpl; auto; discriminate. Qed.

Lemma parse_body_completes (n : nat) :
  forall s, (String.length s <= n)%nat ->
    parse_body s <> OutOfFuel /\
    (forall a, quantified parse_body a s <> OutOfFuel).
Proof.
  induction n as [|n IH]; intros s Hlen.
  - destruct s; [|simpl in Hlen; lia]. split; [discriminate|].
    intros a. discriminate.
  - assert (Hbody : forall s', (String.length s' <= n)%nat ->
              forall p, (ps <- parse_body s' ;; Ok (p :: ps)) <> OutOfFuel).
    { intros s' Hs' p. apply bind_completes; [now apply IH|discriminate]. }
    assert (Hq : forall s' a, (String.length s' <= n)%nat ->
              quantified parse_body a s' <> OutOfFuel)
      by (intros s' a Hs'; now apply IH).
    assert (Hparse : parse_body s <> OutOfFuel).
    { destruct s as [|c r]; [discriminate|]. simpl in Hlen.
      cbn [parse_body].
      destruct (Ascii.eqb c "$"); [destruct r; discriminate|].
      destruct (Ascii.eqb c "\").
      { destruct r as [|d r']; [discriminate|].
        destruct (is_special d); [|discriminate].
        apply Hq. simpl in Hlen. lia. }
      destruct (Ascii.eqb c "."); [apply Hq; lia|].
      destruct (Ascii.eqb c "[").
      { destruct r as [|[[] [] [] [] [] [] [] []] r]; try discriminate.
        destruct r as [|[[] [] [] [] [] [] [] []] r]; try discriminate.
        destruct r as [|[[] [] [] [] [] [] [] []] r]; try discriminate.
        apply Hq. simpl in Hlen. lia. }
      destruct (Ascii.eqb c "*" || Ascii.eqb c "+"); [discriminate|].
      destruct (is_special c); [discriminate|].
      apply Hq. lia. }
    split; [exact Hparse|].
    intros a. unfold quantified.
    destruct s as [|q r]; [apply bind_completes; [exact Hparse|discriminate]|].
    simpl in Hlen.
    destruct (Ascii.eqb q "+"); [apply Hbody; lia|].
    destruct (Ascii.eqb q "*"); [apply Hbody; lia|].
    apply bind_completes; [exact Hparse|discriminate].
Qed.

Lemma globToRegExp_completes (glob : string) : globToRegExp glob <> OutOfFuel.
Proof.
  unfold globToRegExp, compile.
  change ("^" +:+ globPattern glob +:+ "$")
    with (String "^" (globPattern glob +:+ "$")).
  apply bind_completes; [|discriminate].
  now apply (parse_body_completes (String.length (globPattern glob +:+ "$"))).
Qed.

Lemma mapM_completes {A B : Type} (f : A -> res B) (l : list A) :
  (forall x, f x <> OutOfFuel) -> mapM f l <> OutOfFuel.
Proof.
  intros Hf. induction l as [|x l IH]; [discriminate|].
  cbn [mapM]. apply bind_completes; [apply Hf|].
  intros y. apply bind_completes; [exact IH|discriminate].
Qed.

Lemma getFields_completes (o : object) (patterns : list string) :
  getFields o patterns <> OutOfFuel.
Proof.
  unfold getFields. apply bind_completes; [|discriminate].
  apply mapM_completes. intros p. unfold processFieldRule.
  destruct (startsWith p "!");
    [|destruct (startsWith p "\!")];
    (apply bind_completes; [apply globToRegExp_completes|discriminate]).
Qed.


(** *** The text after the last full stop *)

Lemma split_not_nil (sep : ascii) (s : string) : split sep s <> [].
Proof.
  induction s as [|c s IH]; [discriminate|]. cbn [split].
  destruct (Ascii.eqb c sep); [discriminate|].
  destruct (split sep s); [contradiction|discriminate].
Qed.

Lemma split_dotless (ext : string) :
  dotless ext = true -> split "." ext = [ext].
Proof.
  unfold dotless. induction ext as [|c ext IH]; intros H; [reflexivity|].
  cbn [list_ascii_of_string forallb] in H.
  apply andb_true_iff in H as [Hc H]. apply negb_true_iff in Hc.
  cbn [split]. rewrite Hc, (IH H). reflexivity.
Qed.

Lemma split_append (sep : ascii) (a b : string) :
  split sep (a +:+ String sep b) = split sep a ++ split sep b.
Proof.
  induction a as [|c a IH].
  - change ("" +:+ String sep b) with (String sep b).
    cbn [split]. now rewrite Ascii.eqb_refl.
  - change (String c a +:+ String sep b) with (String c (a +:+ String sep b)).
    cbn [split]. rewrite IH. destruct (Ascii.eqb c sep); [reflexivity|].
    pose proof (split_not_nil sep a) as Hne.
    destruct (split sep a) as [|h t]; [contradiction|reflexivity].
Qed.

Lemma pop_split (base ext : string) :
  dotless ext = true -> pop (split "." (base +:+ "." +:+ ext)) = ext.
Proof.
  intros Hext. unfold pop.
  change ("." +:+ ext) with (String "." ext).
  rewrite split_append, (split_dotless _ Hext).
  now rewrite last_last.
Qed.


(** *** The two writers *)

Section Writers.

Context {content : Type}.
Variable JSON_parse : content -> option value.
Variable JSON_stringify : value -> content.
Variable buildObject : value -> exn + content.
Variable path_resolve_cwd : string -> string.
Variable dirExists : string -> bool.

Abbreviation world := (@Meta.world content).
Abbreviation getIsInArchive := (Meta.getIsInArchive JSON_parse path_resolve_cwd).
Abbreviation writeToArchive :=
  (Meta.writeToArchive JSON_parse JSON_stringify path_resolve_cwd dirExists).
Abbreviation writeFileSync := (@Meta.writeFileSync content dirExists).
Abbreviation inArchive := (Meta.inArchive JSON_parse path_resolve_cwd).
Abbreviation notInArchive := (Meta.notInArchive JSON_parse path_resolve_cwd).
Abbreviation archiveKey :=
  (Meta.archiveKey JSON_parse JSON_stringify path_resolve_cwd dirExists).
Abbreviation writeMeta :=
  (Meta.writeMeta JSON_stringify buildObject dirExists).
Abbreviation recordKey :=
  (Meta.recordKey JSON_parse JSON_stringify path_resolve_cwd dirExists).
Abbreviation saveMeta :=
  (Meta.saveMeta JSON_parse JSON_stringify buildObject path_resolve_cwd
     dirExists).
Abbreviation writeFeedMeta :=
  (Meta.writeFeedMeta JSON_parse JSON_stringify buildObject path_resolve_cwd
     dirExists).
Abbreviation writeItemMeta :=
  (Meta.writeItemMeta JSON_parse JSON_stringify buildObject path_resolve_cwd
     dirExists).
Abbreviation confinedTo := (@Meta.confinedTo content path_resolve_cwd).

Lemma writeFeedMeta_saveMeta (outputPath : string) (feed : object)
  (key archive : option string) (override : bool) (fields : list string) :
  writeFeedMeta outputPath feed key archive override fields
  = saveMeta "Feed metadata exists in archive. Skipping..."
      "Feed metadata exists locally. Skipping..."
      (fun metadata => obj_delete metadata "items") feedInner feedOuter
      outputPath feed key archive override fields.
Proof. reflexivity. Qed.

Lemma writeItemMeta_saveMeta (marker outputPath : string) (item : object)
  (key archive : option string) (override : bool) (fields : list string) :
  writeItemMeta marker outputPath item key archive override fields
  = saveMeta (marker +:+ " | Episode metadata exists in archive. Skipping...")
      (marker +:+ " | Episode metadata exists locally. Skipping...")
      (fun metadata => metadata) itemInner itemOuter
      outputPath item key archive override fields.
Proof. reflexivity. Qed.

(** **** Invariants of the world *)

Lemma keeps_ret {A : Type} (I : world -> Prop) (a : A) (Q : A -> Prop) :
  Q a -> keeps I (ret a) Q.
Proof. intros Ha w Hw. split; [exact Hw|]. now intros ? [= <-]. Qed.

Lemma keeps_throw {A : Type} (I : world -> Prop) (e : exn) (Q : A -> Prop) :
  keeps I (throw e) Q.
Proof. intros w Hw. split; [exact Hw|]. intros ? [=]. Qed.

Lemma keeps_lift {A : Type} (I : world -> Prop) (m : res A) :
  keeps I (lift m) (fun _ => True).
Proof. intros w Hw. split; [exact Hw|trivial]. Qed.

Lemma keeps_bind {A B : Type} (I : world -> Prop) (m : M A) (k : A -> M B)
  (Q : A -> Prop) (R : B -> Prop) :
  keeps I m Q -> (forall a, Q a -> keeps I (k a) R) -> keeps I (bindM m k) R.
Proof.
  intros Hm Hk w Hw. unfold bindM. destruct (Hm w Hw) as [Hw' Hq].
  destruct (m w) as [[a|e|] w']; cbn [fst snd] in *.
  - apply (Hk a); [now apply Hq|exact Hw'].
  - split; [exact Hw'|]. intros ? [=].
  - split; [exact Hw'|]. intros ? [=].
Qed.

Lemma keeps_tryCatch {A : Type} (I : world -> Prop) (m : M A)
  (handler : exn -> M A) (Q : A -> Prop) :
  keeps I m Q -> (forall e, keeps I (handler e) Q) ->
  keeps I (tryCatch m handler) Q.
Proof.
  intros Hm Hh w Hw. unfold tryCatch. destruct (Hm w Hw) as [Hw' Hq].
  destruct (m w) as [[a|e|] w']; cbn [fst snd] in *.
  - split; [exact Hw'|exact Hq].
  - now apply Hh.
  - split; [exact Hw'|]. intros ? [=].
Qed.

Section Invariant.

Variable I : world -> Prop.
Variable archive : option string.

(** The invariant survives a message and a write of the ledger. *)
Hypothesis I_log : forall w message,
  I w -> I {| files := files w; logged := logged w ++ [message] |}.
Hypothesis I_ledger : forall w a data,
  archive = Some a -> I w ->
  I {| files := <[path_resolve_cwd a := data]> (files w);
       logged := logged w |}.

Lemma keeps_logMessage (message : string) :
  keeps I (logMessage message) (fun _ => True).
Proof. intros w Hw. split; [now apply I_log|trivial]. Qed.

Lemma keeps_inArchive (key : option string) :
  keeps I (inArchive key archive) (fun _ => True).
Proof.
  intros w Hw. split; [|trivial]. unfold Meta.inArchive.
  destruct key as [k|], archive as [a|]; try exact Hw.
  destruct (truthy (Some k) && truthy (Some a)); exact Hw.
Qed.

Lemma keeps_notInArchive (key : option string) :
  keeps I (notInArchive key archive) (fun _ => True).
Proof.
  intros w Hw. split; [|trivial]. unfold Meta.notInArchive.
  destruct key as [k|], archive as [a|]; try exact Hw.
  destruct (truthy (Some k) && truthy (Some a)); [|exact Hw].
  unfold bindM, Meta.getIsInArchive, lift.
  destruct (Archive.getIsInArchive _ _ _ _ _); exact Hw.
Qed.

Lemma keeps_archiveKey (key : option string) :
  keeps I (archiveKey key archive) (fun _ => True).
Proof.
  intros w Hw. split; [|trivial]. unfold Meta.archiveKey.
  destruct key as [k|], archive as [a|] eqn:Ha; try exact Hw.
  unfold Meta.writeToArchive, Archive.writeToArchive.
  destruct (Archive.getArchive _ _ _ _) as [v| |]; cbn [Js.bind];
    try exact Hw.
  destruct (includes v k) as [present| |]; cbn [Js.bind]; try exact Hw.
  destruct (if negb present then push v k else Ok v) as [v'| |];
    cbn [Js.bind snd]; try exact Hw.
  unfold Archive.writeFileSync.
  destruct (_ || _); cbn [snd]; [now apply I_ledger|exact Hw].
Qed.

Lemma keeps_recordKey (inner : exn -> exn) (key : option string) :
  keeps I (recordKey inner key archive) (fun _ => True).
Proof.
  unfold Meta.recordKey.
  eapply keeps_bind; [apply keeps_notInArchive|]. intros missing _.
  destruct missing; [|now apply keeps_ret].
  apply keeps_tryCatch; [apply keeps_archiveKey|].
  intros e. apply keeps_throw.
Qed.

Lemma keeps_writeFileSync (path : string) (data : content) :
  (forall w text, I w ->
     I {| files := <[path := text]> (files w); logged := logged w |}) ->
  keeps I (writeFileSync path data) (fun _ => True).
Proof.
  intros Hwrite w Hw. split; [|trivial].
  unfold Meta.writeFileSync, Archive.writeFileSync.
  destruct (_ || _); cbn [snd]; [now apply Hwrite|exact Hw].
Qed.

Lemma keeps_writeMeta (path : string) (data : value) :
  (forall w text, I w ->
     I {| files := <[path := text]> (files w); logged := logged w |}) ->
  keeps I (writeMeta path data) (fun _ => True).
Proof.
  intros Hwrite. unfold Meta.writeMeta.
  destruct (String.eqb _ "json"); [now apply keeps_writeFileSync|].
  destruct (String.eqb _ "xml"); [|apply keeps_throw].
  destruct (buildObject data);
    [apply keeps_throw|now apply keeps_writeFileSync].
Qed.

Lemma keeps_saveMeta (archivedMessage localMessage : string)
  (strip : object -> object) (inner outer : exn -> exn)
  (outputPath : string) (source : object) (key : option string)
  (override : bool) (fields : list string) :
  (override = true \/ (exists w, I w /\ files w !! outputPath = None) ->
   forall w text, I w ->
     I {| files := <[outputPath := text]> (files w); logged := logged w |}) ->
  keeps I
    (saveMeta archivedMessage localMessage strip inner outer outputPath
       source key archive override fields) (fun _ => True).
Proof.
  intros Hwrite. unfold Meta.saveMeta.
  eapply keeps_bind; [apply keeps_inArchive|]. intros archived _.
  destruct archived; [apply keeps_logMessage|].
  eapply keeps_bind; [apply keeps_lift|]. intros metadata _.
  apply keeps_tryCatch; [|intros e; apply keeps_throw].
  eapply (keeps_bind _ _ _
            (fun present => present = false ->
               exists w, I w /\ files w !! outputPath = None)).
  - intros w Hw. split; [exact Hw|]. intros present [= <-].
    destruct (files w !! outputPath) eqn:E; [discriminate|].
    intros _. now exists w.
  - intros present Hpresent.
    eapply keeps_bind; [|intros _ _; apply keeps_recordKey].
    destruct (override || negb present) eqn:E; [|apply keeps_logMessage].
    apply keeps_writeMeta. apply Hwrite.
    destruct override; [now left|right].
    apply Hpresent. now destruct present.
Qed.

End Invariant.

Lemma saveMeta_confinedTo (archivedMessage localMessage : string)
  (strip : object -> object) (inner outer : exn -> exn)
  (outputPath : string) (source : object) (key archive : option string)
  (override : bool) (fields : list string) (w : world) :
  confinedTo outputPath archive override w
    (snd (saveMeta archivedMessage localMessage strip inner outer outputPath
            source key archive override fields w)).
Proof.
  split; [|split].
  - intros p Hp Hledger.
    refine (proj1 (keeps_saveMeta
      (fun w' => files w' !! p = files w !! p) archive _ _ _ _ _ _ _ _ _ _
      _ _ _ w eq_refl)).
    + intros w' message H. exact H.
    + intros w' a data Ha H. cbn [files].
      rewrite lookup_insert_ne; [exact H|]. intros Heq.
      now apply (Hledger a Ha).
    + intros _ w' text H. cbn [files].
      rewrite lookup_insert_ne; [exact H|]. congruence.
  - intros Hoverride [c Hc] Hledger.
    refine (proj1 (keeps_saveMeta
      (fun w' => files w' !! outputPath = files w !! outputPath) archive
      _ _ _ _ _ _ _ _ _ _ _ _ _ w eq_refl)).
    + intros w' message H. exact H.
    + intros w' a data Ha H. cbn [files].
      rewrite lookup_insert_ne; [exact H|]. intros Heq.
      now apply (Hledger a Ha).
    + intros [Ho|(w' & Hw' & Hnone)]; [congruence|].
      rewrite Hw', Hc in Hnone. discriminate Hnone.
  - refine (proj1 (keeps_saveMeta
      (fun w' => logged w `prefix_of` logged w') archive
      _ _ _ _ _ _ _ _ _ _ _ _ _ w _)).
    + intros w' message H. cbn [logged]. now apply prefix_app_r.
    + intros w' a data Ha H. exact H.
    + intros _ w' text H. exact H.
    + reflexivity.
Qed.


(** **** Completion *)

Lemma getArchive_completes (fs : gmap string content) (a : string) :
  Archive.getArchive JSON_parse path_resolve_cwd fs a <> OutOfFuel.
Proof.
  unfold Archive.getArchive. destruct (fs !! _); [|discriminate].
  destruct (JSON_parse _); discriminate.
Qed.

Lemma includes_completes (v : value) (k : string) : includes v k <> OutOfFuel.
Proof. destruct v; discriminate. Qed.

Lemma push_completes (v : value) (k : string) : push v k <> OutOfFuel.
Proof. destruct v; discriminate. Qed.

Lemma getIsInArchive_completes (fs : gmap string content) (k a : string) :
  Archive.getIsInArchive JSON_parse path_resolve_cwd fs k a <> OutOfFuel.
Proof.
  unfold Archive.getIsInArchive.
  apply bind_completes; [apply getArchive_completes|].
  intros v. apply includes_completes.
Qed.

Lemma writeFileSync_completes (fs : gmap string content) (path : string)
  (data : content) :
  Archive.writeFileSync dirExists fs path data <> OutOfFuel.
Proof. unfold Archive.writeFileSync. destruct (_ || _); discriminate. Qed.

Lemma writeToArchive_completes (fs : gmap string content) (k a : string) :
  Archive.writeToArchive JSON_parse JSON_stringify path_resolve_cwd dirExists
    fs k a
  <> OutOfFuel.
Proof.
  unfold Archive.writeToArchive.
  apply bind_completes; [apply getArchive_completes|]. intros v.
  apply bind_completes; [apply includes_completes|]. intros present.
  apply bind_completes; [|intros v'; apply writeFileSync_completes].
  destruct (negb present); [apply push_completes|discriminate].
Qed.

Lemma completes_bind {A B : Type} (m : @M content A) (k : A -> M B) :
  completes m -> (forall a, completes (k a)) -> completes (bindM m k).
Proof.
  intros Hm Hk w. unfold bindM. specialize (Hm w).
  destruct (m w) as [[a|e|] w']; cbn [fst] in *;
    [apply Hk|discriminate|contradiction].
Qed.

Lemma completes_tryCatch {A : Type} (m : @M content A)
  (handler : exn -> M A) :
  completes m -> (forall e, completes (handler e)) ->
  completes (tryCatch m handler).
Proof.
  intros Hm Hh w. unfold tryCatch. specialize (Hm w).
  destruct (m w) as [[a|e|] w']; cbn [fst] in *;
    [discriminate|apply Hh|contradiction].
Qed.

Lemma completes_inArchive (key archive : option string) :
  completes (inArchive key archive).
Proof.
  intros w. unfold Meta.inArchive.
  destruct key as [k|], archive as [a|]; try discriminate.
  destruct (truthy (Some k) && truthy (Some a)); [|discriminate].
  unfold Meta.getIsInArchive, lift. cbn [fst].
  pose proof (getIsInArchive_completes (files w) k a) as H.
  destruct (Archive.getIsInArchive _ _ _ _ _);
    [discriminate|discriminate|contradiction].
Qed.

Lemma completes_recordKey (inner : exn -> exn) (key archive : option string) :
  completes (recordKey inner key archive).
Proof.
  unfold Meta.recordKey. apply completes_bind.
  - intros w. unfold Meta.notInArchive.
    destruct key as [k|], archive as [a|]; try discriminate.
    destruct (truthy (Some k) && truthy (Some a)); [|discriminate].
    unfold bindM, Meta.getIsInArchive, lift.
    pose proof (getIsInArchive_completes (files w) k a) as H.
    destruct (Archive.getIsInArchive _ _ _ _ _);
      [discriminate|discriminate|contradiction].
  - intros missing. destruct missing; [|discriminate].
    apply completes_tryCatch; [|discriminate].
    intros w. unfold Meta.archiveKey.
    destruct key as [k|], archive as [a|]; try discriminate.
    unfold Meta.writeToArchive.
    pose proof (writeToArchive_completes (files w) k a) as H.
    destruct (Archive.writeToArchive _ _ _ _ _ _ _);
      [discriminate|discriminate|contradiction].
Qed.

Lemma completes_writeMeta (path : string) (data : value) :
  completes (writeMeta path data).
Proof.
  assert (Hwrite : forall text, completes (writeFileSync path text)).
  { intros text w. unfold Meta.writeFileSync.
    pose proof (writeFileSync_completes (files w) path text) as H.
    destruct (Archive.writeFileSync _ _ _ _);
      [discriminate|discriminate|contradiction]. }
  unfold Meta.writeMeta.
  destruct (String.eqb _ "json"); [apply Hwrite|].
  destruct (String.eqb _ "xml"); [|intros w; discriminate].
  destruct (buildObject data); [intros w; discriminate|apply Hwrite].
Qed.

Lemma inArchive_pure (key archive : option string) (w : world) :
  exists r, inArchive key archive w = (r, w) /\
            (forall e, r = Exc e -> exists e', e = Native e').
Proof.
  unfold Meta.inArchive.
  destruct key as [k|], archive as [a|];
    try (eexists; split; [reflexivity|discriminate]).
  destruct (truthy (Some k) && truthy (Some a));
    [|eexists; split; [reflexivity|discriminate]].
  unfold Meta.getIsInArchive, lift.
  eexists; split; [reflexivity|].
  destruct (Archive.getIsInArchive _ _ _ _ _); try discriminate.
  intros ? [= <-]. now eexists.
Qed.

Lemma saveMeta_completion (archivedMessage localMessage : string)
  (strip : object -> object) (inner outer : exn -> exn)
  (outputPath : string) (source : object) (key archive : option string)
  (override : bool) (fields : list string) (w : world) :
  let completion :=
    saveMeta archivedMessage localMessage strip inner outer outputPath
      source key archive override fields w in
  fst completion = Val tt \/
  (exists e, completion = (Exc (Native e), w)) \/
  (exists e, fst completion = Exc (outer e)).
Proof.
  intros completion.
  assert (Hc : completion
    = saveMeta archivedMessage localMessage strip inner outer outputPath
        source key archive override fields w) by reflexivity.
  clearbody completion. unfold Meta.saveMeta in Hc. unfold bindM at 1 in Hc.
  destruct (inArchive_pure key archive w) as (r & Hr0 & Hr).
  pose proof (completes_inArchive key archive w) as Hin.
  rewrite Hr0 in Hc, Hin. cbn [fst] in Hin.
  destruct r as [archived|e|]; [|right; left|contradiction].
  2:{ destruct (Hr e eq_refl) as [e' ->]. now exists e'. }
  destruct archived; [left; now subst completion|].
  unfold bindM at 1 in Hc. unfold lift at 1 in Hc.
  pose proof (getFields_completes source fields) as Hg.
  destruct (getFields source fields) as [metadata|e|];
    [|right; left; now exists e|contradiction].
  match type of Hc with
  | context [tryCatch ?m ?h w] =>
      assert (Hbody : completes m)
  end.
  { apply completes_bind; [intros w0; discriminate|]. intros present.
    apply completes_bind; [|intros _; apply completes_recordKey].
    destruct (override || negb present);
      [apply completes_writeMeta|intros w0; discriminate]. }
  unfold tryCatch in Hc. specialize (Hbody w).
  match type of Hc with
  | context [match ?m w with _ => _ end] => destruct (m w) as [[u|e|] w']
  end; cbn [fst] in *; subst completion.
  - left. now destruct u.
  - right. right. now exists e.
  - contradiction.
Qed.


(** **** Runs of the writers *)

Lemma bindM_val {A B : Type} (m : @M content A) (k : A -> M B)
  (w w' : world) (a : A) :
  m w = (Val a, w') -> bindM m k w = k a w'.
Proof. intros H. unfold bindM. now rewrite H. Qed.

Lemma bindM_exc {A B : Type} (m : @M content A) (k : A -> M B)
  (w w' : world) (e : exn) :
  m w = (Exc e, w') -> bindM m k w = (Exc e, w').
Proof. intros H. unfold bindM. now rewrite H. Qed.

Lemma tryCatch_val {A : Type} (m : @M content A) (handler : exn -> M A)
  (w w' : world) (a : A) :
  m w = (Val a, w') -> tryCatch m handler w = (Val a, w').
Proof. intros H. unfold tryCatch. now rewrite H. Qed.

Lemma tryCatch_exc {A : Type} (m : @M content A) (handler : exn -> M A)
  (w w' : world) (e : exn) :
  m w = (Exc e, w') -> tryCatch m handler w = handler e w'.
Proof. intros H. unfold tryCatch. now rewrite H. Qed.

Lemma tryCatch_world {A : Type} (m : @M content A) (f : exn -> exn)
  (w : world) :
  snd (tryCatch m (fun e => throw (f e)) w) = snd (m w).
Proof. unfold tryCatch. now destruct (m w) as [[a|e|] w']. Qed.

Lemma getArchive_insert_ne (fs : gmap string content) (p a : string)
  (data : content) :
  p <> path_resolve_cwd a ->
  Archive.getArchive JSON_parse path_resolve_cwd (<[p := data]> fs) a
  = Archive.getArchive JSON_parse path_resolve_cwd fs a.
Proof.
  intros Hp. unfold Archive.getArchive. now rewrite lookup_insert_ne.
Qed.

Lemma inArchive_absent (key archive : option string) (w : world) :
  (forall k a, key = Some k -> archive = Some a ->
     Archive.getIsInArchive JSON_parse path_resolve_cwd (files w) k a
     = Ok false) ->
  inArchive key archive w = (Val false, w).
Proof.
  intros H. unfold Meta.inArchive.
  destruct key as [k|], archive as [a|]; try reflexivity.
  destruct (truthy (Some k) && truthy (Some a)); [|reflexivity].
  unfold Meta.getIsInArchive, lift. now rewrite (H k a).
Qed.

Lemma existsSync_run (path : string) (w : world) :
  existsSync path w
  = (Val (match files w !! path with Some _ => true | None => false end), w).
Proof. reflexivity. Qed.

Lemma writeMeta_invalid (base ext : string) (data : value) (w : world) :
  dotless ext = true ->
  String.eqb ext "json" = false -> String.eqb ext "xml" = false ->
  writeMeta (base +:+ "." +:+ ext) data w
  = (Exc (Error ("Invalid metadata path " +:+ base +:+ "." +:+ ext)), w).
Proof.
  intros Hext Hjson Hxml. unfold Meta.writeMeta.
  rewrite (pop_split base ext Hext), Hjson, Hxml. reflexivity.
Qed.

Lemma writeMeta_json (base : string) (data : value) (w : world) :
  Archive.existsSync (files w) (base +:+ ".json")
  || dirExists (base +:+ ".json") = true ->
  writeMeta (base +:+ ".json") data w
  = (Val tt, {| files := <[base +:+ ".json" := JSON_stringify data]> (files w);
                logged := logged w |}).
Proof.
  intros Hdir. unfold Meta.writeMeta.
  change (base +:+ ".json") with (base +:+ "." +:+ "json") at 1.
  rewrite (pop_split base "json" eq_refl). cbn [String.eqb Ascii.eqb Bool.eqb].
  unfold Meta.writeFileSync, Archive.writeFileSync. now rewrite Hdir.
Qed.

Lemma writeMeta_json_missing (base : string) (data : value) (w : world) :
  Archive.existsSync (files w) (base +:+ ".json")
  || dirExists (base +:+ ".json") = false ->
  writeMeta (base +:+ ".json") data w
  = (Exc (Native (SystemError
                    ("ENOENT: no such file or directory, open '" +:+
                     (base +:+ ".json") +:+ "'"))), w).
Proof.
  intros Hdir. unfold Meta.writeMeta.
  change (base +:+ ".json") with (base +:+ "." +:+ "json") at 1.
  rewrite (pop_split base "json" eq_refl). cbn [String.eqb Ascii.eqb Bool.eqb].
  unfold Meta.writeFileSync, Archive.writeFileSync. now rewrite Hdir.
Qed.

Lemma existsSync_insert_ne (fs : gmap string content) (p q : string)
  (data : content) :
  p <> q ->
  Archive.existsSync (<[q := data]> fs) p = Archive.existsSync fs p.
Proof.
  intros Hne. unfold Archive.existsSync. now rewrite lookup_insert_ne.
Qed.

(** X17: with a metadata path whose text after the last full stop is
    neither [json] nor [xml], a writer that has to write (the key is not in
    the ledger, and [override] is set or the file does not exist) throws its
    [Error] and leaves no trace: no file is written, the key is not
    recorded, nothing is logged. *)
Theorem invalid_metadata_path_leaves_no_trace (marker base ext : string)
  (source metadata : object) (key archive : option string)
  (override : bool) (fields : list string) (w : world) :
  dotless ext = true ->
  String.eqb ext "json" = false -> String.eqb ext "xml" = false ->
  (forall k a, key = Some k -> archive = Some a ->
     Archive.getIsInArchive JSON_parse path_resolve_cwd (files w) k a
     = Ok false) ->
  getFields source fields = Ok metadata ->
  override = true \/ files w !! (base +:+ "." +:+ ext) = None ->
  writeItemMeta marker (base +:+ "." +:+ ext) source key archive override
    fields w
  = (Exc (Error "Unable to save meta file for episode"), w) /\
  writeFeedMeta (base +:+ "." +:+ ext) source key archive override fields w
  = (Exc (Error ("Unable to save metadata file for feed: "
                 +:+ "Error: Invalid metadata path "
                 +:+ base +:+ "." +:+ ext)), w).
Proof.
  intros Hext Hjson Hxml Hledger Hfields Hwrite.
  assert (Hbranch :
    override
    || negb (match files w !! (base +:+ "." +:+ ext) with
             | Some _ => true
             | None => false
             end) = true).
  { destruct Hwrite as [->| ->]; [reflexivity|apply orb_true_r]. }
  rewrite writeFeedMeta_saveMeta, writeItemMeta_saveMeta.
  unfold Meta.saveMeta.
  rewrite !(bindM_val _ _ _ _ _ (inArchive_absent key archive w Hledger)).
  cbv iota. unfold lift. rewrite Hfields.
  assert (Hbody : forall (data : value) (message : string) (rest : M unit),
    bindM (existsSync (base +:+ "." +:+ ext)) (fun present =>
      bindM (if override || negb present
             then writeMeta (base +:+ "." +:+ ext) data
             else logMessage message) (fun _ => rest)) w
    = (Exc (Error ("Invalid metadata path " +:+ base +:+ "." +:+ ext)), w)).
  { intros data message rest.
    erewrite bindM_val by apply existsSync_run. rewrite Hbranch.
    erewrite bindM_exc; [reflexivity|]. now apply writeMeta_invalid. }
  split.
  - erewrite bindM_val by reflexivity.
    erewrite tryCatch_exc by apply Hbody. reflexivity.
  - erewrite bindM_val by reflexivity.
    erewrite tryCatch_exc by apply Hbody. reflexivity.
Qed.

Lemma obj_delete_keys (o : object) (key : string) :
  key ∉ keys (obj_delete o key).
Proof.
  unfold keys, obj_delete. intros Hin.
  apply list_elem_of_fmap in Hin as (kv & Hk & Hin).
  apply list_elem_of_In, filter_In in Hin as [_ Hne].
  apply negb_true_iff, String.eqb_neq in Hne. now apply Hne.
Qed.

Lemma obj_delete_other (o : object) (key : string) (kv : string * value) :
  kv ∈ o -> fst kv <> key -> kv ∈ obj_delete o key.
Proof.
  intros Hin Hne. unfold obj_delete. apply list_elem_of_In, filter_In.
  split; [now apply list_elem_of_In|].
  now apply negb_true_iff, String.eqb_neq.
Qed.

Lemma obj_delete_sublist (o : object) (key : string) :
  obj_delete o key `sublist_of` o.
Proof.
  unfold obj_delete. induction o as [|kv o IH]; [constructor|].
  cbn [List.filter]. destruct (negb _); now constructor.
Qed.

(** X18: when the feed writer has to write a [.json] file that is not the
    ledger.  If the file or the directory that is to hold it exists, the
    file holds, however the call ends, the projection of the feed without
    its entry [items]: the other entries are kept, in their order.  If
    neither exists, the writer throws its [Error] with the message of
    [fs.writeFileSync], and nothing is written or logged. *)
Theorem feed_metadata_file_has_no_items (base : string)
  (feed metadata : object) (key archive : option string) (override : bool)
  (fields : list string) (w : world) :
  (forall k a, key = Some k -> archive = Some a ->
     Archive.getIsInArchive JSON_parse path_resolve_cwd (files w) k a
     = Ok false) ->
  getFields feed fields = Ok metadata ->
  override = true \/ files w !! (base +:+ ".json") = None ->
  (forall a, archive = Some a -> base +:+ ".json" <> path_resolve_cwd a) ->
  (Archive.existsSync (files w) (base +:+ ".json")
   || dirExists (base +:+ ".json") = true ->
   exists written,
     files (snd (writeFeedMeta (base +:+ ".json") feed key archive override
                   fields w)) !! (base +:+ ".json")
     = Some (JSON_stringify (VObj written)) /\
     ("items" ∉ keys written) /\
     (written `sublist_of` metadata) /\
     (forall kv, kv ∈ metadata -> fst kv <> "items" -> kv ∈ written)) /\
  (Archive.existsSync (files w) (base +:+ ".json")
   || dirExists (base +:+ ".json") = false ->
   writeFeedMeta (base +:+ ".json") feed key archive override fields w
   = (Exc (Error ("Unable to save metadata file for feed: "
                  +:+ "Error: ENOENT: no such file or directory, open '"
                  +:+ (base +:+ ".json") +:+ "'")), w)).
Proof.
  intros Hledger Hfields Hwrite Hpath.
  assert (Hbranch :
    override
    || negb (match files w !! (base +:+ ".json") with
             | Some _ => true
             | None => false
             end) = true).
  { destruct Hwrite as [->| ->]; [reflexivity|apply orb_true_r]. }
  split; intros Hdir.
  - exists (obj_delete metadata "items").
    split; [|split; [apply obj_delete_keys|split;
      [apply obj_delete_sublist|intros kv; apply obj_delete_other]]].
    rewrite writeFeedMeta_saveMeta. unfold Meta.saveMeta.
    rewrite (bindM_val _ _ _ _ _ (inArchive_absent key archive w Hledger)).
    cbv iota. unfold lift. rewrite Hfields.
    erewrite bindM_val by reflexivity.
    rewrite tryCatch_world.
    erewrite bindM_val by apply existsSync_run. rewrite Hbranch.
    erewrite bindM_val by (apply writeMeta_json; exact Hdir).
    refine (proj1 (keeps_recordKey
      (fun w' => files w' !! (base +:+ ".json")
                 = Some (JSON_stringify
                           (VObj (obj_delete metadata "items"))))
      archive _ feedInner key _ _)).
    + intros w' a data Ha H. cbn [files].
      rewrite lookup_insert_ne; [exact H|]. intros Heq.
      now apply (Hpath a Ha).
    + cbn [files]. apply lookup_insert_eq.
  - rewrite writeFeedMeta_saveMeta. unfold Meta.saveMeta.
    rewrite (bindM_val _ _ _ _ _ (inArchive_absent key archive w Hledger)).
    cbv iota. unfold lift. rewrite Hfields.
    erewrite bindM_val by reflexivity.
    assert (Hbody : forall (data : value) (message : string) (rest : M unit),
      bindM (existsSync (base +:+ ".json")) (fun present =>
        bindM (if override || negb present
               then writeMeta (base +:+ ".json") data
               else logMessage message) (fun _ => rest)) w
      = (Exc (Native (SystemError
                        ("ENOENT: no such file or directory, open '" +:+
                         (base +:+ ".json") +:+ "'"))), w)).
    { intros data message rest.
      erewrite bindM_val by apply existsSync_run. rewrite Hbranch.
      erewrite bindM_exc; [reflexivity|].
      now apply writeMeta_json_missing. }
    erewrite tryCatch_exc by apply Hbody. reflexivity.
Qed.


End Writers.

(** The files hold values and are written as they are; the ledger of the
    episode starts with one key. *)
Lemma invalid_metadata_path_leaves_no_trace_witness :
  let w : @Meta.world value :=
    {| files := {[ "/work/archive.json" := VArr [VStr "feed-one.mp3"] ]};
       logged := [] |} in
  Meta.writeItemMeta Some id inr Sample.path_resolve_cwd Sample.dirExists
    "1 of 1"
    "/work/show/one.meta.yaml" [("title", VStr "One"); ("guid", VStr "1")]
    (Some "feed-one.meta.yaml") (Some "archive.json") true ["title"] w
  = (Exc (Error "Unable to save meta file for episode"), w).
Proof.
  intros w.
  refine (proj1 (invalid_metadata_path_leaves_no_trace Some id inr
    Sample.path_resolve_cwd Sample.dirExists "1 of 1" "/work/show/one.meta"
    "yaml"
    [("title", VStr "One"); ("guid", VStr "1")] [("title", VStr "One")]
    (Some "feed-one.meta.yaml") (Some "archive.json") true ["title"] w
    eq_refl eq_refl eq_refl _ eq_refl (or_introl eq_refl))).
  intros k a [= <-] [= <-]. reflexivity.
Defined.

(** The directory [/work/show] of the sample disk exists: the file is
    written there.  No directory [/work/gone] exists: the writer throws. *)
Lemma feed_metadata_file_has_no_items_witness :
  let w : @Meta.world value := {| files := ∅; logged := [] |} in
  (exists written,
     files (snd (Meta.writeFeedMeta Some id inr Sample.path_resolve_cwd
                   Sample.dirExists "/work/show/show.meta.json"
                   [("title", VStr "Show"); ("items", VStr "none")]
                   None None false ["*"] w))
       !! "/work/show/show.meta.json" = Some (VObj written) /\
     ("items" ∉ keys written)) /\
  Meta.writeFeedMeta Some id inr Sample.path_resolve_cwd Sample.dirExists
    "/work/gone/show.meta.json"
    [("title", VStr "Show"); ("items", VStr "none")] None None false ["*"] w
  = (Exc (Error ("Unable to save metadata file for feed: "
                 +:+ "Error: ENOENT: no such file or directory, open '"
                 +:+ "/work/gone/show.meta.json" +:+ "'")), w).
Proof.
  intros w. split.
  - destruct (proj1 (feed_metadata_file_has_no_items Some id inr
      Sample.path_resolve_cwd Sample.dirExists "/work/show/show.meta"
      [("title", VStr "Show"); ("items", VStr "none")]
      [("title", VStr "Show"); ("items", VStr "none")]
      None None false ["*"] w
      ltac:(discriminate) eq_refl (or_intror eq_refl) ltac:(discriminate))
      eq_refl)
      as (written & Hfile & Hitems & _).
    exists written. split; [exact Hfile|exact Hitems].
  - exact (proj2 (feed_metadata_file_has_no_items Some id inr
      Sample.path_resolve_cwd Sample.dirExists "/work/gone/show.meta"
      [("title", VStr "Show"); ("items", VStr "none")]
      [("title", VStr "Show"); ("items", VStr "none")]
      None None false ["*"] w
      ltac:(discriminate) eq_refl (or_intror eq_refl) ltac:(discriminate))
      eq_refl).
Defined.


End MetaProps.

(** ** URLs embedded in a path *)

Module EmbedsProps.

Import Embeds.

(** *** The candidates are the parts of the path after its slashes *)

Lemma slice_append (pre s : string) :
  slice (String.length pre) (pre +:+ s) = s.
Proof.
  induction pre as [|c pre IH]; [now destruct s|].
  rewrite FieldsMore.append_cons. exact IH.
Qed.

Lemma length_snoc (pre : string) (c : ascii) :
  String.length (pre +:+ String c EmptyString) = S (String.length pre).
Proof.
  induction pre as [|d pre IH]; [reflexivity|].
  rewrite FieldsMore.append_cons. cbn [String.length]. now rewrite IH.
Qed.

Lemma append_snoc (pre : string) (c : ascii) (s : string) :
  (pre +:+ String c EmptyString) +:+ s = pre +:+ String c s.
Proof. now rewrite FieldsMore.append_assoc. Qed.

Lemma slices_afterSlashes (s pre : string) :
  map (fun i => slice (i + 1) (pre +:+ s))
    (possibleStartIndexes s (String.length pre))
  = afterSlashes s.
Proof.
  revert pre. induction s as [|c s IH]; intros pre; [reflexivity|].
  cbn [possibleStartIndexes afterSlashes].
  specialize (IH (pre +:+ String c EmptyString)).
  rewrite length_snoc, append_snoc in IH.
  destruct (Ascii.eqb c "/"); [|exact IH].
  cbn [map]. rewrite IH. f_equal.
  rewrite Nat.add_1_r, <- (length_snoc pre c), <- (append_snoc pre c s).
  apply slice_append.
Qed.

Lemma mapThrowing_map {A B C : Type} (f : B -> option C) (g : A -> B)
  (l : list A) :
  mapThrowing (fun x => f (g x)) l = mapThrowing f (map g l).
Proof.
  induction l as [|x l IH]; [reflexivity|].
  cbn [mapThrowing map]. now rewrite IH.
Qed.

Lemma mapThrowing_Some {A B : Type} (f : A -> option B) (l : list A)
  (ys : list B) :
  mapThrowing f l = Some ys <-> Forall2 (fun x y => f x = Some y) l ys.
Proof.
  revert ys. induction l as [|x l IH]; intros ys; cbn [mapThrowing].
  - split; [intros [= <-]; constructor|intros H; now inversion H].
  - destruct (f x) as [y|] eqn:Hx.
    + destruct (mapThrowing f l) as [ys'|].
      * split.
        -- intros [= <-]. constructor; [exact Hx|now apply IH].
        -- intros H. inversion H as [|? y' ? ys'' Hy Hrest]; subst.
           apply IH in Hrest. congruence.
      * split; [discriminate|].
        intros H. inversion H as [|? y' ? ys'' Hy Hrest]; subst.
        apply IH in Hrest. discriminate.
    + split; [discriminate|].
      intros H. inversion H; subst. congruence.
Qed.

Lemma mapThrowing_None {A B : Type} (f : A -> option B) (l : list A) :
  mapThrowing f l = None <-> exists x, x ∈ l /\ f x = None.
Proof.
  induction l as [|x l IH]; cbn [mapThrowing].
  - split; [discriminate|]. intros (x & Hin & _). inversion Hin.
  - destruct (f x) as [y|] eqn:Hx.
    + destruct (mapThrowing f l) as [ys|].
      * split; [discriminate|]. intros (x' & Hin & Hnone).
        apply elem_of_cons in Hin as [->|Hin]; [congruence|].
        assert (@None (list B) = None) as _ by reflexivity.
        destruct IH as [_ IH]. discriminate IH. now exists x'.
      * split; [|reflexivity]. intros _.
        destruct IH as [IH _]. destruct (IH eq_refl) as (x' & Hin & Hnone).
        exists x'. split; [now right|exact Hnone].
    + split; [|reflexivity]. intros _. exists x. split; [left|exact Hx].
Qed.

Lemma Forall2_rev {A B : Type} (P : A -> B -> Prop) (l : list A)
  (k : list B) :
  Forall2 P l k -> Forall2 P (rev l) (rev k).
Proof.
  induction 1 as [|x y l k Hxy _ IH]; [constructor|].
  cbn [rev]. apply Forall2_app; [exact IH|]. now repeat constructor.
Qed.

Lemma part_of_taken {A : Type} (n : nat) (l : list A) (x : A) :
  x ∈ take n (rev l) -> x ∈ l.
Proof.
  intros Hin. apply list_elem_of_In, in_rev.
  rewrite <- (take_drop n (rev l)). apply in_or_app. left.
  now apply list_elem_of_In.
Qed.

Section Platform.

Variable URL_pathname : string -> option string.
Variable decodeURIComponent : string -> option string.
Variable URL_href : string -> option string.
Variable got : list string -> string -> bool.

Abbreviation getPossibleUrlEmbeds :=
  (Embeds.getPossibleUrlEmbeds URL_pathname decodeURIComponent).
Abbreviation probe := (Embeds.probe URL_href got).
Abbreviation getUrlEmbed :=
  (Embeds.getUrlEmbed URL_pathname decodeURIComponent URL_href got).
Abbreviation decoded :=
  (fun part : string => decodeURIComponent (withScheme part)).

Lemma getPossibleUrlEmbeds_afterSlashes (url pathname : string)
  (maxAmount : Z) :
  URL_pathname url = Some pathname ->
  0 <= maxAmount ->
  getPossibleUrlEmbeds url maxAmount
  = match mapThrowing decoded (afterSlashes pathname) with
    | Some choices => Returned (take (Z.to_nat maxAmount) (rev choices))
    | None => Threw URIMalformed
    end.
Proof.
  intros Hurl Hmax. unfold Embeds.getPossibleUrlEmbeds. rewrite Hurl.
  cbv zeta.
  rewrite (mapThrowing_map decoded (fun i => slice (i + 1) pathname)).
  pose proof (slices_afterSlashes pathname EmptyString) as Hslices.
  change (EmptyString +:+ pathname) with pathname in Hslices.
  change (String.length EmptyString) with 0%nat in Hslices.
  rewrite Hslices.
  destruct (mapThrowing decoded (afterSlashes pathname)) as [choices|];
    [|reflexivity].
  f_equal. rewrite firstn_rev. do 2 f_equal. lia.
Qed.

Lemma possible_embeds_are_the_deepest_parts_aux (url pathname : string)
  (maxAmount : Z) (possibleUrlEmbeds : list string) :
  URL_pathname url = Some pathname ->
  0 <= maxAmount ->
  getPossibleUrlEmbeds url maxAmount = Returned possibleUrlEmbeds ->
  Forall2 (fun part embed => decodeURIComponent (withScheme part) = Some embed)
    (take (Z.to_nat maxAmount) (rev (afterSlashes pathname)))
    possibleUrlEmbeds /\
  Z.of_nat (length possibleUrlEmbeds) <= maxAmount.
Proof.
  intros Hurl Hmax Hget.
  rewrite (getPossibleUrlEmbeds_afterSlashes _ _ _ Hurl Hmax) in Hget.
  destruct (mapThrowing decoded (afterSlashes pathname)) as [choices|] eqn:E;
    [|discriminate Hget].
  injection Hget as <-. apply mapThrowing_Some in E. split.
  - apply Forall2_take. now apply Forall2_rev.
  - rewrite length_take. lia.
Qed.

(** X20: for a URL that parses and a bound that is not negative,
    [getPossibleUrlEmbeds] returns the decoded parts of the path that
    follow a slash, from the shortest part on, and at most [maxAmount] of
    them; each part is decoded with [https://] put before it unless it
    starts with [http]. *)
Theorem possible_embeds_are_the_deepest_parts (url pathname : string)
  (maxAmount : Z) (possibleUrlEmbeds : list string) :
  URL_pathname url = Some pathname ->
  0 <= maxAmount ->
  getPossibleUrlEmbeds url maxAmount = Returned possibleUrlEmbeds ->
  Forall2 (fun part embed => decodeURIComponent (withScheme part) = Some embed)
    (take (Z.to_nat maxAmount) (rev (afterSlashes pathname)))
    possibleUrlEmbeds /\
  Z.of_nat (length possibleUrlEmbeds) <= maxAmount /\
  (length possibleUrlEmbeds <= length (afterSlashes pathname))%nat /\
  (forall embed, embed ∈ possibleUrlEmbeds ->
     exists part,
       part ∈ afterSlashes pathname /\
       decodeURIComponent (withScheme part) = Some embed /\
       startsWith (withScheme part) "http" = true).
Proof.
  intros Hurl Hmax Hget.
  destruct (possible_embeds_are_the_deepest_parts_aux _ _ _ _ Hurl Hmax Hget)
    as (Hparts & Hlen).
  split; [exact Hparts|]. split; [exact Hlen|]. split.
  - rewrite <- (Forall2_length _ _ _ Hparts), length_take, length_rev. lia.
  - intros embed Hin. apply list_elem_of_lookup in Hin as [i Hi].
    destruct (Forall2_lookup_r _ _ _ _ _ Hparts Hi) as (part & Hpart & Hdec).
    exists part. split; [|split; [exact Hdec|]].
    + apply list_elem_of_lookup_2 in Hpart.
      now apply part_of_taken in Hpart.
    + unfold withScheme. destruct (startsWith part "http") eqn:E;
        [exact E|reflexivity].
Qed.

(** X21: a part of the path, after any of its slashes, that cannot be
    decoded makes [getPossibleUrlEmbeds] throw, whatever the bound is, and
    with it [getUrlEmbed], which calls it outside its [try]; and nothing
    else makes them throw for a URL that parses. *)
Theorem undecodable_part_makes_the_search_throw (url pathname : string)
  (maxAmount : Z) :
  URL_pathname url = Some pathname ->
  ((exists part,
      part ∈ afterSlashes pathname /\
      decodeURIComponent (withScheme part) = None) ->
   getPossibleUrlEmbeds url maxAmount = Threw URIMalformed /\
   getUrlEmbed url = Threw URIMalformed) /\
  (forall e,
     getPossibleUrlEmbeds url maxAmount = Threw e \/ getUrlEmbed url = Threw e ->
     e = URIMalformed /\
     exists part,
       part ∈ afterSlashes pathname /\
       decodeURIComponent (withScheme part) = None).
Proof.
  intros Hurl.
  assert (Hany : forall m,
    getPossibleUrlEmbeds url m
    = match mapThrowing decoded (afterSlashes pathname) with
      | Some choices =>
          Returned
            (rev (drop (Z.to_nat (Z.max (Z.of_nat (length choices) - m) 0))
                    choices))
      | None => Threw URIMalformed
      end).
  { intros m. unfold Embeds.getPossibleUrlEmbeds. rewrite Hurl. cbv zeta.
    rewrite (mapThrowing_map decoded (fun i => slice (i + 1) pathname)).
    pose proof (slices_afterSlashes pathname EmptyString) as Hslices.
    change (EmptyString +:+ pathname) with pathname in Hslices.
    change (String.length EmptyString) with 0%nat in Hslices.
    now rewrite Hslices. }
  split.
  - intros Hpart. apply mapThrowing_None in Hpart.
    unfold Embeds.getUrlEmbed. rewrite !Hany, Hpart. now split.
  - intros e He. unfold Embeds.getUrlEmbed in He. rewrite !Hany in He.
    destruct (mapThrowing decoded (afterSlashes pathname)) eqn:E;
      [destruct He as [He|He]; discriminate He|].
    apply mapThrowing_None in E.
    destruct He as [He|He]; injection He as <-; now split.
Qed.

Lemma probe_requests (candidates : list string) :
  forall requests0 result requests,
    probe requests0 candidates = (result, requests) ->
    exists made,
      requests = requests0 ++ made /\
      (length made <= length candidates)%nat /\
      (forall href, href ∈ made ->
         exists embed, embed ∈ candidates /\ URL_href embed = Some href) /\
      (forall earlier href later,
         made = earlier ++ href :: later ->
         got (requests0 ++ earlier) href
         = match later, result with
           | [], Some _ => true
           | _, _ => false
           end) /\
      (forall href, result = Some href -> exists earlier,
         made = earlier ++ [href]).
Proof.
  induction candidates as [|embed candidates IH];
    intros requests0 result requests Hprobe; cbn [Embeds.probe] in Hprobe.
  - injection Hprobe as <- <-. exists []. rewrite app_nil_r.
    split; [reflexivity|]. split; [reflexivity|].
    split; [intros href Hin; inversion Hin|].
    split; [intros [|] ? ? [=]|discriminate].
  - destruct (URL_href embed) as [href0|] eqn:Hhref.
    2:{ destruct (IH _ _ _ Hprobe) as (made & -> & Hlen & Hfrom & Hgot & Hlast).
        exists made. split; [reflexivity|].
        split; [cbn [length]; lia|].
        split; [|split; assumption].
        intros href Hin. destruct (Hfrom href Hin) as (c & Hc & Hh).
        exists c. split; [now right|exact Hh]. }
    destruct (got requests0 href0) eqn:Hgot0.
    + injection Hprobe as <- <-. exists [href0].
      split; [reflexivity|]. split; [cbn [length]; lia|].
      split; [|split].
      * intros href Hin. apply list_elem_of_singleton in Hin as ->.
        exists embed. split; [left|exact Hhref].
      * intros [|x earlier] href later [= <- Hrest].
        -- subst later. now rewrite app_nil_r.
        -- now destruct earlier.
      * intros href [= <-]. now exists [].
    + destruct (IH _ _ _ Hprobe) as (made & -> & Hlen & Hfrom & Hgot & Hlast).
      exists (href0 :: made). rewrite <- app_assoc.
      split; [reflexivity|]. split; [cbn [length]; lia|].
      split; [|split].
      * intros href Hin. apply elem_of_cons in Hin as [->|Hin].
        -- exists embed. split; [left|exact Hhref].
        -- destruct (Hfrom href Hin) as (c & Hc & Hh).
           exists c. split; [now right|exact Hh].
      * intros [|x earlier] href later [= <- Hrest].
        -- subst later. rewrite app_nil_r, Hgot0.
           destruct made as [|h made]; [|reflexivity].
           destruct result as [href'|]; [|reflexivity].
           destruct (Hlast href' eq_refl) as (e & He). now destruct e.
        -- rewrite <- (Hgot earlier href later Hrest).
           now rewrite <- app_assoc.
      * intros href Hres. destruct (Hlast href Hres) as (e & ->).
        now exists (href0 :: e).
Qed.

(** X22: [getUrlEmbed] makes at most five requests; each one goes to the
    address of a decoded part of the path; every request but the last one
    failed, and the last one succeeded exactly when an embedded URL is
    returned, which is then the address of that last request. *)
Theorem embed_probe_makes_at_most_five_requests (url pathname : string)
  (result : option string) (requests : list string) :
  URL_pathname url = Some pathname ->
  getUrlEmbed url = Returned (result, requests) ->
  (length requests <= 5)%nat /\
  (forall href, href ∈ requests ->
     exists part embed,
       part ∈ afterSlashes pathname /\
       decodeURIComponent (withScheme part) = Some embed /\
       URL_href embed = Some href) /\
  (forall earlier href later,
     requests = earlier ++ href :: later ->
     got earlier href
     = match later, result with
       | [], Some _ => true
       | _, _ => false
       end) /\
  (forall href, result = Some href -> exists earlier,
     requests = earlier ++ [href]).
Proof.
  intros Hurl Hget. unfold Embeds.getUrlEmbed in Hget.
  destruct (getPossibleUrlEmbeds url 5) as [candidates|] eqn:Hc;
    [|discriminate Hget].
  injection Hget as Hprobe.
  destruct (possible_embeds_are_the_deepest_parts_aux url pathname 5
              candidates Hurl ltac:(lia) Hc) as (Hparts & Hlen).
  destruct (probe_requests _ _ _ _ Hprobe)
    as (made & -> & Hmade & Hfrom & Hgot & Hlast).
  cbn [app]. split; [lia|]. split; [|split; assumption].
  intros href Hin. destruct (Hfrom href Hin) as (embed & Hembed & Hhref).
  apply list_elem_of_lookup in Hembed as [i Hi].
  destruct (Forall2_lookup_r _ _ _ _ _ Hparts Hi) as (part & Hpart & Hdec).
  exists part, embed. split; [|split; assumption].
  apply list_elem_of_lookup_2 in Hpart.
  now apply part_of_taken in Hpart.
Qed.

End Platform.

(** A redirect whose path holds the address of the audio file. *)
Lemma possible_embeds_are_the_deepest_parts_witness :
  let pathname := "/redirect.mp3/cdn.example.org/audio/ten.mp3" in
  let embeds :=
    ["https://ten.mp3"; "https://audio/ten.mp3";
     "https://cdn.example.org/audio/ten.mp3"] in
  Forall2 (fun part embed => sampleDecode (withScheme part) = Some embed)
    (take (Z.to_nat 3) (rev (afterSlashes pathname))) embeds /\
  Z.of_nat (length embeds) <= 3.
Proof.
  intros pathname embeds.
  pose proof (possible_embeds_are_the_deepest_parts Sample.URL_pathname
    sampleDecode
    "https://dts.example.com/redirect.mp3/cdn.example.org/audio/ten.mp3"
    pathname 3 embeds
    ltac:(vm_compute; reflexivity) ltac:(lia)
    ltac:(vm_compute; reflexivity)) as (Hparts & Hlen & _).
  split; [exact Hparts|exact Hlen].
Defined.

(** A malformed escape in the first part of the path, which the bound
    leaves out. *)
Lemma undecodable_part_makes_the_search_throw_witness :
  let url := "https://dts.example.com/100%/a/b/c/d/e/ten.mp3" in
  Embeds.getPossibleUrlEmbeds Sample.URL_pathname sampleDecode url 0
  = Threw URIMalformed /\
  Embeds.getUrlEmbed Sample.URL_pathname sampleDecode sampleHref sampleGot url
  = Threw URIMalformed.
Proof.
  intros url.
  refine (proj1 (undecodable_part_makes_the_search_throw Sample.URL_pathname
    sampleDecode sampleHref sampleGot url
    "/100%/a/b/c/d/e/ten.mp3" 0 ltac:(vm_compute; reflexivity)) _).
  exists "100%/a/b/c/d/e/ten.mp3". split; [|vm_compute; reflexivity].
  apply list_elem_of_In. vm_compute. left. reflexivity.
Defined.

Lemma embed_probe_makes_at_most_five_requests_witness :
  let requests :=
    ["https://ten.mp3"; "https://audio/ten.mp3";
     "https://cdn.example.org/audio/ten.mp3"] in
  (length requests <= 5)%nat /\
  exists earlier,
    requests = earlier ++ ["https://cdn.example.org/audio/ten.mp3"].
Proof.
  intros requests.
  pose proof (embed_probe_makes_at_most_five_requests Sample.URL_pathname
    sampleDecode sampleHref sampleGot
    "https://dts.example.com/redirect.mp3/cdn.example.org/audio/ten.mp3"
    "/redirect.mp3/cdn.example.org/audio/ten.mp3"
    (Some "https://cdn.example.org/audio/ten.mp3") requests
    ltac:(vm_compute; reflexivity) ltac:(vm_compute; reflexivity))
    as (Hlen & _ & _ & Hlast).
  split; [exact Hlen|exact (Hlast _ eq_refl)].
Defined.

End EmbedsProps.

(** ** The listing of the episodes *)

Module ListingProps.

Import Fields Archive Dayjs Selector SelectorProps SelectorMore Listing.

Section Rows.

Context {content : Type}.
Variable JSON_parse : content -> option value.
Variable path_resolve_cwd : string -> string.
Variable path_resolve3 : string -> string -> string -> string.
Variable path_extname : string -> string.
Variable URL_pathname : string -> option string.
Variable Date_parse : string -> option Z.
Variable utcOffset : Z.
Variable RegExp_new : string -> res (string -> bool).
Variable getArchiveFilename :
  option string -> option string -> option Ext -> string.
Variable getFilename :
  Item -> Feed -> option string -> string -> option string -> string.

Abbreviation getItemsToDownload :=
  (Selector.getItemsToDownload JSON_parse path_resolve_cwd path_resolve3
     path_extname URL_pathname Date_parse utcOffset RegExp_new
     getArchiveFilename getFilename).
Abbreviation tableData :=
  (Listing.tableData JSON_parse path_resolve_cwd path_resolve3
     path_extname URL_pathname Date_parse utcOffset RegExp_new
     getArchiveFilename getFilename).

(** X23: the rows of a listing are made of the selection, one row per
    selected entry and in its order, and never fail once the selection has
    returned.  The row of an entry shows the title and the date that the
    entry had, and its episode number counts the feed from its end: it is
    the length of the feed minus an index at which the feed holds the entry,
    so it lies between 1 and that length and the first entry of the feed
    has the highest number.  The disk is not read. *)
Theorem listed_rows_number_the_feed_from_its_end (fuel : nat)
  (fs : gmap string content) (st : store) (o : Options) (its : list loc)
  (selected : list loc) (st' : store) :
  feed_items (feed o) = Some its ->
  0 <= offset o ->
  (length its <= fuel)%nat ->
  getItemsToDownload fuel fs st (listArguments o) = Ok (selected, st') ->
  exists rows,
    tableData fuel fs st o = Ok (rows, st') /\
    tableData fuel ∅ st o = Ok (rows, st') /\
    Forall2
      (fun l row =>
         exists i it,
           its !! Z.to_nat i = Some l /\
           st !! l = Some it /\
           episodeNum row = Some (Z.of_nat (length its) - i) /\
           1 <= Z.of_nat (length its) - i <= Z.of_nat (length its) /\
           row_title row = title it /\
           row_pubDate row = pubDate it)
      selected rows.
Proof.
  intros Hits Hoff Hfuel Hsel.
  assert (Hfeed : feed (listArguments o) = feed o) by reflexivity.
  destruct (selection_returns JSON_parse path_resolve_cwd path_resolve3
              path_extname URL_pathname Date_parse utcOffset RegExp_new
              getArchiveFilename getFilename fuel fs st (listArguments o)
              its selected st' Hits Hoff Hfuel Hsel)
    as (sa & us & Hsa & Hus & Hselected & Hst').
  assert (Hrow : forall l, l ∈ selected ->
    exists i it extra,
      its !! Z.to_nat i = Some l /\ 0 <= i < Z.of_nat (length its) /\
      st !! l = Some it /\ st' !! l = Some (annotate it i extra)).
  { intros l Hl. subst selected st'.
    apply (sublist_elem_of _ _ _ (sublist_applyLimit _ _)) in Hl.
    rewrite <- omap_id_fst in Hl.
    pose proof (final_store_lookup (omap id us) st l) as Hlookup.
    destruct ((_ ∪ st) !! l) as [item|]; [|now destruct Hlookup].
    destruct Hlookup as [Hpair|[Habsent _]]; [|contradiction].
    destruct (pairs_from_turns path_resolve3 path_extname URL_pathname
                Date_parse utcOffset RegExp_new getArchiveFilename
                getFilename (listArguments o) its sa st _ us l item Hus Hpair)
      as (i & Hi & Hturn).
    destruct (turn_shape path_resolve3 path_extname URL_pathname
                Date_parse utcOffset RegExp_new getArchiveFilename
                getFilename (listArguments o) its sa st i l item Hturn)
      as (Hat & it & url & extra & Hit & _ & ->).
    destruct (item_at_ok its i l Hat) as [Hi0 Hlook].
    exists i, it, extra. split; [exact Hlook|].
    split; [|split; [exact Hit|reflexivity]].
    split; [exact Hi0|]. apply lookup_lt_Some in Hlook. lia. }
  assert (Hrows : exists rows,
    mapM (row o st') selected = Ok rows /\
    Forall2
      (fun l row =>
         exists i it,
           its !! Z.to_nat i = Some l /\
           st !! l = Some it /\
           episodeNum row = Some (Z.of_nat (length its) - i) /\
           1 <= Z.of_nat (length its) - i <= Z.of_nat (length its) /\
           row_title row = title it /\
           row_pubDate row = pubDate it)
      selected rows).
  { clear Hselected Hsel. induction selected as [|l selected IH].
    - exists []. split; [reflexivity|constructor].
    - destruct IH as (rows & Hmap & Hall);
        [intros l' Hl'; apply Hrow; now right|].
      destruct (Hrow l ltac:(left)) as (i & it & extra & Hi & Hrange & Hit & Hl).
      eexists. split.
      + cbn [mapM]. unfold row at 1, deref, feedItems.
        rewrite Hl, Hits. cbn [Js.bind]. rewrite Hmap. reflexivity.
      + constructor; [|exact Hall].
        exists i, it. cbn. repeat split; try assumption; lia. }
  destruct Hrows as (rows & Hmap & Hall).
  exists rows. split; [|split; [|exact Hall]].
  - unfold Listing.tableData. rewrite Hsel. cbn [Js.bind].
    now rewrite Hmap.
  - unfold Listing.tableData.
    assert (Hsame :
      getItemsToDownload fuel ∅ st (listArguments o)
      = getItemsToDownload fuel fs st (listArguments o)) by reflexivity.
    rewrite Hsame, Hsel. cbn [Js.bind]. now rewrite Hmap.
Qed.

End Rows.

(** Ten entries listed from the oldest, without the two oldest, two rows
    at most. *)
Lemma listed_rows_number_the_feed_from_its_end_witness :
  let o := withLimit (Sample.plain (Sample.feedOf Sample.tenItems) 2 true)
             (Some 2) in
  exists rows st',
    Listing.tableData Sample.JSON_parse Sample.path_resolve_cwd
      Sample.path_resolve3 Sample.path_extname Sample.URL_pathname
      Sample.Date_parse 0 Sample.RegExp_new Sample.getArchiveFilename
      Sample.getFilename 10 ∅ Sample.tenEpisodes o = Ok (rows, st') /\
    length rows = 2%nat.
Proof.
  intros o.
  destruct (Sample.select 0 10 ∅ Sample.tenEpisodes (listArguments o))
    as [[selected st']| |] eqn:Hsel;
    [|vm_compute in Hsel; discriminate|vm_compute in Hsel; discriminate].
  destruct (listed_rows_number_the_feed_from_its_end Sample.JSON_parse
              Sample.path_resolve_cwd Sample.path_resolve3
              Sample.path_extname Sample.URL_pathname Sample.Date_parse 0
              Sample.RegExp_new Sample.getArchiveFilename Sample.getFilename
              10 ∅ Sample.tenEpisodes o Sample.tenItems selected st'
              eq_refl ltac:(simpl; lia) ltac:(simpl; lia) Hsel)
    as (rows & Htable & _ & Hall).
  exists rows, st'. split; [exact Htable|].
  rewrite <- (Forall2_length _ _ _ Hall).
  vm_compute in Hsel. now injection Hsel as <- _.
Defined.

End ListingProps.

(** ** The conversion of an episode file *)

Module FfmpegProps.

Import Selector Meta Ffmpeg.

Lemma length_append (a b : string) :
  String.length (a +:+ b) = (String.length a + String.length b)%nat.
Proof.
  induction a as [|c a IH]; [reflexivity|].
  rewrite FieldsMore.append_cons. cbn [String.length]. now rewrite IH.
Qed.

Lemma tmp_is_another_path (outputPath : string) :
  outputPath <> outputPath +:+ ".tmp.mp3".
Proof.
  intros Heq. apply (f_equal String.length) in Heq.
  rewrite length_append in Heq. cbn [String.length] in Heq. lia.
Qed.

Section Platform.

Context {content : Type}.
Variable formatDate : string -> string.
Variable numberToString : Z -> string.
Variable execWithPromise :
  string -> gmap string content -> option exn * gmap string content.

Abbreviation runFfmpeg :=
  (Ffmpeg.runFfmpeg formatDate numberToString execWithPromise).

(** X24: when the command changes no file but the temporary file it is
    told to write, a conversion changes no file but the episode file and
    that temporary file, and runs one command at most.  Without a command
    the disk is as it was, and the call returns only when the episode file
    does not exist.  After a command the temporary file is gone: when the
    command failed its error is thrown and the episode file is as it was;
    when it ended well and wrote the temporary file, the episode file holds
    what was written; when it ended well without writing it, the episode
    file is gone and the call throws. *)
Theorem conversion_replaces_the_episode_or_keeps_it
  (fs : gmap string content) (feed : Feed) (item : TaggedItem)
  (itemIndex : Z) (outputPath : string) (bitrate : option string)
  (mono addMp3Metadata : bool) :
  (forall command fs0 p,
     p <> outputPath +:+ ".tmp.mp3" ->
     snd (execWithPromise command fs0) !! p = fs0 !! p) ->
  let tmpMp3Path := outputPath +:+ ".tmp.mp3" in
  let '(completion, fs', commands) :=
    runFfmpeg fs feed item itemIndex outputPath bitrate mono addMp3Metadata in
  (length commands <= 1)%nat /\
  (forall p, p <> outputPath -> p <> tmpMp3Path -> fs' !! p = fs !! p) /\
  (commands = [] ->
   fs' = fs /\ (completion = Returned <-> fs !! outputPath = None)) /\
  (forall command, commands = [command] ->
     fs' !! tmpMp3Path = None /\
     match execWithPromise command fs with
     | (Some error, _) =>
         completion = Thrown error /\ fs' !! outputPath = fs !! outputPath
     | (None, fs1) =>
         match fs1 !! tmpMp3Path with
         | Some converted =>
             completion = Returned /\ fs' !! outputPath = Some converted
         | None =>
             (exists e, completion = Thrown e) /\ fs' !! outputPath = None
         end
     end).
Proof.
  intros Hframe. cbv zeta. unfold Ffmpeg.runFfmpeg.
  pose proof (tmp_is_another_path outputPath) as Hne.
  destruct (fs !! outputPath) as [original|] eqn:Hout.
  2:{ split; [cbn; lia|]. split; [reflexivity|].
      split; [|discriminate]. intros _. split; [reflexivity|].
      now split. }
  destruct (negb (endsWith outputPath ".mp3")).
  { split; [cbn; lia|]. split; [reflexivity|].
    split; [|discriminate]. intros _. split; [reflexivity|].
    split; discriminate. }
  cbv zeta.
  match goal with
  | |- context [match ?tagged with Some _ => _ | None => _ end] =>
      destruct tagged as [command|]
  end.
  2:{ split; [cbn; lia|]. split; [reflexivity|].
      split; [|discriminate]. intros _. split; [reflexivity|].
      split; discriminate. }
  set (full := command +:+ " " +:+ String dquote
                 ((outputPath +:+ ".tmp.mp3") +:+ String dquote EmptyString)).
  pose proof (Hframe full fs) as Hfs1.
  destruct (execWithPromise full fs) as [[error|] fs1] eqn:Hexec;
    cbn [snd] in Hfs1.
  - assert (Htmp :
      match fs1 !! (outputPath +:+ ".tmp.mp3") with
      | Some _ => delete (outputPath +:+ ".tmp.mp3") fs1
      | None => fs1
      end !! (outputPath +:+ ".tmp.mp3") = None).
    { destruct (fs1 !! (outputPath +:+ ".tmp.mp3")) eqn:E;
        [apply lookup_delete_eq|exact E]. }
    assert (Hother : forall p, p <> outputPath +:+ ".tmp.mp3" ->
      match fs1 !! (outputPath +:+ ".tmp.mp3") with
      | Some _ => delete (outputPath +:+ ".tmp.mp3") fs1
      | None => fs1
      end !! p = fs !! p).
    { intros p Hp. rewrite <- (Hfs1 p Hp).
      destruct (fs1 !! (outputPath +:+ ".tmp.mp3"));
        [now apply lookup_delete_ne|reflexivity]. }
    cbv beta iota.
    split; [cbn; lia|]. split; [intros p _ Hp; now apply Hother|].
    split; [discriminate|]. intros c [= <-]. split; [exact Htmp|].
    rewrite Hexec. split; [reflexivity|]. rewrite <- Hout. now apply Hother.
  - cbv beta iota. rewrite (Hfs1 outputPath Hne), Hout.
    rewrite lookup_delete_ne by (intros Heq; now apply Hne).
    destruct (fs1 !! (outputPath +:+ ".tmp.mp3")) as [converted|] eqn:Htmp.
    + split; [cbn; lia|]. split; [|split; [discriminate|]].
      * intros p Hp1 Hp2.
        rewrite lookup_insert_ne by (intros Heq; now apply Hp1).
        rewrite lookup_delete_ne by (intros Heq; now apply Hp2).
        rewrite lookup_delete_ne by (intros Heq; now apply Hp1).
        now apply Hfs1.
      * intros c [= <-]. split.
        -- rewrite lookup_insert_ne by exact Hne. apply lookup_delete_eq.
        -- rewrite Hexec. cbv beta iota. rewrite Htmp.
           split; [reflexivity|apply lookup_insert_eq].
    + split; [cbn; lia|]. split; [|split; [discriminate|]].
      * intros p Hp1 Hp2.
        rewrite lookup_delete_ne by (intros Heq; now apply Hp1).
        now apply Hfs1.
      * intros c [= <-]. split.
        -- rewrite lookup_delete_ne by (intros Heq; now apply Hne).
           exact Htmp.
        -- rewrite Hexec. cbv beta iota. rewrite Htmp.
           split; [now eexists|apply lookup_delete_eq].
Qed.

End Platform.

(** A converter that writes its output file and ends well. *)
Lemma conversion_replaces_the_episode_or_keeps_it_witness :
  let converter (command : string) (fs : gmap string string) :=
    (@None exn, <["/work/out/a.mp3.tmp.mp3" := "converted"]> fs) in
  let '(completion, fs', commands) :=
    Ffmpeg.runFfmpeg (fun date => date) (fun n => "1") converter
      {[ "/work/out/a.mp3" := "recorded" ]} (Sample.feedOf Sample.tenItems)
      {| item_title := Some "Episode ten"; item_author := None;
         item_itunes := None; item_pubDate := None |}
      0 "/work/out/a.mp3" None false true in
  (length commands <= 1)%nat /\
  (forall p, p <> "/work/out/a.mp3" -> p <> "/work/out/a.mp3.tmp.mp3" ->
     fs' !! p = ({[ "/work/out/a.mp3" := "recorded" ]} : gmap string string)
                !! p).
Proof.
  intros converter.
  pose proof (conversion_replaces_the_episode_or_keeps_it (fun date => date)
    (fun n => "1") converter {[ "/work/out/a.mp3" := "recorded" ]}
    (Sample.feedOf Sample.tenItems)
    {| item_title := Some "Episode ten"; item_author := None;
       item_itunes := None; item_pubDate := None |}
    0 "/work/out/a.mp3" None false true) as H.
  destruct (Ffmpeg.runFfmpeg _ _ _ _ _ _ _ _ _ _ _) as [[completion fs'] commands].
  assert (Hframe : forall command (fs0 : gmap string string) p,
    p <> "/work/out/a.mp3" +:+ ".tmp.mp3" ->
    snd (converter command fs0) !! p = fs0 !! p).
  { intros command fs0 p Hp. unfold converter. cbn [snd].
    now apply lookup_insert_ne. }
  destruct (H Hframe) as (Hlen & Hother & _).
  split; [exact Hlen|exact Hother].
Defined.

End FfmpegProps.

(** ** Globs with more than one star *)

Module GlobMore.

Import Regex Fields FieldsRef FieldsProps FieldsMore.

(** *** The matcher on a sequence of pieces *)

Lemma star_split (a : atom) (k : list ascii -> bool) (s : list ascii) :
  star a k s = true <->
  exists s1 s2, s = s1 ++ s2 /\ forallb (atom_ok a) s1 = true /\ k s2 = true.
Proof.
  induction s as [|c s IH]; cbn [star].
  - rewrite orb_false_r. split.
    + intros H. now exists [], [].
    + intros (s1 & s2 & Hs & _ & Hk).
      symmetry in Hs. apply app_eq_nil in Hs as [_ ->]. exact Hk.
  - rewrite orb_true_iff, andb_true_iff, IH. split.
    + intros [Hk|[Hc (s1 & s2 & -> & H1 & H2)]].
      * now exists [], (c :: s).
      * exists (c :: s1), s2. cbn [forallb]. now rewrite Hc, H1.
    + intros ([|c' s1] & s2 & Hs & H1 & H2).
      * left. cbn [app] in Hs. now subst s2.
      * right. injection Hs as <- ->. cbn [forallb] in H1.
        apply andb_true_iff in H1 as [Hc H1]. split; [exact Hc|].
        now exists s1, s2.
Qed.

Lemma matches_app (p1 p2 : list piece) :
  forall s,
    matches (p1 ++ p2) s = true <->
    exists s1 s2,
      s = s1 ++ s2 /\ matches p1 s1 = true /\ matches p2 s2 = true.
Proof.
  induction p1 as [|[a q] p1 IH]; intros s.
  - cbn [app matches]. split.
    + intros H. now exists [], s.
    + intros ([|c s1] & s2 & -> & H1 & H2); [exact H2|discriminate H1].
  - destruct q; cbn [app matches].
    + destruct s as [|c s].
      * split; [discriminate|].
        intros ([|c s1] & s2 & Hs & H1 & _); discriminate.
      * rewrite andb_true_iff, IH. split.
        -- intros [Hc (s1 & s2 & -> & H1 & H2)].
           exists (c :: s1), s2. now rewrite Hc, H1.
        -- intros ([|c' s1] & s2 & Hs & H1 & H2); [discriminate H1|].
           injection Hs as <- ->. apply andb_true_iff in H1 as [Hc H1].
           split; [exact Hc|]. now exists s1, s2.
    + destruct s as [|c s].
      * split; [discriminate|].
        intros ([|c s1] & s2 & Hs & H1 & _); discriminate.
      * rewrite andb_true_iff, star_split. split.
        -- intros [Hc (t1 & t2 & -> & Ht1 & Ht2)].
           apply IH in Ht2 as (s1 & s2 & -> & H1 & H2).
           exists (c :: t1 ++ s1), s2.
           split; [cbn [app]; f_equal; apply app_assoc|]. split; [|exact H2].
           rewrite Hc. apply star_split. now exists t1, s1.
        -- intros ([|c' s1] & s2 & Hs & H1 & H2); [discriminate H1|].
           injection Hs as <- ->. apply andb_true_iff in H1 as [Hc H1].
           split; [exact Hc|].
           apply star_split in H1 as (t1 & t2 & -> & Ht1 & Ht2).
           exists t1, (t2 ++ s2). split; [now rewrite <- app_assoc|].
           split; [exact Ht1|]. apply IH. now exists t2, s2.
    + rewrite star_split. split.
      * intros (t1 & t2 & -> & Ht1 & Ht2).
        apply IH in Ht2 as (s1 & s2 & -> & H1 & H2).
        exists (t1 ++ s1), s2.
        split; [apply app_assoc|]. split; [|exact H2].
        apply star_split. now exists t1, s1.
      * intros (s1 & s2 & -> & H1 & H2).
        apply star_split in H1 as (t1 & t2 & -> & Ht1 & Ht2).
        exists t1, (t2 ++ s2). split; [now rewrite <- app_assoc|].
        split; [exact Ht1|]. apply IH. now exists t2, s2.
Qed.


(** *** A glob with a second star *)

Lemma escapeRegExp_app (a b : string) :
  escapeRegExp (a +:+ b) = escapeRegExp a +:+ escapeRegExp b.
Proof.
  induction a as [|c a IH]; [reflexivity|].
  rewrite append_cons. cbn [escapeRegExp].
  destruct (is_special c); rewrite !append_cons, IH; reflexivity.
Qed.

Lemma starFree_cons (c : ascii) (s : string) :
  starFree (String c s) = true ->
  Ascii.eqb c "*" = false /\ starFree s = true.
Proof.
  unfold starFree. cbn [list_ascii_of_string forallb]. intros H.
  apply andb_true_iff in H as [Hc H]. now apply negb_true_iff in Hc.
Qed.

Lemma not_special_cases (c : ascii) :
  is_special c = false ->
  Ascii.eqb c "$" = false /\ Ascii.eqb c "\" = false /\
  Ascii.eqb c "." = false /\ Ascii.eqb c "[" = false /\
  Ascii.eqb c "+" = false.
Proof.
  intros H. repeat split;
    match goal with
    | |- Ascii.eqb c ?x = false =>
        destruct (Ascii.eqb c x) eqn:E; [|reflexivity];
        apply Ascii.eqb_eq in E; subst c; discriminate H
    end.
Qed.

(** The escaped text of a glob that does not start with a star does not
    start with a quantifier. *)
Lemma escaped_head_cons (c : ascii) (s rest : string) :
  Ascii.eqb c "*" = false ->
  match escapeRegExp (String c s) +:+ rest with
  | String x _ => Ascii.eqb x "+" = false /\ Ascii.eqb x "*" = false
  | EmptyString => True
  end.
Proof.
  intros Hc. cbn [escapeRegExp]. destruct (is_special c) eqn:E;
    rewrite !append_cons.
  - now split.
  - split; [apply (not_special_cases c E)|exact Hc].
Qed.

Lemma parse_literal_piece (c : ascii) (r : string) (ps : list piece)
  (q : quant) :
  Ascii.eqb c "*" = false ->
  quantified parse_body (ALit c) r = Ok ((ALit c, q) :: ps) ->
  parse_body (escapeRegExp (String c EmptyString) +:+ r)
  = Ok ((ALit c, q) :: ps).
Proof.
  intros Hc Hq. cbn [escapeRegExp]. destruct (is_special c) eqn:E;
    rewrite !append_cons; change (EmptyString +:+ r) with r;
    cbn [parse_body].
  - change (Ascii.eqb "\" "$") with false.
    change (Ascii.eqb "\" "\") with true. cbv iota. now rewrite E.
  - destruct (not_special_cases c E) as (-> & -> & -> & -> & ->).
    rewrite Hc, E. exact Hq.
Qed.

Lemma parse_body_second_star (lit : string) (c : ascii) :
  starFree (lit +:+ String c EmptyString) = true ->
  parse_body (escapeRegExp (lit +:+ String c EmptyString) +:+ "*$")
  = Ok (literal lit ++ [(ALit c, QStar)]).
Proof.
  induction lit as [|d lit IH]; intros H.
  - change (EmptyString +:+ String c EmptyString) with (String c EmptyString)
      in *.
    apply starFree_cons in H as [Hc _].
    now apply parse_literal_piece.
  - rewrite append_cons in H |- *. apply starFree_cons in H as [Hd H].
    change (String d (lit +:+ String c EmptyString))
      with (String d EmptyString +:+ (lit +:+ String c EmptyString)).
    rewrite escapeRegExp_app, append_assoc.
    apply (parse_literal_piece d _ (literal lit ++ [(ALit c, QStar)]) QOne Hd).
    rewrite quantified_one.
    + now rewrite (IH H).
    + destruct lit as [|e lit].
      * change (EmptyString +:+ String c EmptyString)
          with (String c EmptyString) in *.
        apply starFree_cons in H as [Hc _].
        apply (escaped_head_cons c EmptyString "*$" Hc).
      * rewrite append_cons in H |- *. apply starFree_cons in H as [He _].
        apply (escaped_head_cons e _ "*$" He).
Qed.

Lemma replace_first_two_stars (s : string) :
  starFree s = true ->
  replace_first "**" ".+" (s +:+ "*") = s +:+ "*".
Proof.
  induction s as [|c s IH]; intros H; [reflexivity|].
  apply starFree_cons in H as [Hc H].
  rewrite append_cons. cbn [replace_first strip_prefix].
  rewrite Ascii.eqb_sym, Hc. now rewrite (IH H).
Qed.

Lemma escapeRegExp_not_empty (lit : string) (c : ascii) :
  escapeRegExp (lit +:+ String c EmptyString) <> EmptyString.
Proof.
  destruct lit as [|d lit].
  - change (EmptyString +:+ String c EmptyString) with (String c EmptyString).
    cbn [escapeRegExp]. destruct (is_special c); discriminate.
  - rewrite append_cons. cbn [escapeRegExp].
    destruct (is_special d); discriminate.
Qed.

Lemma globPattern_second_star (lit : string) (c : ascii) :
  starFree (lit +:+ String c EmptyString) = true ->
  globPattern ("*" +:+ lit +:+ String c "*")
  = "[^.]+" +:+ escapeRegExp (lit +:+ String c EmptyString) +:+ "*".
Proof.
  intros H. unfold globPattern.
  assert (Hglob : "*" +:+ lit +:+ String c "*"
                  = String "*" ((lit +:+ String c EmptyString) +:+ "*"))
    by now rewrite append_assoc.
  rewrite Hglob. cbn [escapeRegExp]. change (is_special "*") with false.
  cbv iota. rewrite escapeRegExp_app.
  change (escapeRegExp "*") with "*".
  pose proof (escapeRegExp_starFree _ H) as HE.
  pose proof (escapeRegExp_not_empty lit c) as Hne.
  remember (escapeRegExp (lit +:+ String c EmptyString)) as E eqn:HeqE.
  assert (Hhead : replace_first "**" ".+" (String "*" (E +:+ "*"))
                  = String "*" (E +:+ "*")).
  { cbn [replace_first strip_prefix].
    change (Ascii.eqb "*" "*") with true. cbv iota.
    destruct E as [|e E'].
    - contradiction.
    - apply starFree_cons in HE as [He HE'].
      rewrite append_cons. cbn [strip_prefix]. rewrite Ascii.eqb_sym, He.
      rewrite <- append_cons. f_equal.
      apply replace_first_two_stars.
      unfold starFree. cbn [list_ascii_of_string forallb].
      now rewrite He. }
  rewrite Hhead. reflexivity.
Qed.

Lemma list_ascii_of_string_app (a b : string) :
  list_ascii_of_string (a +:+ b)
  = list_ascii_of_string a ++ list_ascii_of_string b.
Proof.
  induction a as [|c a IH]; [reflexivity|].
  rewrite append_cons. cbn [list_ascii_of_string app]. now rewrite IH.
Qed.

(** X25: only the first star of a glob is a wildcard.  In a glob made of
    a star, a text without star, one more character and a second star, the
    second star repeats that character: the pattern accepts a segment
    without full stop, followed by the text and by any number of copies of
    the character, and nothing else. *)
Theorem only_the_first_star_is_a_wildcard (lit : string) (c : ascii) :
  starFree (lit +:+ String c EmptyString) = true ->
  exists re,
    globToRegExp ("*" +:+ lit +:+ String c "*") = Ok re /\
    forall key,
      test re key = true <->
      exists seg tail,
        key = seg +:+ lit +:+ tail /\
        segment seg = true /\
        forallb (Ascii.eqb c) (list_ascii_of_string tail) = true.
Proof.
  intros H.
  exists {| pieces := (ANotDot, QPlus) :: literal lit ++ [(ALit c, QStar)] |}.
  split.
  - unfold globToRegExp. rewrite (globPattern_second_star _ _ H).
    change ("^" +:+ ("[^.]+" +:+ ?x +:+ "*") +:+ "$")
      with (String "^" (("[^.]+" +:+ x +:+ "*") +:+ "$")).
    rewrite !append_assoc. change ("*" +:+ "$") with "*$".
    unfold compile.
    change ("[^.]+" +:+ ?x) with (String "[" (String "^" (String "."
              (String "]" (String "+" x))))).
    cbn [parse_body]. change (Ascii.eqb "[" "$") with false.
    change (Ascii.eqb "[" "\") with false.
    change (Ascii.eqb "[" ".") with false.
    change (Ascii.eqb "[" "[") with true. cbv iota.
    unfold quantified. change (Ascii.eqb "+" "+") with true. cbv iota.
    now rewrite (parse_body_second_star _ _ H).
  - intros key. unfold test. cbn [pieces].
    change ((ANotDot, QPlus) :: literal lit ++ [(ALit c, QStar)])
      with ([(ANotDot, QPlus)] ++ literal lit ++ [(ALit c, QStar)]).
    rewrite matches_app. split.
    + intros (s1 & s2 & Hkey & H1 & H2).
      apply matches_app in H2 as (s3 & s4 & -> & H3 & H4).
      rewrite matches_literal in H3. apply String.eqb_eq in H3.
      cbn [matches] in H4. apply star_split in H4 as (t1 & t2 & -> & Ht1 & Ht2).
      destruct t2; [|discriminate Ht2]. rewrite app_nil_r in Hkey.
      exists (string_of_list_ascii s1), (string_of_list_ascii t1).
      split; [|split].
      * rewrite <- (string_of_list_ascii_of_string key), Hkey, H3.
        rewrite <- (list_ascii_of_string_of_list_ascii s1) at 1.
        rewrite <- (list_ascii_of_string_of_list_ascii s3) at 1.
        rewrite <- (list_ascii_of_string_of_list_ascii t1) at 1.
        rewrite <- !list_ascii_of_string_app.
        now rewrite string_of_list_ascii_of_string.
      * rewrite <- test_star. unfold test, starRe. cbn [pieces].
        now rewrite list_ascii_of_string_of_list_ascii.
      * rewrite list_ascii_of_string_of_list_ascii. exact Ht1.
    + intros (seg & tail & -> & Hseg & Htail).
      exists (list_ascii_of_string seg),
        (list_ascii_of_string lit ++ list_ascii_of_string tail).
      split; [now rewrite !list_ascii_of_string_app|]. split.
      * rewrite <- test_star in Hseg. exact Hseg.
      * apply matches_app.
        exists (list_ascii_of_string lit), (list_ascii_of_string tail).
        split; [reflexivity|]. split.
        -- rewrite matches_literal, string_of_list_ascii_of_string.
           apply String.eqb_refl.
        -- cbn [matches]. apply star_split.
           exists (list_ascii_of_string tail), [].
           split; [now rewrite app_nil_r|]. now split.
Qed.

(** The glob [*.*]: a key of one segment is accepted, with or without
    full stops after it. *)
Lemma only_the_first_star_is_a_wildcard_witness :
  exists re,
    globToRegExp "*.*" = Ok re /\
    (test re "title" = true <->
     exists seg tail,
       "title" = seg +:+ "" +:+ tail /\
       segment seg = true /\
       forallb (Ascii.eqb ".") (list_ascii_of_string tail) = true).
Proof.
  destruct (only_the_first_star_is_a_wildcard "" "." eq_refl)
    as (re & Hre & Htest).
  exists re. split; [exact Hre|apply Htest].
Defined.

End GlobMore.

(** ** Episode images and the offset of the selection *)

Module ImagesMore.

Import Fields Archive Dayjs Selector SelectorProps SelectorMore.

(** The three places of an image address, in their order. *)
Lemma getImageUrl_cases (image : option Image) (itunes : option Itunes) :
  match getImageUrl image itunes with
  | Some url =>
      url <> "" /\
      ((image ≫= image_url) = Some url \/
       (truthy (image ≫= image_url) = false /\
        (image ≫= image_link) = Some url) \/
       (truthy (image ≫= image_url) = false /\
        truthy (image ≫= image_link) = false /\
        (itunes ≫= itunes_image) = Some url))
  | None =>
      truthy (image ≫= image_url) = false /\
      truthy (image ≫= image_link) = false /\
      truthy (itunes ≫= itunes_image) = false
  end.
Proof.
  unfold getImageUrl.
  destruct (truthy (image ≫= image_url)) eqn:E1.
  { destruct (image ≫= image_url) as [u|]; [|discriminate E1].
    split; [|now left]. cbn [truthy] in E1.
    apply negb_true_iff, String.eqb_neq in E1. exact E1. }
  destruct (truthy (image ≫= image_link)) eqn:E2.
  { destruct (image ≫= image_link) as [u|]; [|discriminate E2].
    split; [|right; left; now split]. cbn [truthy] in E2.
    apply negb_true_iff, String.eqb_neq in E2. exact E2. }
  destruct (truthy (itunes ≫= itunes_image)) eqn:E3.
  { destruct (itunes ≫= itunes_image) as [u|]; [|discriminate E3].
    split; [|right; right; now split]. cbn [truthy] in E3.
    apply negb_true_iff, String.eqb_neq in E3. exact E3. }
  now split.
Qed.

Section Selection.

Context {content : Type}.
Variable JSON_parse : content -> option value.
Variable path_resolve_cwd : string -> string.
Variable path_resolve3 : string -> string -> string -> string.
Variable path_extname : string -> string.
Variable URL_pathname : string -> option string.
Variable Date_parse : string -> option Z.
Variable utcOffset : Z.
Variable RegExp_new : string -> res (string -> bool).
Variable getArchiveFilename :
  option string -> option string -> option Ext -> string.
Variable getFilename :
  Item -> Feed -> option string -> string -> option string -> string.

Abbreviation getItemsToDownload :=
  (Selector.getItemsToDownload JSON_parse path_resolve_cwd path_resolve3
     path_extname URL_pathname Date_parse utcOffset RegExp_new
     getArchiveFilename getFilename).
Abbreviation turn :=
  (Selector.turn path_resolve3 path_extname URL_pathname Date_parse
     utcOffset RegExp_new getArchiveFilename getFilename).
Abbreviation extraDownloads :=
  (Selector.extraDownloads path_resolve3 path_extname URL_pathname
     getArchiveFilename getFilename).
Abbreviation getUrlExt := (Selector.getUrlExt path_extname URL_pathname).

Lemma turn_extra (o : Options) (its : list loc) (sa : value) (st : store)
  (i : Z) (l : loc) (item : Item) :
  turn o its sa st i = Ok (Some (l, item)) ->
  exists it url extra,
    st !! l = Some it /\
    extraDownloads o (annotate it i []) url = Ok extra /\
    item = annotate it i extra.
Proof.
  unfold Selector.turn. intros Hturn.
  destruct (item_at its i) as [l'| |]; cbn [Js.bind] in Hturn;
    try discriminate.
  unfold deref in Hturn. destruct (st !! l') as [it|] eqn:Hl;
    cbn [Js.bind] in Hturn; try discriminate.
  destruct (Selector.verdict _ _ _ _ _ _ o sa it) as [[isValid url]| |];
    cbn [Js.bind] in Hturn; try discriminate.
  destruct isValid; [|discriminate].
  destruct (Selector.extraDownloads _ _ _ _ _ o (annotate it i []) url)
    as [extra| |] eqn:He; cbn [Js.bind] in Hturn; try discriminate.
  injection Hturn as <- <-. now exists it, url, extra.
Qed.

Lemma extraDownloads_shape (o : Options) (item : Item)
  (url : option string) (extra : list ExtraDownload) :
  extraDownloads o item url = Ok extra ->
  (length extra <= 1)%nat /\
  (includeEpisodeImages o = false -> extra = []) /\
  (getImageUrl (image item) (itunes item) = None -> extra = []) /\
  (includeEpisodeImages o = true ->
   getImageUrl (image item) (itunes item) <> None ->
   exists d, extra = [d]) /\
  (forall d, d ∈ extra ->
     includeEpisodeImages o = true /\
     dl_url d <> "" /\
     getImageUrl (image item) (itunes item) = Some (dl_url d) /\
     exists ext base g,
       getUrlExt (Some (dl_url d)) = Ok ext /\
       dl_key d
       = getArchiveKey (archiveUrl o)
           (getArchiveFilename (pubDate item) (title item)
              (Some (ExtText ext))) /\
       basePath o = Some base /\ guid item = Some g /\
       dl_outputPath d
       = path_resolve3 base g
           (getFilename item (feed o) url ext (episodeTemplate o))).
Proof.
  unfold Selector.extraDownloads. intros H.
  destruct (includeEpisodeImages o).
  2:{ injection H as <-. split; [cbn; lia|]. split; [reflexivity|].
      split; [reflexivity|]. split; [discriminate|].
      intros d Hd. inversion Hd. }
  pose proof (getImageUrl_cases (image item) (itunes item)) as Hcases.
  destruct (getImageUrl (image item) (itunes item)) as [u|] eqn:Hu.
  2:{ cbn [truthy] in H. injection H as <-. split; [cbn; lia|].
      split; [reflexivity|]. split; [reflexivity|].
      split; [intros _ Hsome; now destruct Hsome|].
      intros d Hd. inversion Hd. }
  destruct Hcases as [Hne _].
  assert (Htruthy : truthy (Some u) = true).
  { cbn [truthy]. now apply negb_true_iff, String.eqb_neq. }
  rewrite Htruthy in H.
  destruct (Selector.getUrlExt _ _ (Some u)) as [ext| |] eqn:Hext;
    cbn [Js.bind] in H; try discriminate.
  destruct (basePath o) as [base|]; [|discriminate H].
  destruct (guid item) as [g|]; [|discriminate H].
  injection H as <-. split; [cbn; lia|]. split; [discriminate|].
  split; [discriminate|]. split; [intros _ _; now eexists|].
  intros d Hd. apply list_elem_of_singleton in Hd as ->. cbn.
  split; [reflexivity|]. split; [exact Hne|]. split; [reflexivity|].
  exists ext, base, g. split; [exact Hext|]. split; [reflexivity|].
  split; [reflexivity|]. split; reflexivity.
Qed.

(** X26: every selected entry carries at most one extra download: none
    when episode images were not asked for or when the entry has no
    non-empty [image.url], [image.link] or [itunes.image], and exactly one
    when the images were asked for and one of the three is not empty.  The
    one it carries is the download of the image.  Its address is not
    empty and is [image.url], or else [image.link] when [image.url] is
    missing or empty, or else [itunes.image] when both are missing or
    empty; its key is the archive key made of the entry's date and title
    and of the extension of that address; and its path lies under the
    base path and the entry's [guid]. *)
Theorem selected_entries_carry_their_image (fuel : nat)
  (fs : gmap string content) (st : store) (o : Options) (its : list loc)
  (selected : list loc) (st' : store) :
  feed_items (feed o) = Some its ->
  0 <= offset o ->
  (length its <= fuel)%nat ->
  getItemsToDownload fuel fs st o = Ok (selected, st') ->
  forall l, l ∈ selected ->
    exists item extra,
      st' !! l = Some item /\
      _extra_downloads item = Some extra /\
      (length extra <= 1)%nat /\
      (includeEpisodeImages o = false -> extra = []) /\
      (truthy (image item ≫= image_url) = false ->
       truthy (image item ≫= image_link) = false ->
       truthy (itunes item ≫= itunes_image) = false ->
       extra = []) /\
      (includeEpisodeImages o = true ->
       truthy (image item ≫= image_url) = true \/
       truthy (image item ≫= image_link) = true \/
       truthy (itunes item ≫= itunes_image) = true ->
       exists d, extra = [d]) /\
      (forall d, d ∈ extra ->
         includeEpisodeImages o = true /\
         dl_url d <> "" /\
         ((image item ≫= image_url) = Some (dl_url d) \/
          (truthy (image item ≫= image_url) = false /\
           (image item ≫= image_link) = Some (dl_url d)) \/
          (truthy (image item ≫= image_url) = false /\
           truthy (image item ≫= image_link) = false /\
           (itunes item ≫= itunes_image) = Some (dl_url d))) /\
         exists ext base g,
           getUrlExt (Some (dl_url d)) = Ok ext /\
           dl_key d
           = getArchiveKey (archiveUrl o)
               (getArchiveFilename (pubDate item) (title item)
                  (Some (ExtText ext))) /\
           basePath o = Some base /\ guid item = Some g /\
           exists name, dl_outputPath d = path_resolve3 base g name).
Proof.
  intros Hits Hoff Hfuel Hsel l Hl.
  destruct (selection_returns JSON_parse path_resolve_cwd path_resolve3
              path_extname URL_pathname Date_parse utcOffset RegExp_new
              getArchiveFilename getFilename fuel fs st o its selected st'
              Hits Hoff Hfuel Hsel) as (sa & us & _ & Hus & -> & ->).
  apply (sublist_elem_of _ _ _ (sublist_applyLimit _ _)) in Hl.
  rewrite <- omap_id_fst in Hl.
  pose proof (final_store_lookup (omap id us) st l) as Hlookup.
  destruct ((_ ∪ st) !! l) as [item|]; [|now destruct Hlookup].
  destruct Hlookup as [Hpair|[Habsent _]]; [|contradiction].
  destruct (pairs_from_turns path_resolve3 path_extname URL_pathname
              Date_parse utcOffset RegExp_new getArchiveFilename getFilename
              o its sa st _ us l item Hus Hpair) as (i & Hi & Hturn).
  destruct (turn_extra o its sa st i l item Hturn)
    as (it & url & extra & _ & Hextra & ->).
  destruct (extraDownloads_shape o _ url extra Hextra)
    as (Hlen & Hoff' & Hnone & Hsome & Hone).
  pose proof (getImageUrl_cases (image it) (itunes it)) as Hcases.
  exists (annotate it i extra), extra. cbn [image itunes annotate].
  split; [reflexivity|]. split; [reflexivity|]. split; [exact Hlen|].
  split; [exact Hoff'|]. split; [|split].
  - intros H1 H2 H3. apply Hnone. cbn [image itunes annotate].
    unfold getImageUrl. now rewrite H1, H2, H3.
  - intros Hon Hany. apply (Hsome Hon). cbn [image itunes annotate].
    destruct (getImageUrl (image it) (itunes it)); [discriminate|].
    destruct Hcases as (H1 & H2 & H3).
    destruct Hany as [H|[H|H]]; congruence.
  - intros d Hd.
    destruct (Hone d Hd)
      as (Hon & Hne & Hurl & ext & base & g & Hext & Hkey & Hbase & Hguid
          & Hpath).
    cbn [image itunes annotate] in Hurl. rewrite Hurl in Hcases.
    split; [exact Hon|]. split; [exact Hne|]. split; [exact (proj2 Hcases)|].
    exists ext, base, g. split; [exact Hext|]. split; [exact Hkey|].
    split; [exact Hbase|]. split; [exact Hguid|]. eexists. exact Hpath.
Qed.

End Selection.

(** An entry whose image has an empty [url], a [link] and an [itunes]
    image, selected with the episode images asked for: the download is the
    one of the [link]. *)
Lemma selected_entries_carry_their_image_witness :
  let o := Sample.withImages (Sample.plain (Sample.feedOf [0%nat]) 0 false) in
  match Sample.select 0 1 ∅ Sample.oneIllustrated o with
  | Ok (selected, st') =>
      0%nat ∈ selected /\
      exists item d,
        st' !! 0%nat = Some item /\
        _extra_downloads item = Some [d] /\
        dl_url d = "https://cdn.example.org/art/cover.png"
  | _ => False
  end.
Proof.
  intros o.
  destruct (Sample.select 0 1 ∅ Sample.oneIllustrated o)
    as [[selected st']| |] eqn:Hsel;
    [|vm_compute in Hsel; discriminate|vm_compute in Hsel; discriminate].
  assert (Hin : 0%nat ∈ selected).
  { vm_compute in Hsel. injection Hsel as <- _. left. }
  split; [exact Hin|].
  destruct (selected_entries_carry_their_image Sample.JSON_parse
              Sample.path_resolve_cwd Sample.path_resolve3
              Sample.path_extname Sample.URL_pathname Sample.Date_parse 0
              Sample.RegExp_new Sample.getArchiveFilename Sample.getFilename
              1 ∅ Sample.oneIllustrated o [0%nat] selected st'
              eq_refl ltac:(simpl; lia) ltac:(simpl; lia) Hsel 0%nat Hin)
    as (item & extra & Hitem & Hextra & _ & _ & _ & Hsome & Hone).
  assert (Himage : image item = image Sample.illustrated /\
                   itunes item = itunes Sample.illustrated).
  { vm_compute in Hsel. injection Hsel as _ <-.
    vm_compute in Hitem. injection Hitem as <-. split; reflexivity. }
  destruct Himage as [Himage Hitunes].
  rewrite Himage, Hitunes in Hsome, Hone.
  destruct (Hsome eq_refl (or_intror (or_introl eq_refl))) as [d ->].
  exists item, d. split; [exact Hitem|]. split; [exact Hextra|].
  destruct (Hone d ltac:(left)) as (_ & Hne & Haddress & _).
  destruct Haddress as [H|[[_ H]|[_ [H _]]]].
  - injection H as H. now destruct Hne.
  - now injection H.
  - discriminate H.
Defined.

End ImagesMore.

Module OffsetMore.

Import Fields Archive Dayjs Selector.

Section Selection.

Context {content : Type}.
Variable JSON_parse : content -> option value.
Variable path_resolve_cwd : string -> string.
Variable path_resolve3 : string -> string -> string -> string.
Variable path_extname : string -> string.
Variable URL_pathname : string -> option string.
Variable Date_parse : string -> option Z.
Variable utcOffset : Z.
Variable RegExp_new : string -> res (string -> bool).
Variable getArchiveFilename :
  option string -> option string -> option Ext -> string.
Variable getFilename :
  Item -> Feed -> option string -> string -> option string -> string.

Abbreviation getItemsToDownload :=
  (Selector.getItemsToDownload JSON_parse path_resolve_cwd path_resolve3
     path_extname URL_pathname Date_parse utcOffset RegExp_new
     getArchiveFilename getFilename).
Abbreviation loadArchive :=
  (Selector.loadArchive JSON_parse path_resolve_cwd).

(** X27.  With a negative offset the selection throws a [TypeError] in
    its first turn, in either direction and whatever the feed holds, also
    when it is empty: the first index lies outside [feed.items], before its
    start or after its end. *)
Theorem negative_offset_throws (fuel : nat) (fs : gmap string content)
  (st : store) (o : Options) (its : list loc) (sa : value) :
  feed_items (feed o) = Some its ->
  offset o < 0 ->
  loadArchive fs (archive o) = Ok sa ->
  getItemsToDownload (S fuel) fs st o
  = Throw (TypeError "Cannot destructure property of undefined") /\
  item_at its (startIndex (getLoopControls (offset o)
                             (Z.of_nat (length its)) (reverse o)))
  = Throw (TypeError "Cannot destructure property of undefined").
Proof.
  intros Hits Hoff Hsa.
  assert (Hat :
    item_at its (startIndex (getLoopControls (offset o)
                               (Z.of_nat (length its)) (reverse o)))
    = Throw (TypeError "Cannot destructure property of undefined")).
  { unfold getLoopControls, item_at. destruct (reverse o); cbn [startIndex].
    - destruct (Z.of_nat (length its) - 1 - offset o <? 0) eqn:E;
        [reflexivity|].
      rewrite lookup_ge_None_2; [reflexivity|]. lia.
    - replace (0 + offset o <? 0) with true; [reflexivity|].
      symmetry. apply Z.ltb_lt. lia. }
  split; [|exact Hat].
  unfold Selector.getItemsToDownload, feedItems. rewrite Hits.
  cbn [Js.bind]. rewrite Hsa. cbn [Js.bind].
  assert (Hgo :
    shouldGo (getLoopControls (offset o) (Z.of_nat (length its)) (reverse o))
      (startIndex (getLoopControls (offset o) (Z.of_nat (length its))
                     (reverse o))) = true).
  { unfold getLoopControls. destruct (reverse o); cbn [shouldGo startIndex];
      apply Z.ltb_lt; lia. }
  cbn [while]. rewrite Hgo. unfold loopBody at 1. rewrite Hat.
  reflexivity.
Qed.

End Selection.

(** Ten entries and the offset [-1], from the newest and from the oldest. *)
Lemma negative_offset_throws_witness :
  Sample.select 0 10 ∅ Sample.tenEpisodes
    (Sample.plain (Sample.feedOf Sample.tenItems) (-1) false)
  = Throw (TypeError "Cannot destructure property of undefined") /\
  Sample.select 0 10 ∅ Sample.tenEpisodes
    (Sample.plain (Sample.feedOf Sample.tenItems) (-1) true)
  = Throw (TypeError "Cannot destructure property of undefined").
Proof.
  split.
  - exact (proj1 (negative_offset_throws Sample.JSON_parse
      Sample.path_resolve_cwd Sample.path_resolve3 Sample.path_extname
      Sample.URL_pathname Sample.Date_parse 0 Sample.RegExp_new
      Sample.getArchiveFilename Sample.getFilename 9 ∅ Sample.tenEpisodes
      (Sample.plain (Sample.feedOf Sample.tenItems) (-1) false)
      Sample.tenItems (VArr []) eq_refl ltac:(simpl; lia) eq_refl)).
  - exact (proj1 (negative_offset_throws Sample.JSON_parse
      Sample.path_resolve_cwd Sample.path_resolve3 Sample.path_extname
      Sample.URL_pathname Sample.Date_parse 0 Sample.RegExp_new
      Sample.getArchiveFilename Sample.getFilename 9 ∅ Sample.tenEpisodes
      (Sample.plain (Sample.feedOf Sample.tenItems) (-1) true)
      Sample.tenItems (VArr []) eq_refl ltac:(simpl; lia) eq_refl)).
Defined.

End OffsetMore.
